(** * FastLogger: a shallow embedding of the SNJ logging core

    The development follows the sources of the repository:
    - [SPSCQueue.hpp]  : the single-producer/single-consumer ring buffer,
    - [FastLogger.hpp] : log levels, formatters, message records, the
      per-thread queue manager and the logger facade,
    and states the properties of the specification over these definitions. *)

From Stdlib Require Import ZArith Ascii String Lia DecimalString.
From stdpp Require Import base list strings gmap.

Open Scope Z_scope.

(** ** Machine integers

    [std::size_t] is a 64-bit unsigned integer; arithmetic on it wraps. *)

Definition size_t_modulus : Z := 2 ^ 64.

Definition size_t_wrap (z : Z) : Z := z mod size_t_modulus.

(** * SPSCQueue.hpp *)

Module SPSC.

Section Queue.
Context {T : Type}.

(** The template parameter [QueueSize] (1024 unless stated otherwise). *)
Variable QueueSize : Z.

(** [T _mDataBuffer[QueueSize]], [_mHead] and [_mTail]. *)
Record SPSCQueue : Type := Build {
  _mDataBuffer : list T;
  _mHead : Z;
  _mTail : Z
}.

Definition kIndexMask : Z := size_t_wrap (QueueSize - 1).

(** [getNextIndex(i) = (i + 1) & kIndexMask] *)
Definition getNextIndex (__index : Z) : Z :=
  Z.land (size_t_wrap (__index + 1)) kIndexMask.

(** [IsEmpty()]: [_mHead == _mTail] *)
Definition IsEmpty (q : SPSCQueue) : bool := _mHead q =? _mTail q.

(** The loop condition of [Enqueue]: [nextWriteIndex == _mHead]. *)
Definition IsFull (q : SPSCQueue) : bool :=
  getNextIndex (_mTail q) =? _mHead q.

(** [Enqueue(Args&&...)]: the slot at the tail is constructed in place by
    [init], which receives the storage of the slot as it is (a constructor
    that does not initialise every byte leaves the old ones); then the tail
    is published.  While the queue is full the producer spins: no consumer
    runs inside this sequential function, so a full queue gives [None]. *)
Definition Enqueue (q : SPSCQueue) (init : T → T) : option SPSCQueue :=
  let writeIndex := _mTail q in
  let nextWriteIndex := getNextIndex writeIndex in
  if nextWriteIndex =? _mHead q then None
  else Some {| _mDataBuffer := alter init (Z.to_nat writeIndex) (_mDataBuffer q);
               _mHead := _mHead q;
               _mTail := nextWriteIndex |}.

(** [Enqueue(T&)]: the slot is assigned the given value. *)
Definition EnqueueCopy (q : SPSCQueue) (__data : T) : option SPSCQueue :=
  Enqueue q (λ _, __data).

(** [Dequeue(T& __data)]: the result, the caller's slot afterwards and the
    queue afterwards.  The read index is always inside the buffer
    (see [wf]); were it not, the model leaves [__data] as it is. *)
Definition Dequeue (q : SPSCQueue) (__data : T) : bool * T * SPSCQueue :=
  if IsEmpty q then (false, __data, q)
  else
    let readIndex := _mHead q in
    (true,
     default __data (_mDataBuffer q !! Z.to_nat readIndex),
     {| _mDataBuffer := _mDataBuffer q;
        _mHead := getNextIndex readIndex;
        _mTail := _mTail q |}).

(** A freshly constructed queue: both indices are zero, the slots hold
    whatever the storage held. *)
Definition init (storage : list T) : SPSCQueue :=
  {| _mDataBuffer := storage; _mHead := 0; _mTail := 0 |}.

(** *** Logical view *)

(** Indices stay inside the buffer. *)
Definition wf (q : SPSCQueue) : Prop :=
  length (_mDataBuffer q) = Z.to_nat QueueSize ∧
  0 ≤ _mHead q < QueueSize ∧ 0 ≤ _mTail q < QueueSize.

(** Number of outstanding messages. *)
Definition count (q : SPSCQueue) : Z := (_mTail q - _mHead q) mod QueueSize.

(** The [n] slots met when walking from index [i] with [getNextIndex]. *)
Fixpoint slots (buf : list T) (i : Z) (n : nat) : list T :=
  match n with
  | O => []
  | S n' =>
      match buf !! Z.to_nat i with
      | Some v => v :: slots buf (getNextIndex i) n'
      | None => []
      end
  end.

(** The outstanding messages, oldest first. *)
Definition contents (q : SPSCQueue) : list T :=
  slots (_mDataBuffer q) (_mHead q) (Z.to_nat (count q)).

(** [n] calls of [Enqueue] in a row by the producer, no consumer running. *)
Fixpoint enqueue_n (n : nat) (q : SPSCQueue) (init : T → T) : option SPSCQueue :=
  match n with
  | O => Some q
  | S n' => q' ← Enqueue q init; enqueue_n n' q' init
  end.
End Queue.

Arguments SPSCQueue : clear implicits.

End SPSC.

(** ** The queue shared by two threads

    [Enqueue] and [Dequeue] are not atomic: each is a short sequence of loads
    and stores on [_mHead], [_mTail] and the slots.  The producer and the
    consumer are modelled as two small automata whose steps are these memory
    accesses, interleaved in any order by a schedule. *)

Module Conc.

Section Threads.
Context {T : Type}.
Variable QueueSize : Z.

(** Where the producer stands inside [Enqueue]. *)
Inductive producer : Type :=
| PIdle
  (* [_mTail] loaded, [nextWriteIndex] computed; spinning on [_mHead] *)
| PSpin (init : T → T) (writeIndex nextWriteIndex : Z)
  (* left the loop; about to construct the slot *)
| PConstruct (init : T → T) (writeIndex nextWriteIndex : Z)
  (* slot written; about to store [_mTail] *)
| PPublish (writeIndex nextWriteIndex : Z).

(** Where the consumer stands inside [Dequeue].  The two operands of
    [_mHead == _mTail.load(...)] are loaded in either order. *)
Inductive consumer : Type :=
| CIdle
| CHeadLoaded (h : Z)
| CTailLoaded (t : Z)
  (* [IsEmpty] returned false; about to load [_mHead] *)
| CNonEmpty
  (* about to [memcpy] the slot *)
| CCopy (readIndex : Z)
  (* about to store [_mHead] *)
| CAdvance (readIndex : Z).

Record state : Type := State {
  queue : SPSC.SPSCQueue T;
  prod : producer;
  cons : consumer;
  (* the consumer's [__data] *)
  out : T;
  (* history: the values passed to [Enqueue], recorded when the slot is
     constructed from the arguments of the call *)
  enqueued : list T;
  (* history: values returned by [Dequeue] calls that returned true *)
  dequeued : list T
}.

Definition initial (storage : list T) (data : T) : state :=
  {| queue := SPSC.init storage; prod := PIdle; cons := CIdle;
     out := data; enqueued := []; dequeued := [] |}.

(** One memory access of the producer.  [arg] is the argument of the next
    call; it is looked at only when a call starts. *)
Definition step_producer (arg : T → T) (s : state) : state :=
  let q := queue s in
  match prod s with
  | PIdle =>
      let writeIndex := SPSC._mTail q in
      {| queue := q; prod := PSpin arg writeIndex (SPSC.getNextIndex QueueSize writeIndex);
         cons := cons s; out := out s;
         enqueued := enqueued s; dequeued := dequeued s |}
  | PSpin f w n =>
      if n =? SPSC._mHead q then s
      else {| queue := q; prod := PConstruct f w n; cons := cons s; out := out s;
              enqueued := enqueued s; dequeued := dequeued s |}
  | PConstruct f w n =>
      {| queue := {| SPSC._mDataBuffer := alter f (Z.to_nat w) (SPSC._mDataBuffer q);
                     SPSC._mHead := SPSC._mHead q;
                     SPSC._mTail := SPSC._mTail q |};
         prod := PPublish w n; cons := cons s; out := out s;
         enqueued := enqueued s ++ option_list (f <$> SPSC._mDataBuffer q !! Z.to_nat w);
         dequeued := dequeued s |}
  | PPublish w n =>
      {| queue := {| SPSC._mDataBuffer := SPSC._mDataBuffer q;
                     SPSC._mHead := SPSC._mHead q;
                     SPSC._mTail := n |};
         prod := PIdle; cons := cons s; out := out s;
         enqueued := enqueued s; dequeued := dequeued s |}
  end.

(** One memory access of the consumer.  [head_first] picks the order of
    the two loads of [IsEmpty]; it is looked at only when a call starts. *)
Definition step_consumer (head_first : bool) (s : state) : state :=
  let q := queue s in
  let goto c := {| queue := q; prod := prod s; cons := c; out := out s;
                   enqueued := enqueued s; dequeued := dequeued s |} in
  match cons s with
  | CIdle =>
      if head_first then goto (CHeadLoaded (SPSC._mHead q))
      else goto (CTailLoaded (SPSC._mTail q))
  | CHeadLoaded h =>
      if h =? SPSC._mTail q then goto CIdle else goto CNonEmpty
  | CTailLoaded t =>
      if SPSC._mHead q =? t then goto CIdle else goto CNonEmpty
  | CNonEmpty => goto (CCopy (SPSC._mHead q))
  | CCopy r =>
      {| queue := q; prod := prod s; cons := CAdvance r;
         out := default (out s) (SPSC._mDataBuffer q !! Z.to_nat r);
         enqueued := enqueued s; dequeued := dequeued s |}
  | CAdvance r =>
      {| queue := {| SPSC._mDataBuffer := SPSC._mDataBuffer q;
                     SPSC._mHead := SPSC.getNextIndex QueueSize r;
                     SPSC._mTail := SPSC._mTail q |};
         prod := prod s; cons := CIdle; out := out s;
         enqueued := enqueued s; dequeued := dequeued s ++ [out s] |}
  end.

(** A schedule names, step by step, the thread that moves. *)
Inductive event : Type :=
| Producer (arg : T → T)
| Consumer (head_first : bool).

Definition step (s : state) (e : event) : state :=
  match e with
  | Producer arg => step_producer arg s
  | Consumer head_first => step_consumer head_first s
  end.

Definition run (schedule : list event) (s : state) : state :=
  foldl step s schedule.

(** What holds between the steps. *)
Definition producer_inv (s : state) : Prop :=
  let q := queue s in
  match prod s with
  | PIdle => True
  | PSpin _ w n => w = SPSC._mTail q ∧ n = SPSC.getNextIndex QueueSize w
  | PConstruct _ w n | PPublish w n =>
      w = SPSC._mTail q ∧ n = SPSC.getNextIndex QueueSize w ∧ n ≠ SPSC._mHead q
  end.

Definition consumer_inv (s : state) : Prop :=
  let q := queue s in
  match cons s with
  | CIdle => True
  | CHeadLoaded h => h = SPSC._mHead q
  | CTailLoaded t => t ≠ SPSC._mHead q → SPSC._mTail q ≠ SPSC._mHead q
  | CNonEmpty => SPSC._mHead q ≠ SPSC._mTail q
  | CCopy r => r = SPSC._mHead q ∧ SPSC._mHead q ≠ SPSC._mTail q
  | CAdvance r =>
      r = SPSC._mHead q ∧ SPSC._mHead q ≠ SPSC._mTail q ∧
      SPSC._mDataBuffer q !! Z.to_nat r = Some (out s)
  end.

(** The value written by the producer and not yet published. *)
Definition in_flight (s : state) : list T :=
  match prod s with
  | PPublish w _ => option_list (SPSC._mDataBuffer (queue s) !! Z.to_nat w)
  | _ => []
  end.

Definition inv (s : state) : Prop :=
  SPSC.wf QueueSize (queue s) ∧ producer_inv s ∧ consumer_inv s ∧
  enqueued s = dequeued s ++ SPSC.contents QueueSize (queue s) ++ in_flight s.
End Threads.

End Conc.

(** * FastLogger.hpp *)

(** ** Characters and text

    A [char] is a byte; text is a sequence of them.  String literals of the
    sources are written with [str]. *)

Definition text : Type := list ascii.

Definition str (s : string) : text := list_ascii_of_string s.

Definition NUL : ascii := Ascii.zero.

Definition Z_of_char (c : ascii) : Z := Z.of_N (N_of_ascii c).

Definition char_of_Z (z : Z) : ascii := ascii_of_N (Z.to_N (z mod 256)).

(** [strlen]: the number of characters before the first null.  Every array
    the sources pass to it is followed by a terminator, so a sequence without
    a null is read to its end. *)
Fixpoint strlen (s : text) : nat :=
  match s with
  | [] => O
  | c :: s' => if Ascii.eqb c NUL then O else S (strlen s')
  end.

(** The C string held by an array: its characters up to the first null. *)
Definition c_str (s : text) : text := take (strlen s) s.

(** Decimal digits of an integer, as [operator<<] writes them. *)
Definition decimal (z : Z) : text := str (NilZero.string_of_int (Z.to_int z)).

(** ** Log levels *)

Inductive LogLevel : Type := DEBUG | INFO | ERROR | FATAL.

(** The underlying [std::uint8_t] of an enumerator. *)
Definition LogLevel_value (l : LogLevel) : Z :=
  match l with DEBUG => 0 | INFO => 1 | ERROR => 2 | FATAL => 3 end.

(** [__logLevel >= _mLogLevel] compares the underlying values. *)
Definition LogLevel_ge (a b : LogLevel) : bool := LogLevel_value b <=? LogLevel_value a.

Definition LogLevelToString (__logLevel : LogLevel) : text :=
  match __logLevel with
  | DEBUG => str "DEBUG"
  | INFO => str "INFO"
  | ERROR => str "ERROR"
  | FATAL => str "FATAL"
  end.

(** A byte read back as a [LogLevel]: one of the enumerators, or none. *)
Definition LogLevel_of_char (c : ascii) : option LogLevel :=
  match Z_of_char c with
  | 0 => Some DEBUG
  | 1 => Some INFO
  | 2 => Some ERROR
  | 3 => Some FATAL
  | _ => None
  end.

(** [LogLevelToString] on the byte of a payload: the [switch] has no case for
    a value that is no enumerator and falls through to ["INVALID"]. *)
Definition LogLevelToString_raw (c : ascii) : text :=
  from_option LogLevelToString (str "INVALID") (LogLevel_of_char c).

Definition LogLevelStrToEnum (logLevelStr : text) : LogLevel :=
  if decide (logLevelStr = str "DEBUG") then DEBUG
  else if decide (logLevelStr = str "INFO") then INFO
  else if decide (logLevelStr = str "ERROR") then ERROR
  else FATAL.

(** ** Arguments of a log call

    The types for which [CopyData] and [PrintData] are modelled: [bool],
    the character types (which [operator<<] writes as one character),
    the integers of 2, 4 and 8 bytes, [float], [double], [std::string] and
    [const char*] (which string literals decay to). *)

Inductive IntWidth : Type := W16 | W32 | W64.

Definition IntWidth_bytes (w : IntWidth) : nat :=
  match w with W16 => 2 | W32 => 4 | W64 => 8 end%nat.

Inductive ArgType : Type :=
| TBool
| TChar
| TInt (signed : bool) (w : IntWidth)
| TFloat
| TDouble
| TString
| TCStr.

(** Values.  A floating-point number is held as its bit pattern; a
    [std::string] as its [size()] characters, any of which may be null; a
    [const char*] as the characters of the array it points to, of which the
    string is the part before the first null. *)
Inductive Arg : Type :=
| ABool (b : bool)
| AChar (c : ascii)
| AInt (signed : bool) (w : IntWidth) (v : Z)
| AFloat (bits : Z)
| ADouble (bits : Z)
| AString (s : text)
| ACStr (s : text).

Definition type_of (a : Arg) : ArgType :=
  match a with
  | ABool _ => TBool
  | AChar _ => TChar
  | AInt sg w _ => TInt sg w
  | AFloat _ => TFloat
  | ADouble _ => TDouble
  | AString _ => TString
  | ACStr _ => TCStr
  end.

(** [sizeof(T)] of the scalar types. *)
Definition sizeof (ty : ArgType) : nat :=
  match ty with
  | TBool | TChar => 1
  | TInt _ w => IntWidth_bytes w
  | TFloat => 4
  | TDouble => 8
  | TString | TCStr => 0
  end%nat.

(** The values a variable of the type can hold. *)
Definition Arg_ok (a : Arg) : Prop :=
  match a with
  | AInt true w v =>
      - 2 ^ (8 * Z.of_nat (IntWidth_bytes w) - 1) ≤ v < 2 ^ (8 * Z.of_nat (IntWidth_bytes w) - 1)
  | AInt false w v => 0 ≤ v < 2 ^ (8 * Z.of_nat (IntWidth_bytes w))
  | AFloat bits => 0 ≤ bits < 2 ^ 32
  | ADouble bits => 0 ≤ bits < 2 ^ 64
  | _ => True
  end.

(** *** Object representation (little-endian, two's complement) *)

Fixpoint le_bytes (n : nat) (v : Z) : list ascii :=
  match n with
  | O => []
  | S n' => char_of_Z v :: le_bytes n' (v / 256)
  end.

Fixpoint le_value (bs : list ascii) : Z :=
  match bs with
  | [] => 0
  | b :: bs' => Z_of_char b + 256 * le_value bs'
  end.

Definition to_signed (bits : Z) (u : Z) : Z :=
  if u <? 2 ^ (bits - 1) then u else u - 2 ^ bits.

(** The bytes of a scalar object. *)
Definition object_bytes (a : Arg) : list ascii :=
  match a with
  | ABool b => [if b then char_of_Z 1 else NUL]
  | AChar c => [c]
  | AInt _ w v => le_bytes (IntWidth_bytes w) v
  | AFloat bits => le_bytes 4 bits
  | ADouble bits => le_bytes 8 bits
  | AString _ | ACStr _ => []
  end.

(** The scalar object that [sizeof] bytes are read as. *)
Definition object_of_bytes (ty : ArgType) (bs : list ascii) : Arg :=
  match ty with
  | TBool => ABool (negb (le_value bs =? 0))
  | TChar => AChar (char_of_Z (le_value bs))
  | TInt true w => AInt true w (to_signed (8 * Z.of_nat (IntWidth_bytes w)) (le_value bs))
  | TInt false w => AInt false w (le_value bs)
  | TFloat => AFloat (le_value bs)
  | TDouble => ADouble (le_value bs)
  | TString => AString bs
  | TCStr => ACStr bs
  end.

(** *** What the drain thread's stream writes

    The text [operator<<] gives a floating-point number is that of the
    platform's stream; it is a parameter of the model. *)
Class Iostream : Type := {
  ostream_float : Z → text;
  ostream_double : Z → text
}.

(** [__stream << value]: the default textual rendering. *)
Definition ostream_put `{Iostream} (a : Arg) : text :=
  match a with
  | ABool b => if b then str "1" else str "0"
  | AChar c => [c]
  | AInt _ _ v => decimal v
  | AFloat bits => ostream_float bits
  | ADouble bits => ostream_double bits
  | AString s => s
  | ACStr s => c_str s
  end.

(** *** The encoding of the specification

    A scalar is its object bytes; a string is its characters followed by one
    null terminator. *)
Definition encoding (a : Arg) : list ascii :=
  match a with
  | AString s => s ++ [NUL]
  | ACStr s => c_str s ++ [NUL]
  | _ => object_bytes a
  end.

Definition encoded_size (args : list Arg) : nat :=
  length (concat (map encoding args)).

(** ** Formatters

    [LogFormatter<FormatString, CArgs...>::instance]: one object for each
    format string and tuple of argument types, so a handle is told by these
    two. *)
Record LogFormatter : Type := {
  FormatString : text;
  CArgs : list ArgType
}.

(** ** Message records *)

(** Capacity of [LogMessage::_mDataBuffer]. *)
Definition kDataBufferSize : nat := 1024.

Record LogMessage : Type := {
  (* [nullptr] in storage that no constructor has run on *)
  _mFormatter : option LogFormatter;
  _mDataBuffer : list ascii
}.

(** *** Stores through a [char*] into the buffer of a message

    Nothing in the sources bounds a store by the size of the buffer.  A store
    at an offset inside the buffer changes the buffer; a store at an offset
    past its end lands outside the message and is recorded in [spilled]. *)
Record Writer : Type := {
  buffer : list ascii;
  spilled : list (nat * ascii)
}.

Definition store (w : Writer) (off : nat) (c : ascii) : Writer :=
  if (off <? length (buffer w))%nat
  then {| buffer := <[off := c]> (buffer w); spilled := spilled w |}
  else {| buffer := buffer w; spilled := spilled w ++ [(off, c)] |}.

Fixpoint memcpy (w : Writer) (off : nat) (src : list ascii) : Writer :=
  match src with
  | [] => w
  | c :: src' => memcpy (store w off c) (S off) src'
  end.

(** [CopyData(__buffer, __data)]: the three branches of the source; the
    result is the memory afterwards and the pointer returned. *)
Definition CopyData (w : Writer) (__buffer : nat) (__data : Arg) : Writer * nat :=
  match __data with
  | AString s =>
      let w1 := memcpy w __buffer s in
      let w2 := store w1 (__buffer + length s) NUL in
      (w2, (__buffer + length s + 1)%nat)
  | ACStr s =>
      let length := strlen s in
      let w1 := memcpy w __buffer (take length s) in
      let w2 := store w1 (__buffer + length) NUL in
      (w2, (__buffer + length + 1)%nat)
  | _ =>
      (memcpy w __buffer (object_bytes __data),
       (__buffer + sizeof (type_of __data))%nat)
  end.

(** [CopyArgs(__buffer, __arg, __args...)] *)
Fixpoint CopyArgs (w : Writer) (__buffer : nat) (__args : list Arg) : Writer :=
  match __args with
  | [] => w
  | __arg :: __args' =>
      let '(w', __buffer') := CopyData w __buffer __arg in
      CopyArgs w' __buffer' __args'
  end.

(** [LogMessage(__formatter, __logLevel, __args...)] run on the storage
    [slot]: the formatter and the level byte are stored, then the arguments
    from offset [sizeof(LogLevel) = 1].  The bytes of the buffer that are not
    stored to keep what the storage held. *)
Definition construct (slot : LogMessage) (__formatter : LogFormatter)
    (__logLevel : LogLevel) (__args : list Arg) : Writer :=
  let w0 := {| buffer := _mDataBuffer slot; spilled := [] |} in
  let w1 := store w0 0 (char_of_Z (LogLevel_value __logLevel)) in
  CopyArgs w1 1 __args.

Definition LogMessage_new (slot : LogMessage) (__formatter : LogFormatter)
    (__logLevel : LogLevel) (__args : list Arg) : LogMessage :=
  {| _mFormatter := Some __formatter;
     _mDataBuffer := buffer (construct slot __formatter __logLevel __args) |}.

(** Storage with static or thread storage duration starts zeroed. *)
Definition zero_message : LogMessage :=
  {| _mFormatter := None; _mDataBuffer := replicate kDataBufferSize NUL |}.

(** ** Decoding and formatting (the drain thread's side) *)

(** Reading [n] bytes at [off]; a read that passes the end of the buffer has
    no defined result. *)
Definition load (buf : list ascii) (off n : nat) : option (list ascii) :=
  if (off + n <=? length buf)%nat then Some (take n (drop off buf)) else None.

(** [std::string str(__data)]: the characters from [off] up to the first
    null; without a null before the end of the buffer the read passes the
    end. *)
Definition load_c_str (buf : list ascii) (off : nat) : option text :=
  let rest := drop off buf in
  if (strlen rest <? length rest)%nat then Some (c_str rest) else None.

(** [PrintData<T>(__data, __stream)]: the text written to the stream and the
    pointer returned. *)
Definition PrintData `{Iostream} (T : ArgType) (buf : list ascii) (__data : nat)
  : option (text * nat) :=
  match T with
  | TString | TCStr =>
      s ← load_c_str buf __data;
      Some (s, (__data + length s + 1)%nat)
  | _ =>
      bs ← load buf __data (sizeof T);
      Some (ostream_put (object_of_bytes T bs), (__data + sizeof T)%nat)
  end.

(** [strstr(s, "{}")], as an offset into [s]. *)
Fixpoint strstr_braces (s : text) : option nat :=
  match s with
  | [] => None
  | c :: s' =>
      match s' with
      | d :: _ =>
          if Ascii.eqb c "{" && Ascii.eqb d "}" then Some O
          else S <$> strstr_braces s'
      | [] => None
      end
  end.

(** [Format<Args...>(__data, __formatStr, __stream)]: the stream afterwards. *)
Fixpoint Format `{Iostream} (Args : list ArgType) (buf : list ascii) (__data : nat)
    (__formatStr : text) (__stream : text) : option text :=
  match Args with
  | [] => Some (__stream ++ __formatStr)
  | Arg :: Args' =>
      match strstr_braces __formatStr with
      | None => Some (__stream ++ __formatStr)
      | Some placeholder =>
          '(txt, __data') ← PrintData Arg buf __data;
          Format Args' buf __data' (drop (placeholder + 2) __formatStr)
            (__stream ++ take placeholder __formatStr ++ txt)
      end
  end.

(** [Evaluate(__data, __stream)]: the format string is read as a C string. *)
Definition Evaluate `{Iostream} (f : LogFormatter) (buf : list ascii) (__data : nat)
    (__stream : text) : option text :=
  Format (CArgs f) buf __data (c_str (FormatString f)) __stream.

(** *** Template splicing, as the specification words it

    Walk the template left to right; for each placeholder write the literal
    before it, then the next text; after the last one write the rest. *)
Fixpoint spec_splice (template : text) (texts : list text) : text :=
  match texts with
  | [] => template
  | t :: texts' =>
      match strstr_braces template with
      | None => template
      | Some p => take p template ++ t ++ spec_splice (drop (p + 2) template) texts'
      end
  end.

(** ** Call sites *)

(** [makeStringLiteral(str...)]: the characters of each literal, without
    their terminators, one after the other. *)
Definition makeStringLiteral (strs : list text) : text := concat strs.

(** The formatter a [FAST_LOG] call site names: its format string is
    [__PRETTY_FUNCTION__], [":"] and the format string of the call. *)
Definition call_site_formatter (pretty_function formatString : text)
    (Args : list ArgType) : LogFormatter :=
  {| FormatString := makeStringLiteral [pretty_function; str ":"; formatString];
     CArgs := Args |}.

(** ** Time stamps *)

Record tm : Type := {
  tm_year : Z;  (* years since 1900 *)
  tm_mon : Z;   (* 0..11 *)
  tm_mday : Z;  (* 1..31 *)
  tm_hour : Z;  (* 0..23 *)
  tm_min : Z;   (* 0..59 *)
  tm_sec : Z    (* 0..60 *)
}.

Definition two_digits (z : Z) : text :=
  if z <? 10 then str "0" ++ decimal z else decimal z.

(** [std::put_time(&tm_buf, "%Y-%m-%d %H:%M:%S")] *)
Definition put_time (t : tm) : text :=
  decimal (tm_year t + 1900) ++ str "-" ++ two_digits (tm_mon t + 1) ++ str "-" ++
  two_digits (tm_mday t) ++ str " " ++ two_digits (tm_hour t) ++ str ":" ++
  two_digits (tm_min t) ++ str ":" ++ two_digits (tm_sec t).

(** What [localtime_r] fills in, for the years written with four digits. *)
Definition tm_ok (t : tm) : Prop :=
  1000 ≤ tm_year t + 1900 ≤ 9999 ∧ 0 ≤ tm_mon t ≤ 11 ∧ 1 ≤ tm_mday t ≤ 31 ∧
  0 ≤ tm_hour t ≤ 23 ∧ 0 ≤ tm_min t ≤ 59 ∧ 0 ≤ tm_sec t ≤ 60.

Definition is_digit (c : ascii) : Prop := 48 ≤ Z_of_char c ≤ 57.

Definition is_digitb (c : ascii) : bool :=
  (48 <=? Z_of_char c) && (Z_of_char c <=? 57).

(** [n] characters, all of them digits. *)
Definition digitsb (n : nat) (s : text) : bool :=
  (length s =? n)%nat && forallb is_digitb s.

(** The shape [YYYY-MM-DD HH:MM:SS]. *)
Definition timestamp_shape (s : text) : Prop :=
  ∃ y1 y2 y3 y4 m1 m2 d1 d2 h1 h2 n1 n2 s1 s2,
    s = [y1; y2; y3; y4] ++ str "-" ++ [m1; m2] ++ str "-" ++ [d1; d2] ++ str " " ++
        [h1; h2] ++ str ":" ++ [n1; n2] ++ str ":" ++ [s1; s2] ∧
    Forall is_digit [y1; y2; y3; y4; m1; m2; d1; d2; h1; h2; n1; n2; s1; s2].

(** ** The logger *)

(** [std::ofstream]: what is done to it, in order. *)
Inductive stream_op : Type :=
| Put (s : text)
| Flush.

Definition LF : ascii := "010"%char.

(** [MessageQueue = SPSCQueue<LogMessage>], of the default 1024 slots. *)
Definition kQueueSize : Z := 1024.

(** A logger with its queue manager.  The set of registered
    [ThreadScopedQueue]s is keyed by the thread each belongs to, and holds the
    state of the queue of each. *)
Record FastLogger : Type := {
  _mLogLevel : LogLevel;
  _mFileStream : list stream_op;
  _mThreadScopedQueues : gmap nat (SPSC.SPSCQueue LogMessage)
}.

Definition FastLogger_new : FastLogger :=
  {| _mLogLevel := INFO; _mFileStream := []; _mThreadScopedQueues := ∅ |}.

Definition SetLogLevel (lg : FastLogger) (__logLevel : LogLevel) : FastLogger :=
  {| _mLogLevel := __logLevel; _mFileStream := _mFileStream lg;
     _mThreadScopedQueues := _mThreadScopedQueues lg |}.

(** [RegisterScopedQueue] *)
Definition RegisterScopedQueue (lg : FastLogger) (thread : nat)
    (q : SPSC.SPSCQueue LogMessage) : FastLogger :=
  {| _mLogLevel := _mLogLevel lg; _mFileStream := _mFileStream lg;
     _mThreadScopedQueues := <[thread := q]> (_mThreadScopedQueues lg) |}.

(** *** What lies behind the buffer of a message

    The queue of a thread is one object: the array of 1024 messages, each of
    them the formatter pointer (8 bytes) followed by the 1024 bytes of
    [_mDataBuffer], 1032 bytes without padding; then [_mHead] and [_mTail],
    each aligned on 64 bytes by [CACHE_ALIGN].  The array takes
    1024 * 1032 = 64 * 16512 bytes, so [_mHead] starts where the buffer of the
    last message ends; 56 bytes of padding follow its 8 bytes, then the 8
    bytes of [_mTail] and 56 bytes of padding that end the object.  A store
    past the end of the buffer of a message therefore lands on the message in
    the next slot, and from the last slot on [_mHead]. *)
Definition sizeof_LogMessage : Z := 8 + Z.of_nat kDataBufferSize.

(** An 8-byte little-endian [size_t] after a store to its byte [k]. *)
Definition store_size_t (v : Z) (k : nat) (c : ascii) : Z :=
  le_value (<[k := c]> (le_bytes 8 v)).

(** One store at offset [off] of the buffer of the message in slot [i], for
    an offset past the end of that buffer; [pos] is the byte it lands on,
    counted from the start of the array.  A store on the bytes of a formatter
    pointer leaves a pointer that points to no formatter the model knows
    ([None]).  A store on [_mTail] is lost: [Enqueue] stores the tail after
    the constructor has run.  Past the end of the queue the store lands in
    memory the model does not hold, and there is no result. *)
Definition store_behind (i : nat) (q : SPSC.SPSCQueue LogMessage) (st : nat * ascii)
  : option (SPSC.SPSCQueue LogMessage) :=
  let '(off, c) := st in
  let pos := Z.of_nat i * sizeof_LogMessage + 8 + Z.of_nat off in
  let j := pos / sizeof_LogMessage in
  let r := pos mod sizeof_LogMessage in
  if j <? kQueueSize then
    Some {| SPSC._mDataBuffer :=
              alter (λ m, if r <? 8
                          then {| _mFormatter := None; _mDataBuffer := _mDataBuffer m |}
                          else {| _mFormatter := _mFormatter m;
                                  _mDataBuffer :=
                                    <[Z.to_nat (r - 8) := c]> (_mDataBuffer m) |})
                (Z.to_nat j) (SPSC._mDataBuffer q);
            SPSC._mHead := SPSC._mHead q;
            SPSC._mTail := SPSC._mTail q |}
  else
    let r := pos - kQueueSize * sizeof_LogMessage in
    if r <? 8 then
      Some {| SPSC._mDataBuffer := SPSC._mDataBuffer q;
              SPSC._mHead := store_size_t (SPSC._mHead q) (Z.to_nat r) c;
              SPSC._mTail := SPSC._mTail q |}
    else if r <? 128 then Some q
    else None.

(** The stores of a constructor that landed outside its message, in order. *)
Definition behind (i : nat) (q : SPSC.SPSCQueue LogMessage) (sp : list (nat * ascii))
  : option (SPSC.SPSCQueue LogMessage) :=
  foldl (λ acc st, q ← acc; store_behind i q st) (Some q) sp.

(** *** The loggers of a program *)

(** The loggers of a program, and for each thread whose
    [thread_local sThreadScopedQueue] has been constructed the logger with
    whose manager it was constructed.  [GetThreadScopedMessageQueue] is one
    function for the whole program, so a thread has one such object: the
    first call the thread makes constructs it, with the manager of that call,
    and every later call returns its queue whatever manager is passed.  No
    logger is destroyed here. *)
Record World : Type := {
  loggers : gmap nat FastLogger;
  sThreadScopedQueue : gmap nat nat
}.

(** [GetThreadScopedMessageQueue(__threadScopedQueueManager)] called by
    [thread] with the manager of the logger [manager].  When the thread-local
    object of the thread exists the call returns its queue and the manager
    passed plays no part; otherwise the object is constructed, on zeroed
    thread-local storage, and its constructor registers it with the manager
    passed.  The result is the program afterwards and the logger whose
    manager holds the queue returned, under the calling thread. *)
Definition GetThreadScopedMessageQueue (w : World) (manager thread : nat)
  : World * nat :=
  match sThreadScopedQueue w !! thread with
  | Some owner => (w, owner)
  | None =>
      let q := SPSC.init (replicate (Z.to_nat kQueueSize) zero_message) in
      ({| loggers := alter (λ lg, RegisterScopedQueue lg thread q) manager (loggers w);
          sThreadScopedQueue := <[thread := manager]> (sThreadScopedQueue w) |},
       manager)
  end.

(** [logger->Log(__formatter, __logLevel, __args...)] called by [thread]: the
    threshold is that of [logger], the queue is the calling thread's.  The
    constructor runs on the slot at the tail; its stores past the end of the
    buffer of that slot land behind it ([behind]); then the tail is stored.
    The result is the program afterwards and the stores that landed outside
    the message; there is none while the producer spins on a full queue, nor
    when a store lands outside the queue. *)
Definition Log_at (w : World) (logger thread : nat) (__formatter : LogFormatter)
    (__logLevel : LogLevel) (__args : list Arg)
  : option (World * list (nat * ascii)) :=
  lg ← loggers w !! logger;
  if LogLevel_ge __logLevel (_mLogLevel lg) then
    let '(w1, owner) := GetThreadScopedMessageQueue w logger thread in
    olg ← loggers w1 !! owner;
    q ← _mThreadScopedQueues olg !! thread;
    let writeIndex := Z.to_nat (SPSC._mTail q) in
    let slot := default zero_message (SPSC._mDataBuffer q !! writeIndex) in
    let sp := spilled (construct slot __formatter __logLevel __args) in
    q' ← SPSC.Enqueue kQueueSize q
           (λ slot, LogMessage_new slot __formatter __logLevel __args);
    q'' ← behind writeIndex q' sp;
    Some ({| loggers :=
               <[owner := {| _mLogLevel := _mLogLevel olg;
                             _mFileStream := _mFileStream olg;
                             _mThreadScopedQueues :=
                               <[thread := q'']> (_mThreadScopedQueues olg) |}]>
                 (loggers w1);
             sThreadScopedQueue := sThreadScopedQueue w1 |},
          sp)
  else Some (w, []).

(** A program whose one logger is [lg]: the threads that have their
    thread-local queue are those registered with it. *)
Definition alone (lg : FastLogger) : World :=
  {| loggers := {[ O := lg ]};
     sThreadScopedQueue := (λ _, O) <$> _mThreadScopedQueues lg |}.

(** [Log(__formatter, __logLevel, __args...)] called by [thread] in a program
    whose one logger is [lg]: the logger afterwards and the stores that
    landed outside the message. *)
Definition Log (lg : FastLogger) (thread : nat) (__formatter : LogFormatter)
    (__logLevel : LogLevel) (__args : list Arg)
  : option (FastLogger * list (nat * ascii)) :=
  '(w, sp) ← Log_at (alone lg) O thread __formatter __logLevel __args;
  lg' ← loggers w !! O;
  Some (lg', sp).

(** [WriteLog] through the [FAST_LOG] macro in function [pretty_function]. *)
Definition FAST_LOG (lg : FastLogger) (thread : nat) (pretty_function : text)
    (logLevel : LogLevel) (formatString : text) (args : list Arg)
  : option (FastLogger * list (nat * ascii)) :=
  Log lg thread (call_site_formatter pretty_function formatString (map type_of args))
    logLevel args.

(** The body of the loop of [ConsumeAndWriteLogs] for one message: what is
    done to the file stream. *)
Definition write_line `{Iostream} (now : tm) (message : LogMessage)
  : option (list stream_op) :=
  let oss := str "[" ++ put_time now ++ str "] " in
  logLevel ← _mDataBuffer message !! O;
  let oss := oss ++ str "[" ++ LogLevelToString_raw logLevel ++ str "] " in
  formatter ← _mFormatter message;
  oss ← Evaluate formatter (_mDataBuffer message) 1 oss;
  Some [Put oss; Put [LF]; Flush].

(** [while (queue.Dequeue(message) != false) ...].  The clock is read once
    for each message; [tick] counts the readings. *)
Fixpoint drain_loop `{Iostream} (fuel : nat) (clock : nat → tm) (tick : nat)
    (queue : SPSC.SPSCQueue LogMessage) (message : LogMessage)
    (file : list stream_op)
  : option (SPSC.SPSCQueue LogMessage * list stream_op * nat) :=
  match fuel with
  | O => None
  | S fuel' =>
      let '(ok, message', queue') := SPSC.Dequeue kQueueSize queue message in
      if ok then
        ops ← write_line (clock tick) message';
        drain_loop fuel' clock (S tick) queue' message' (file ++ ops)
      else Some (queue', file, tick)
  end.

(** The callback [ConsumeAndWriteLogs] hands to [ForEachQueue], run on the
    queue of [thread].  The local [message] starts with no defined value and
    is read only after [Dequeue] has filled it. *)
Definition drain_callback `{Iostream} (clock : nat → tm)
    (st : FastLogger * nat) (entry : nat * SPSC.SPSCQueue LogMessage)
  : option (FastLogger * nat) :=
  let '(lg, tick) := st in
  let '(thread, queue) := entry in
  '(queue', file, tick') ←
    drain_loop (Z.to_nat kQueueSize) clock tick queue zero_message (_mFileStream lg);
  Some ({| _mLogLevel := _mLogLevel lg; _mFileStream := file;
           _mThreadScopedQueues := <[thread := queue']> (_mThreadScopedQueues lg) |},
        tick').

(** [ForEachQueue(__callback)]: the registered queues are visited in the
    order the set yields them. *)
Definition ForEachQueue `{Iostream} (clock : nat → tm) (lg : FastLogger)
  : option (FastLogger * nat) :=
  foldl (λ acc entry, st ← acc; drain_callback clock st entry)
        (Some (lg, O))
        (map_to_list (_mThreadScopedQueues lg)).

(** [ConsumeAndWriteLogs()] *)
Definition ConsumeAndWriteLogs `{Iostream} (clock : nat → tm) (lg : FastLogger)
  : option FastLogger :=
  fst <$> ForEachQueue clock lg.

(** The messages a drain pass meets, in the order it meets them. *)
Definition outstanding (lg : FastLogger) : list LogMessage :=
  concat (map (λ '(_, queue), SPSC.contents kQueueSize queue)
            (map_to_list (_mThreadScopedQueues lg))).

(** *** Unregistering a queue *)

(** What the drain thread does while another thread sleeps: some number of
    passes, possibly none. *)
Fixpoint drain_passes `{Iostream} (passes : nat) (clock : nat → tm) (lg : FastLogger)
  : option FastLogger :=
  match passes with
  | O => Some lg
  | S passes' => lg' ← ConsumeAndWriteLogs clock lg; drain_passes passes' clock lg'
  end.

(** [UnRegisterThreadScopedQueue] up to the point where the lock is taken:
    [if (!IsEmpty()) sleep(5);]. *)
Definition unregister_wait `{Iostream} (passes : nat) (clock : nat → tm)
    (lg : FastLogger) (thread : nat) : option FastLogger :=
  match _mThreadScopedQueues lg !! thread with
  | Some q =>
      if negb (SPSC.IsEmpty q) then drain_passes passes clock lg else Some lg
  | None => Some lg
  end.

(** [_mThreadScopedQueues.erase(__threadScopedQueue)] *)
Definition erase (lg : FastLogger) (thread : nat) : FastLogger :=
  {| _mLogLevel := _mLogLevel lg; _mFileStream := _mFileStream lg;
     _mThreadScopedQueues := delete thread (_mThreadScopedQueues lg) |}.

(** [UnRegisterThreadScopedQueue], run by the destructor of the thread's
    queue: the logger when the queue is erased, and after. *)
Definition UnRegisterThreadScopedQueue `{Iostream} (passes : nat) (clock : nat → tm)
    (lg : FastLogger) (thread : nat) : option (FastLogger * FastLogger) :=
  lg1 ← unregister_wait passes clock lg thread;
  Some (lg1, erase lg1 thread).

(** ** Vocabulary of the properties *)

(** A supported argument value: one its type can hold and, for a
    [std::string], one without a null character inside. *)
Definition Arg_supported (a : Arg) : Prop :=
  Arg_ok a ∧ match a with AString s => NUL ∉ s | _ => True end.

(** The bytes a log call encodes: the level byte, then each argument. *)
Definition payload_stream (__logLevel : LogLevel) (__args : list Arg) : list ascii :=
  char_of_Z (LogLevel_value __logLevel) :: concat (map encoding __args).

(** A log call at a [FAST_LOG] site. *)
Record call : Type := {
  call_function : text;   (* [__PRETTY_FUNCTION__] *)
  call_format : text;
  call_level : LogLevel;
  call_args : list Arg
}.

Definition call_ok (c : call) : Prop :=
  (NUL ∉ call_function c) ∧ (NUL ∉ call_format c) ∧
  Forall Arg_supported (call_args c) ∧
  (length (payload_stream (call_level c) (call_args c)) ≤ kDataBufferSize)%nat.

(** The message a call constructs on some storage. *)
Definition message_of (m : LogMessage) (c : call) : Prop :=
  call_ok c ∧
  ∃ slot, length (_mDataBuffer slot) = kDataBufferSize ∧
          m = LogMessage_new slot
                (call_site_formatter (call_function c) (call_format c)
                   (map type_of (call_args c)))
                (call_level c) (call_args c).

(** The line of the specification:
    [[YYYY-MM-DD HH:MM:SS] [LEVEL] <call-site>:<rendered-template>]. *)
Definition spec_line `{Iostream} (now : tm) (c : call) : text :=
  str "[" ++ put_time now ++ str "] [" ++ LogLevelToString (call_level c) ++ str "] " ++
  spec_splice (call_function c ++ str ":" ++ call_format c)
    (map ostream_put (call_args c)).

(** What a drain pass does to the file stream for the calls drained, the
    clock read once for each: the line, the newline, the flush. *)
Fixpoint spec_lines `{Iostream} (clock : nat → tm) (tick : nat) (calls : list call)
  : list stream_op :=
  match calls with
  | [] => []
  | c :: calls' =>
      Put (spec_line (clock tick) c) :: Put [LF] :: Flush ::
      spec_lines clock (S tick) calls'
  end.

(** A queue after the consumer has taken every message. *)
Definition drained (q : SPSC.SPSCQueue LogMessage) : SPSC.SPSCQueue LogMessage :=
  {| SPSC._mDataBuffer := SPSC._mDataBuffer q;
     SPSC._mHead := SPSC._mTail q;
     SPSC._mTail := SPSC._mTail q |}.

(** What the visits of [ForEachQueue] do to the set of queues. *)
Definition drain_all (l : list (nat * SPSC.SPSCQueue LogMessage))
    (qs : gmap nat (SPSC.SPSCQueue LogMessage))
  : gmap nat (SPSC.SPSCQueue LogMessage) :=
  foldl (λ acc entry, <[entry.1 := drained entry.2]> acc) qs l.

(** In a program of one logger, the queue a call of [thread] works on: the
    one registered for the thread, or the one its first call builds and
    registers; with the logger after that. *)
Definition scoped_queue (lg : FastLogger) (thread : nat)
  : FastLogger * SPSC.SPSCQueue LogMessage :=
  match _mThreadScopedQueues lg !! thread with
  | Some q => (lg, q)
  | None =>
      let q := SPSC.init (replicate (Z.to_nat kQueueSize) zero_message) in
      (RegisterScopedQueue lg thread q, q)
  end.

(** The queue of the calling thread when [thread] calls [Log] on [logger]:
    the one its thread-local object holds, which is registered under the
    thread with the manager of the logger [owner]; for a thread that has no
    such object yet, the empty queue the call builds and registers with
    [logger]. *)
Definition calling_thread_queue (w : World) (logger thread owner : nat)
    (olg : FastLogger) (q : SPSC.SPSCQueue LogMessage) : Prop :=
  loggers w !! owner = Some olg ∧
  match sThreadScopedQueue w !! thread with
  | Some o => o = owner ∧ _mThreadScopedQueues olg !! thread = Some q
  | None => owner = logger ∧
            q = SPSC.init (replicate (Z.to_nat kQueueSize) zero_message)
  end.



(** Unregistering waiting for the drain, as the specification asks: the
    queue is empty in the state it is erased in. *)
Definition erased_only_when_empty `{Iostream} (passes : nat) (clock : nat → tm)
    (lg : FastLogger) (thread : nat) : Prop :=
  ∀ lg1 lg2 q1,
    UnRegisterThreadScopedQueue passes clock lg thread = Some (lg1, lg2) →
    _mThreadScopedQueues lg1 !! thread = Some q1 →
    SPSC.IsEmpty q1 = true.

(** Every registered queue has its indices in range and slots of the size
    of a message. *)
Definition logger_wf (lg : FastLogger) : Prop :=
  ∀ thread q, _mThreadScopedQueues lg !! thread = Some q →
    SPSC.wf kQueueSize q ∧
    Forall (λ m, length (_mDataBuffer m) = kDataBufferSize) (SPSC._mDataBuffer q).

(** Moreover every outstanding message was constructed by a log call. *)
Definition logger_ok (lg : FastLogger) : Prop :=
  ∀ thread q, _mThreadScopedQueues lg !! thread = Some q →
    SPSC.wf kQueueSize q ∧
    Forall (λ m, ∃ c, message_of m c) (SPSC.contents kQueueSize q).

(** Every logger of the program has its registered queues in order. *)
Definition world_wf (w : World) : Prop :=
  ∀ k lg, loggers w !! k = Some lg → logger_wf lg.

(** * Singleton.hpp *)

Section Singleton.
Context {Sig Args T : Type} `{EqDecision Sig}.
Variable ctor : Sig → Args → T.

(** [getInstance<Args...>(args...)].  The function is a template: each pack of
    argument types [sig] names a function of its own, with its own
    [static T Instance], constructed from the arguments of the call in which
    control first passes through its declaration.  [statics sig] is [None]
    before that.  The result is the object referred to and the statics
    afterwards. *)
Definition getInstance (statics : Sig → option T) (sig : Sig) (args : Args)
  : T * (Sig → option T) :=
  match statics sig with
  | Some Instance => (Instance, statics)
  | None =>
      let Instance := ctor sig args in
      (Instance, λ s, if decide (s = sig) then Some Instance else statics s)
  end.

(** The results of the calls of a program, in order. *)
Fixpoint getInstance_calls (statics : Sig → option T) (calls : list (Sig * Args))
  : list T :=
  match calls with
  | [] => []
  | (sig, args) :: calls' =>
      let '(Instance, statics') := getInstance statics sig args in
      Instance :: getInstance_calls statics' calls'
  end.
End Singleton.

(** * LogManager.hpp *)

(** [std::put_time(&now_tm, "%Y-%m-%d")] *)
Definition put_date (t : tm) : text :=
  decimal (tm_year t + 1900) ++ str "-" ++ two_digits (tm_mon t + 1) ++ str "-" ++
  two_digits (tm_mday t).

(** The manager.  A [std::weak_ptr<FastLogger>] is the identity of the logger
    it watches; the loggers alive are kept apart, in a heap, and a weak
    pointer has expired when the heap holds nothing at it. *)
Record LogManager : Type := {
  _logsDir : text;
  _mKeepLogging : bool;
  _loggers : list nat
}.

(** [generateLogFileName(baseFileName)], the local time being [now_tm]. *)
Definition generateLogFileName (mgr : LogManager) (baseFileName : text) (now_tm : tm)
  : text :=
  _logsDir mgr ++ str "/" ++ baseFileName ++ str "_" ++ put_date now_tm ++ str ".log".

(** [CreateLogger(baseFileName)]: the logger, the path handed to its
    constructor, the manager and the heap afterwards.  [std::make_shared]
    yields an object no pointer refers to yet, weak ones included. *)
Definition CreateLogger (mgr : LogManager) (heap : gmap nat FastLogger)
    (baseFileName : text) (now_tm : tm)
  : nat * text * LogManager * gmap nat FastLogger :=
  let logFilePath := generateLogFileName mgr baseFileName now_tm in
  let logger := fresh (dom heap ∪ list_to_set (_loggers mgr) : gset nat) in
  (logger, logFilePath,
   {| _logsDir := _logsDir mgr; _mKeepLogging := _mKeepLogging mgr;
      _loggers := _loggers mgr ++ [logger] |},
   <[logger := FastLogger_new]> heap).

(** The [for] loop of [LoggingLoop] at one weak pointer.  The clock is one
    for all loggers: [tick] counts its readings, one for each message
    drained. *)
Definition LoggingLoop_visit `{Iostream} (clock : nat → tm)
    (st : gmap nat FastLogger * nat) (weakLogger : nat)
  : option (gmap nat FastLogger * nat) :=
  let '(heap, tick) := st in
  match heap !! weakLogger with
  | Some logger =>
      logger' ← ConsumeAndWriteLogs (λ k, clock (tick + k)%nat) logger;
      Some (<[weakLogger := logger']> heap, (tick + length (outstanding logger))%nat)
  | None => Some (heap, tick)
  end.

(** The body of the [while] loop of [LoggingLoop], run under [_loggerMutex]:
    every logger still alive is drained, then the expired weak pointers are
    removed. *)
Definition LoggingLoop_body `{Iostream} (clock : nat → tm) (mgr : LogManager)
    (heap : gmap nat FastLogger) : option (LogManager * gmap nat FastLogger) :=
  '(heap', _) ← foldl (λ acc weakLogger, st ← acc; LoggingLoop_visit clock st weakLogger)
                  (Some (heap, O)) (_loggers mgr);
  Some ({| _logsDir := _logsDir mgr; _mKeepLogging := _mKeepLogging mgr;
           _loggers := filter (λ weakLogger, is_Some (heap' !! weakLogger))
                         (_loggers mgr) |},
        heap').

(** The number a sequence of decimal digits writes. *)
Definition digits_value (s : text) : Z :=
  foldl (λ acc c, 10 * acc + (Z_of_char c - 48)) 0 s.

(** ** Several loggers *)

(** [FAST_LOG(logger, ...)] at the call site of [c]. *)
Definition FAST_LOG_at (w : World) (logger thread : nat) (c : call)
  : option (World * list (nat * ascii)) :=
  Log_at w logger thread
    (call_site_formatter (call_function c) (call_format c) (map type_of (call_args c)))
    (call_level c) (call_args c).

(** ** Vocabulary of the further properties *)

(** The placeholders of a format string, counted as [Format] meets them:
    left to right, the search resuming after each ["{}"] found. *)
Fixpoint placeholders (s : text) : nat :=
  match s with
  | [] => O
  | c :: s' =>
      match s' with
      | d :: s'' =>
          if Ascii.eqb c "{" && Ascii.eqb d "}" then S (placeholders s'')
          else placeholders s'
      | [] => O
      end
  end.

(** Whether [Log] lets a call through at threshold [threshold]. *)
Definition accepted (threshold : LogLevel) (c : call) : bool :=
  LogLevel_ge (call_level c) threshold.

(** The calls of a list made one after the other by one thread. *)
Fixpoint log_all (lg : FastLogger) (thread : nat) (calls : list call)
  : option FastLogger :=
  match calls with
  | [] => Some lg
  | c :: calls' =>
      '(lg', _) ← FAST_LOG lg thread (call_function c) (call_level c)
                    (call_format c) (call_args c);
      log_all lg' thread calls'
  end.

(** The calls of several threads, one after the other in the order given,
    each with the thread that makes it. *)
Fixpoint log_threads (lg : FastLogger) (calls : list (nat * call))
  : option FastLogger :=
  match calls with
  | [] => Some lg
  | (thread, c) :: calls' =>
      '(lg', _) ← FAST_LOG lg thread (call_function c) (call_level c)
                    (call_format c) (call_args c);
      log_threads lg' calls'
  end.

(** The calls of [thread] among them that pass the filter, in order. *)
Definition calls_of (threshold : LogLevel) (thread : nat) (calls : list (nat * call))
  : list call :=
  map snd (List.filter (λ tc, Nat.eqb tc.1 thread && accepted threshold tc.2) calls).

(** * Properties of the ring buffer *)

Section Pow2.
Context {T : Type}.
Variable k : Z.
Hypothesis Hk : 0 ≤ k < 64.
Let C : Z := 2 ^ k.

Lemma C_range : 1 ≤ C ≤ 2 ^ 63.
Proof.
  unfold C. split.
  - assert (0 < 2 ^ k) by (apply Z.pow_pos_nonneg; lia). lia.
  - apply Z.pow_le_mono_r; lia.
Qed.

Lemma kIndexMask_ones : SPSC.kIndexMask C = Z.ones k.
Proof.
  pose proof C_range as HC.
  unfold SPSC.kIndexMask, size_t_wrap, size_t_modulus.
  rewrite Z.mod_small by lia. rewrite Z.ones_equiv. unfold C. lia.
Qed.

Lemma getNextIndex_mod i :
  0 ≤ i < C → SPSC.getNextIndex C i = (i + 1) mod C.
Proof.
  intros Hi. pose proof C_range as HC.
  unfold SPSC.getNextIndex. rewrite kIndexMask_ones.
  unfold size_t_wrap, size_t_modulus.
  rewrite Z.mod_small by lia. rewrite Z.land_ones by lia. reflexivity.
Qed.

Lemma getNextIndex_cases i :
  0 ≤ i < C →
  SPSC.getNextIndex C i = if decide (i + 1 = C) then 0 else i + 1.
Proof.
  intros Hi. rewrite getNextIndex_mod by done.
  case_decide as E.
  - rewrite E. apply Z.mod_same. lia.
  - apply Z.mod_small. lia.
Qed.

Lemma getNextIndex_range i :
  0 ≤ i < C → 0 ≤ SPSC.getNextIndex C i < C.
Proof. intros Hi. rewrite getNextIndex_cases by done. case_decide; lia. Qed.

Lemma sub_mod_cases t h :
  0 ≤ h < C → 0 ≤ t < C →
  (t - h) mod C = if decide (h ≤ t) then t - h else t - h + C.
Proof.
  intros Hh Ht. case_decide.
  - apply Z.mod_small. lia.
  - symmetry. apply (Z.mod_unique _ _ (-1)); lia.
Qed.

(** Index arithmetic on in-range indices, reduced to linear facts. *)
Ltac index_arith :=
  repeat match goal with
  | |- context [SPSC.getNextIndex C ?i] => rewrite (getNextIndex_cases i) by lia
  | H : context [SPSC.getNextIndex C ?i] |- _ =>
      rewrite (getNextIndex_cases i) in H by lia
  end;
  repeat case_decide;
  repeat match goal with
  | |- context [(?t - ?h) mod C] => rewrite (sub_mod_cases t h) by lia
  | H : context [(?t - ?h) mod C] |- _ => rewrite (sub_mod_cases t h) in H by lia
  end;
  repeat case_decide; try lia.

Implicit Types (q : SPSC.SPSCQueue T) (buf storage : list T) (f : T → T) (d : T).

Lemma wf_init storage :
  length storage = Z.to_nat C → SPSC.wf C (SPSC.init storage).
Proof. pose proof C_range. intros Hl. repeat split; simpl; try done; lia. Qed.

Lemma count_range q : SPSC.wf C q → 0 ≤ SPSC.count C q ≤ C - 1.
Proof. intros (_ & Hh & Ht). unfold SPSC.count. index_arith. Qed.

Lemma IsEmpty_count q :
  SPSC.wf C q → SPSC.IsEmpty q = true ↔ SPSC.count C q = 0.
Proof.
  intros (_ & Hh & Ht). unfold SPSC.IsEmpty, SPSC.count.
  rewrite Z.eqb_eq. index_arith.
Qed.

Lemma IsFull_count q :
  SPSC.wf C q → SPSC.IsFull C q = true ↔ SPSC.count C q = C - 1.
Proof.
  intros (_ & Hh & Ht). unfold SPSC.IsFull, SPSC.count.
  rewrite Z.eqb_eq. index_arith.
Qed.

Lemma Enqueue_full q f :
  SPSC.Enqueue C q f = None ↔ SPSC.IsFull C q = true.
Proof.
  unfold SPSC.Enqueue, SPSC.IsFull.
  destruct (SPSC.getNextIndex C (SPSC._mTail q) =? SPSC._mHead q); split; done.
Qed.

Lemma Enqueue_wf q f q' :
  SPSC.wf C q → SPSC.Enqueue C q f = Some q' → SPSC.wf C q'.
Proof.
  intros (Hl & Hh & Ht). unfold SPSC.Enqueue.
  destruct (_ =? _); [done|]. intros [= <-].
  repeat split; simpl; try lia.
  - by rewrite length_alter.
  - by apply getNextIndex_range.
  - by apply getNextIndex_range.
Qed.

Lemma Dequeue_wf q d :
  SPSC.wf C q → SPSC.wf C (SPSC.Dequeue C q d).2.
Proof.
  intros (Hl & Hh & Ht). unfold SPSC.Dequeue.
  destruct (SPSC.IsEmpty q); simpl; [done|].
  repeat split; simpl; try lia; by apply getNextIndex_range.
Qed.

Lemma length_slots buf i n :
  length buf = Z.to_nat C → 0 ≤ i < C →
  length (SPSC.slots C buf i n) = n.
Proof.
  intros Hl. revert i. induction n as [|n IH]; intros i Hi; simpl; [done|].
  destruct (lookup_lt_is_Some_2 buf (Z.to_nat i)) as [v ->]; [lia|].
  simpl. rewrite IH; [done|]. by apply getNextIndex_range.
Qed.

Lemma length_contents q :
  SPSC.wf C q → length (SPSC.contents C q) = Z.to_nat (SPSC.count C q).
Proof. intros (Hl & Hh & Ht). by apply length_slots. Qed.

Lemma slots_S buf i n :
  SPSC.slots C buf i (S n) =
  match buf !! Z.to_nat i with
  | Some v => v :: SPSC.slots C buf (SPSC.getNextIndex C i) n
  | None => []
  end.
Proof. reflexivity. Qed.

(** A write outside the walked range does not change the walk. *)
Lemma slots_alter_outside buf f t i n :
  0 ≤ i < C → 0 ≤ t < C → Z.of_nat n ≤ (t - i) mod C →
  SPSC.slots C (alter f (Z.to_nat t) buf) i n = SPSC.slots C buf i n.
Proof.
  revert i. induction n as [|n IH]; intros i Hi Ht Hn; simpl; [done|].
  assert (i ≠ t) by (intros ->; rewrite Z.sub_diag, Z.mod_0_l in Hn; lia).
  rewrite list_lookup_alter_ne by lia.
  destruct (buf !! Z.to_nat i); [|done]. f_equal.
  apply IH; [by apply getNextIndex_range|done|].
  revert Hn. index_arith.
Qed.

(** Walking one slot further appends the slot reached. *)
Lemma slots_snoc buf t v i n :
  length buf = Z.to_nat C → 0 ≤ i < C → 0 ≤ t < C →
  Z.of_nat n = (t - i) mod C → buf !! Z.to_nat t = Some v →
  SPSC.slots C buf i (S n) = SPSC.slots C buf i n ++ [v].
Proof.
  intros Hl. revert i. induction n as [|n IH]; intros i Hi Ht Hn Hv.
  - assert (i = t) as -> by (revert Hn; index_arith). simpl. by rewrite Hv.
  - assert (i ≠ t) by (intros ->; rewrite Z.sub_diag, Z.mod_0_l in Hn; lia).
    rewrite (slots_S buf i (S n)), (slots_S buf i n).
    destruct (lookup_lt_is_Some_2 buf (Z.to_nat i)) as [w ->]; [lia|].
    rewrite IH; [done|by apply getNextIndex_range|done| |done].
    revert Hn. index_arith.
Qed.

Lemma Enqueue_contents q f q' :
  SPSC.wf C q → SPSC.Enqueue C q f = Some q' →
  ∃ old, SPSC._mDataBuffer q !! Z.to_nat (SPSC._mTail q) = Some old ∧
         SPSC._mDataBuffer q' !! Z.to_nat (SPSC._mTail q) = Some (f old) ∧
         SPSC.contents C q' = SPSC.contents C q ++ [f old] ∧
         SPSC.count C q' = SPSC.count C q + 1.
Proof.
  intros Hwf. pose proof (count_range q Hwf) as Hr. unfold SPSC.count in Hr.
  destruct Hwf as (Hl & Hh & Ht). unfold SPSC.Enqueue.
  destruct (_ =? _) eqn:E; [done|]. intros [= <-]. apply Z.eqb_neq in E.
  destruct (lookup_lt_is_Some_2 (SPSC._mDataBuffer q) (Z.to_nat (SPSC._mTail q)))
    as [old Hold]; [lia|].
  exists old. split; [done|]. simpl.
  assert (Hnew : alter f (Z.to_nat (SPSC._mTail q)) (SPSC._mDataBuffer q)
                   !! Z.to_nat (SPSC._mTail q) = Some (f old)).
  { rewrite list_lookup_alter_eq. by rewrite Hold. }
  split; [done|].
  assert (Hc : (SPSC.getNextIndex C (SPSC._mTail q) - SPSC._mHead q) mod C
               = (SPSC._mTail q - SPSC._mHead q) mod C + 1).
  { revert E. index_arith. }
  split; [|done].
  unfold SPSC.contents, SPSC.count. simpl. rewrite Hc.
  rewrite Z2Nat.inj_add, Nat.add_1_r by lia.
  rewrite (slots_snoc _ (SPSC._mTail q) (f old)); try done.
  - f_equal. apply slots_alter_outside; try done. lia.
  - by rewrite length_alter.
  - lia.
Qed.

Lemma Dequeue_empty q d :
  SPSC.IsEmpty q = true → SPSC.Dequeue C q d = (false, d, q).
Proof. unfold SPSC.Dequeue. by intros ->. Qed.

Lemma Dequeue_contents q d :
  SPSC.wf C q → SPSC.IsEmpty q = false →
  ∃ v q', SPSC.Dequeue C q d = (true, v, q') ∧
          SPSC._mDataBuffer q !! Z.to_nat (SPSC._mHead q) = Some v ∧
          SPSC.contents C q = v :: SPSC.contents C q' ∧
          SPSC.count C q' = SPSC.count C q - 1.
Proof.
  intros (Hl & Hh & Ht) E. unfold SPSC.Dequeue. rewrite E.
  destruct (lookup_lt_is_Some_2 (SPSC._mDataBuffer q) (Z.to_nat (SPSC._mHead q)))
    as [v Hv]; [lia|].
  eexists _, _. split; [done|]. rewrite Hv. simpl. split; [done|].
  apply Z.eqb_neq in E.
  assert (Hc : (SPSC._mTail q - SPSC.getNextIndex C (SPSC._mHead q)) mod C
               = (SPSC._mTail q - SPSC._mHead q) mod C - 1).
  { revert E. index_arith. }
  split; [|done].
  unfold SPSC.contents, SPSC.count. simpl. rewrite Hc.
  assert (0 < (SPSC._mTail q - SPSC._mHead q) mod C) as Hpos.
  { revert E. index_arith. }
  destruct (Z.to_nat ((SPSC._mTail q - SPSC._mHead q) mod C)) as [|n] eqn:En; [lia|].
  simpl. rewrite Hv. do 2 f_equal. lia.
Qed.

(** *** The interleaved execution keeps its invariant *)

Lemma contents_publish buf h t v :
  length buf = Z.to_nat C → 0 ≤ h < C → 0 ≤ t < C →
  SPSC.getNextIndex C t ≠ h → buf !! Z.to_nat t = Some v →
  SPSC.contents C (SPSC.Build buf h (SPSC.getNextIndex C t)) =
  SPSC.contents C (SPSC.Build buf h t) ++ [v].
Proof.
  intros Hl Hh Ht E Hv. unfold SPSC.contents, SPSC.count. simpl.
  assert (Hc : (SPSC.getNextIndex C t - h) mod C = (t - h) mod C + 1).
  { revert E. index_arith. }
  assert (0 ≤ (t - h) mod C) by index_arith.
  rewrite Hc, Z2Nat.inj_add, Nat.add_1_r by lia.
  apply (slots_snoc buf t v); try done. lia.
Qed.

Lemma contents_advance buf h t v :
  length buf = Z.to_nat C → 0 ≤ h < C → 0 ≤ t < C →
  h ≠ t → buf !! Z.to_nat h = Some v →
  SPSC.contents C (SPSC.Build buf h t) =
  v :: SPSC.contents C (SPSC.Build buf (SPSC.getNextIndex C h) t).
Proof.
  intros Hl Hh Ht E Hv. unfold SPSC.contents, SPSC.count. simpl.
  assert (Hc : (t - SPSC.getNextIndex C h) mod C = (t - h) mod C - 1).
  { revert E. index_arith. }
  assert (0 < (t - h) mod C) as Hpos by (revert E; index_arith).
  rewrite Hc.
  destruct (Z.to_nat ((t - h) mod C)) as [|n] eqn:En; [lia|].
  simpl. rewrite Hv. do 2 f_equal. lia.
Qed.

Lemma contents_construct buf h t f :
  0 ≤ h < C → 0 ≤ t < C →
  SPSC.contents C (SPSC.Build (alter f (Z.to_nat t) buf) h t) =
  SPSC.contents C (SPSC.Build buf h t).
Proof.
  intros Hh Ht. unfold SPSC.contents, SPSC.count. simpl.
  apply slots_alter_outside; try done.
  assert (0 ≤ (t - h) mod C) by index_arith. lia.
Qed.

Lemma step_producer_inv arg (s : Conc.state (T := T)) :
  Conc.inv C s → Conc.inv C (Conc.step_producer C arg s).
Proof.
  destruct s as [[buf h t] p c o e d].
  unfold Conc.inv, Conc.producer_inv, Conc.consumer_inv, Conc.in_flight,
    Conc.step_producer, SPSC.wf; simpl.
  intros ((Hl & Hh & Ht) & Hp & Hc & He).
  destruct p as [|f w n|f w n|w n]; simpl.
  - done.
  - destruct Hp as [-> ->]. destruct (_ =? _) eqn:E; simpl; [done|].
    apply Z.eqb_neq in E. done.
  - destruct Hp as (-> & -> & Hn).
    destruct (lookup_lt_is_Some_2 buf (Z.to_nat t)) as [old Hold]; [lia|].
    rewrite length_alter, list_lookup_alter_eq, Hold. simpl.
    repeat split; try done; try lia.
    + destruct c; simpl in *; try done.
      destruct Hc as (-> & E & Ho). repeat split; try done; try lia.
      rewrite list_lookup_alter_ne by lia. done.
    + rewrite contents_construct by done. rewrite He.
      by rewrite app_nil_r, app_assoc.
  - destruct Hp as (-> & -> & Hn).
    pose proof (getNextIndex_range t Ht).
    destruct (lookup_lt_is_Some_2 buf (Z.to_nat t)) as [v Hv]; [lia|].
    rewrite Hv in He. simpl in He.
    repeat split; try done; try lia.
    + destruct c; simpl in *; try done; intuition congruence.
    + rewrite (contents_publish buf h t v) by done. by rewrite app_nil_r.
Qed.

Lemma step_consumer_inv b (s : Conc.state (T := T)) :
  Conc.inv C s → Conc.inv C (Conc.step_consumer C b s).
Proof.
  destruct s as [[buf h t] p c o e d].
  unfold Conc.inv, Conc.producer_inv, Conc.consumer_inv, Conc.in_flight,
    Conc.step_consumer, SPSC.wf; simpl.
  intros ((Hl & Hh & Ht) & Hp & Hc & He).
  destruct c as [|h'|t'| |r|r]; simpl.
  - destruct b; simpl; done.
  - subst h'. destruct (_ =? _) eqn:E; simpl; [done|].
    apply Z.eqb_neq in E. done.
  - destruct (_ =? _) eqn:E; simpl; [done|].
    apply Z.eqb_neq in E. repeat split; try done; try lia.
  - done.
  - destruct Hc as [-> E].
    destruct (lookup_lt_is_Some_2 buf (Z.to_nat h)) as [v Hv]; [lia|].
    rewrite Hv. simpl. done.
  - destruct Hc as (-> & E & Ho).
    pose proof (getNextIndex_range h Hh).
    repeat split; try done; try lia.
    + destruct p; simpl in *; try done;
        destruct Hp as (-> & -> & Hn); repeat split; try done;
        revert E Hn; index_arith.
    + rewrite He, (contents_advance buf h t o) by done.
      by rewrite <- app_assoc.
Qed.

Lemma initial_inv storage d :
  length storage = Z.to_nat C → Conc.inv C (Conc.initial storage d).
Proof.
  intros Hl. split; [by apply wf_init|]. repeat split.
Qed.

Lemma run_inv schedule (s : Conc.state (T := T)) :
  Conc.inv C s → Conc.inv C (Conc.run C schedule s).
Proof.
  revert s. induction schedule as [|ev schedule IH]; intros s Hs; [done|].
  apply IH. destruct ev; [by apply step_producer_inv|by apply step_consumer_inv].
Qed.

Lemma enqueue_n_count n q f :
  SPSC.wf C q → SPSC.count C q + Z.of_nat n ≤ C - 1 →
  ∃ q', SPSC.enqueue_n C n q f = Some q' ∧ SPSC.wf C q' ∧
        SPSC.count C q' = SPSC.count C q + Z.of_nat n.
Proof.
  revert q. induction n as [|n IH]; intros q Hwf Hn; simpl.
  - exists q. repeat split; try done; try apply Hwf. lia.
  - destruct (SPSC.Enqueue C q f) as [q1|] eqn:E.
    + destruct (Enqueue_contents q f q1 Hwf E) as (old & _ & _ & _ & Hc).
      destruct (IH q1) as (q' & Hq' & Hwf' & Hc'); [by eapply Enqueue_wf|lia|].
      exists q'. repeat split; try done; try apply Hwf'. lia.
    + apply Enqueue_full, IsFull_count in E; [lia|done].
Qed.
End Pow2.

(** ** The threads run alone compute [Enqueue] and [Dequeue] *)

Section Alone.
Context {T : Type}.
Variable QueueSize : Z.
Implicit Types (s : Conc.state (T := T)) (arg : T → T).

Lemma run_cons (ev : Conc.event) schedule s :
  Conc.run QueueSize (ev :: schedule) s =
  Conc.run QueueSize schedule (Conc.step QueueSize s ev).
Proof. reflexivity. Qed.

(** Runs the first event of the schedule on a state given as a record. *)
Ltac thread_step :=
  rewrite run_cons;
  match goal with
  | |- context [Conc.step QueueSize ?s ?ev] =>
      let s' := eval cbv beta iota zeta delta
                  [Conc.step Conc.step_producer Conc.step_consumer
                   Conc.prod Conc.queue Conc.cons Conc.out Conc.enqueued Conc.dequeued
                   SPSC._mHead SPSC._mTail SPSC._mDataBuffer]
                in (Conc.step QueueSize s ev) in
      change (Conc.step QueueSize s ev) with s'
  end.

Ltac thread_steps E := cbn [replicate]; repeat (thread_step; rewrite ?E).

(** X7. A whole [Enqueue] call of the producer, nothing else moving, is four
    memory accesses when the queue has room, and leaves the queue the
    sequential [Enqueue] gives; the consumer's side is untouched. *)
Lemma producer_alone s arg q' :
  Conc.prod s = Conc.PIdle →
  SPSC.Enqueue QueueSize (Conc.queue s) arg = Some q' →
  let s' := Conc.run QueueSize (replicate 4 (Conc.Producer arg)) s in
  Conc.queue s' = q' ∧ Conc.prod s' = Conc.PIdle ∧ Conc.cons s' = Conc.cons s ∧
  Conc.out s' = Conc.out s ∧ Conc.dequeued s' = Conc.dequeued s ∧
  Conc.enqueued s' =
    Conc.enqueued s ++
    option_list (arg <$> SPSC._mDataBuffer (Conc.queue s)
                           !! Z.to_nat (SPSC._mTail (Conc.queue s))).
Proof.
  destruct s as [[buf h t] p c o e d]. cbn [Conc.prod Conc.queue]. intros -> HE.
  unfold SPSC.Enqueue in HE. cbn [SPSC._mHead SPSC._mTail SPSC._mDataBuffer] in HE.
  destruct (SPSC.getNextIndex QueueSize t =? h) eqn:E; [done|]. injection HE as <-.
  thread_steps E. cbn. done.
Qed.

(** X6. On a full queue the producer alone never leaves the loop, however
    many times it looks at the head: after any number of its steps it is
    still waiting on the same next index, and the queue, the consumer with
    the caller's slot, and the histories of enqueued and of dequeued values
    are as they were; nothing is written, nothing is dropped, the call does
    not return. *)
Lemma producer_spins s arg n :
  Conc.prod s = Conc.PIdle →
  SPSC.Enqueue QueueSize (Conc.queue s) arg = None →
  let s' := Conc.run QueueSize (replicate (S n) (Conc.Producer arg)) s in
  Conc.queue s' = Conc.queue s ∧
  Conc.prod s' =
    Conc.PSpin arg (SPSC._mTail (Conc.queue s))
      (SPSC.getNextIndex QueueSize (SPSC._mTail (Conc.queue s))) ∧
  Conc.cons s' = Conc.cons s ∧
  Conc.out s' = Conc.out s ∧
  Conc.enqueued s' = Conc.enqueued s ∧
  Conc.dequeued s' = Conc.dequeued s.
Proof.
  destruct s as [[buf h t] p c o e d]. cbn [Conc.prod Conc.queue]. intros -> HE.
  unfold SPSC.Enqueue in HE. cbn [SPSC._mHead SPSC._mTail SPSC._mDataBuffer] in HE.
  destruct (SPSC.getNextIndex QueueSize t =? h) eqn:E; [|done].
  cbn [replicate Conc.run foldl Conc.step].
  set (s1 := Conc.step_producer QueueSize arg _).
  assert (Hs1 : s1 = Conc.State (SPSC.Build buf h t)
                       (Conc.PSpin arg t (SPSC.getNextIndex QueueSize t)) c o e d)
    by reflexivity.
  clearbody s1. subst s1.
  induction n as [|n IH]; [done|].
  cbn [replicate foldl Conc.step].
  replace (Conc.step_producer QueueSize arg
             (Conc.State (SPSC.Build buf h t)
                (Conc.PSpin arg t (SPSC.getNextIndex QueueSize t)) c o e d))
    with (Conc.State (SPSC.Build buf h t)
            (Conc.PSpin arg t (SPSC.getNextIndex QueueSize t)) c o e d); [exact IH|].
  cbv beta iota zeta delta [Conc.step_producer Conc.prod Conc.queue SPSC._mHead].
  by rewrite E.
Qed.

(** X8. A whole [Dequeue] call of the consumer, nothing else moving, is two
    memory accesses on an empty queue and five otherwise, in either order of
    the two loads of [IsEmpty], and leaves the queue and the caller's slot as
    the sequential [Dequeue] gives them. *)
Lemma consumer_alone s head_first :
  Conc.cons s = Conc.CIdle →
  let '(ok, data, q') := SPSC.Dequeue QueueSize (Conc.queue s) (Conc.out s) in
  let s' := Conc.run QueueSize
              (replicate (if ok then 5 else 2) (Conc.Consumer head_first)) s in
  Conc.queue s' = q' ∧ Conc.out s' = data ∧ Conc.cons s' = Conc.CIdle ∧
  Conc.prod s' = Conc.prod s ∧ Conc.enqueued s' = Conc.enqueued s ∧
  Conc.dequeued s' = Conc.dequeued s ++ (if ok then [data] else []).
Proof.
  destruct s as [[buf h t] p c o e d]. cbn [Conc.cons Conc.queue Conc.out]. intros ->.
  unfold SPSC.Dequeue, SPSC.IsEmpty. cbn [SPSC._mHead SPSC._mTail SPSC._mDataBuffer].
  destruct (h =? t) eqn:E.
  - destruct head_first; thread_steps E; cbn; by rewrite app_nil_r.
  - destruct head_first; thread_steps E; cbn; done.
Qed.
End Alone.

(** ** The claims about the ring buffer *)

(** C1. Whatever the interleaving of the producer's and the consumer's memory
    accesses, the values returned by [Dequeue] are, in order, the values passed
    to [Enqueue]: the history of the former is an initial segment of the
    history of the latter, what is missing is exactly what the ring still
    holds (plus the one value written and not yet published), and once the
    producer is idle and the ring is empty the two histories are equal. *)
Theorem spsc_fifo {T : Type} (k : Z) (storage : list T) (data : T)
    (schedule : list (Conc.event (T := T))) :
  0 ≤ k < 64 →
  length storage = Z.to_nat (2 ^ k) →
  let s := Conc.run (2 ^ k) schedule (Conc.initial storage data) in
  Conc.enqueued s =
    Conc.dequeued s ++ SPSC.contents (2 ^ k) (Conc.queue s) ++ Conc.in_flight s ∧
  Conc.dequeued s `prefix_of` Conc.enqueued s ∧
  (Conc.prod s = Conc.PIdle → SPSC.IsEmpty (Conc.queue s) = true →
   Conc.dequeued s = Conc.enqueued s).
Proof.
  intros Hk Hl s.
  assert (Hinv : Conc.inv (2 ^ k) s).
  { apply run_inv; [done|]. by apply initial_inv. }
  destruct Hinv as (Hwf & _ & _ & He).
  split; [done|]. split.
  - rewrite He. by eexists.
  - intros Hp Hempty. rewrite He. unfold Conc.in_flight. rewrite Hp.
    apply (IsEmpty_count k Hk) in Hempty; [|done].
    unfold SPSC.contents. rewrite Hempty. simpl. by rewrite app_nil_r.
Qed.

Lemma spsc_fifo_witness :
  let schedule :=
    [Conc.Producer (λ _, 7%nat); Conc.Producer id; Conc.Consumer true;
     Conc.Producer id; Conc.Consumer true; Conc.Producer id;
     Conc.Producer (λ _, 9%nat); Conc.Producer id; Conc.Consumer false;
     Conc.Producer id; Conc.Consumer false; Conc.Producer id;
     Conc.Consumer true; Conc.Consumer true; Conc.Consumer true;
     Conc.Consumer true; Conc.Consumer true; Conc.Consumer true;
     Conc.Consumer true; Conc.Consumer true] in
  let s := Conc.run (2 ^ 2) schedule (Conc.initial [0; 0; 0; 0]%nat 0%nat) in
  (0 ≤ 2 < 64 ∧ length [0; 0; 0; 0]%nat = Z.to_nat (2 ^ 2)) ∧
  (Conc.enqueued s = [7; 9]%nat ∧ Conc.dequeued s = [7; 9]%nat) ∧
  (Conc.enqueued s =
     Conc.dequeued s ++ SPSC.contents (2 ^ 2) (Conc.queue s) ++ Conc.in_flight s ∧
   Conc.dequeued s `prefix_of` Conc.enqueued s ∧
   (Conc.prod s = Conc.PIdle → SPSC.IsEmpty (Conc.queue s) = true →
    Conc.dequeued s = Conc.enqueued s)).
Proof.
  intros schedule s. split; [split; [lia|reflexivity]|].
  split; [split; reflexivity|].
  apply (spsc_fifo 2 [0; 0; 0; 0]%nat 0%nat schedule); [lia|reflexivity].
Defined.

(** X4. Whatever the interleaving, the producer never constructs the slot
    the consumer is copying: no slot is written and read at the same time. *)
Lemma no_slot_race {T : Type} (k : Z) (storage : list T) (data : T)
    (schedule : list (Conc.event (T := T))) f w n r :
  0 ≤ k < 64 →
  length storage = Z.to_nat (2 ^ k) →
  let s := Conc.run (2 ^ k) schedule (Conc.initial storage data) in
  Conc.prod s = Conc.PConstruct f w n → Conc.cons s = Conc.CCopy r → w ≠ r.
Proof.
  intros Hk Hl s Hp Hc.
  assert (Hinv : Conc.inv (2 ^ k) s).
  { apply run_inv; [done|]. by apply initial_inv. }
  destruct Hinv as (_ & Hpi & Hci & _).
  unfold Conc.producer_inv in Hpi. unfold Conc.consumer_inv in Hci.
  rewrite Hp in Hpi. rewrite Hc in Hci. intuition congruence.
Qed.

(** C4. In a ring of 1024 slots: [IsEmpty] holds iff head and tail are equal,
    which is when no message is outstanding; the producer finds the ring full
    iff [(tail + 1) mod 1024 = head], which is when 1023 messages are
    outstanding; never more than 1023 are, so one slot is always unused; and
    1023 are reached by 1023 calls of [Enqueue] on a fresh queue. *)
Theorem ring_1024_capacity {T : Type} (q : SPSC.SPSCQueue T) (f : T → T) :
  SPSC.wf 1024 q →
  (SPSC.IsEmpty q = true ↔ SPSC._mHead q = SPSC._mTail q) ∧
  (SPSC.IsEmpty q = true ↔ SPSC.contents 1024 q = []) ∧
  (SPSC.IsFull 1024 q = true ↔ (SPSC._mTail q + 1) mod 1024 = SPSC._mHead q) ∧
  (SPSC.Enqueue 1024 q f = None ↔ SPSC.IsFull 1024 q = true) ∧
  (SPSC.IsFull 1024 q = true ↔ length (SPSC.contents 1024 q) = 1023%nat) ∧
  (length (SPSC.contents 1024 q) ≤ 1023)%nat ∧
  (∃ q', SPSC.enqueue_n 1024 1023 (SPSC.init (SPSC._mDataBuffer q)) f = Some q' ∧
         length (SPSC.contents 1024 q') = 1023%nat ∧
         SPSC.Enqueue 1024 q' f = None).
Proof.
  intros Hwf.
  assert (Hk : 0 ≤ 10 < 64) by lia.
  change 1024 with (2 ^ 10) in *.
  pose proof (count_range 10 Hk q Hwf) as Hr.
  pose proof (length_contents 10 Hk q Hwf) as Hlen.
  split; [apply Z.eqb_eq|].
  split.
  { rewrite (IsEmpty_count 10 Hk q Hwf). split.
    - intros E. apply length_zero_iff_nil. lia.
    - intros E. rewrite E in Hlen. simpl in Hlen. lia. }
  split.
  { unfold SPSC.IsFull. rewrite Z.eqb_eq.
    rewrite (getNextIndex_mod 10 Hk) by apply Hwf. done. }
  split; [apply (Enqueue_full 10)|].
  split.
  { rewrite (IsFull_count 10 Hk q Hwf). change (2 ^ 10 - 1) with 1023 in *. lia. }
  split.
  { change (2 ^ 10 - 1) with 1023 in *. lia. }
  assert (Hwf0 : SPSC.wf (2 ^ 10) (SPSC.init (SPSC._mDataBuffer q))).
  { apply (wf_init 10 Hk). apply Hwf. }
  destruct (enqueue_n_count 10 Hk 1023 (SPSC.init (SPSC._mDataBuffer q)) f Hwf0)
    as (q' & Hq' & Hwf' & Hc').
  { change (SPSC.count (2 ^ 10) (SPSC.init (SPSC._mDataBuffer q))) with 0.
    change (Z.of_nat 1023) with 1023. lia. }
  exists q'. split; [done|].
  assert (Hc1 : SPSC.count (2 ^ 10) q' = 1023) by (rewrite Hc'; reflexivity).
  split.
  - rewrite (length_contents 10 Hk q' Hwf'), Hc1. done.
  - apply (Enqueue_full 10), (IsFull_count 10 Hk q' Hwf'). rewrite Hc1. done.
Qed.

Lemma ring_1024_capacity_witness :
  let q := SPSC.Build (replicate 1024 0%nat) 5 4 in
  SPSC.wf 1024 q ∧
  (SPSC.IsFull 1024 q = true ↔ length (SPSC.contents 1024 q) = 1023%nat) ∧
  (length (SPSC.contents 1024 q) ≤ 1023)%nat.
Proof.
  intros q.
  assert (Hwf : SPSC.wf 1024 q) by (repeat split; simpl; try lia; reflexivity).
  split; [exact Hwf|].
  pose proof (ring_1024_capacity q id Hwf) as H.
  split; apply H.
Defined.

(** C9. [Dequeue] returns false iff the queue is empty, which is iff head and
    tail are equal; and when it returns false the queue (head, tail and every
    slot) and the caller's slot are as they were. *)
Theorem Dequeue_false_iff_empty {T : Type} (QueueSize : Z)
    (q : SPSC.SPSCQueue T) (data : T) :
  let '(ok, data', q') := SPSC.Dequeue QueueSize q data in
  (ok = false ↔ SPSC.IsEmpty q = true) ∧
  (ok = false ↔ SPSC._mHead q = SPSC._mTail q) ∧
  (ok = false →
   SPSC._mHead q' = SPSC._mHead q ∧ SPSC._mTail q' = SPSC._mTail q ∧
   SPSC._mDataBuffer q' = SPSC._mDataBuffer q ∧ q' = q ∧ data' = data).
Proof.
  unfold SPSC.Dequeue.
  destruct (SPSC.IsEmpty q) eqn:E; simpl.
  - apply Z.eqb_eq in E. done.
  - apply Z.eqb_neq in E. repeat split; done.
Qed.

(** C10. On a queue that is not full, [Enqueue] writes the slot at the old
    tail and no other, moves the tail to [(tail + 1) & (C - 1)] and leaves the
    head alone.  [Dequeue] writes no slot and leaves the tail alone; the head
    moves to [(head + 1) & (C - 1)], which is [(head + 1) mod C], when a
    message is returned, and stays otherwise. *)
Theorem Enqueue_Dequeue_frame {T : Type} (k : Z) (q : SPSC.SPSCQueue T)
    (f : T → T) (data : T) :
  0 ≤ k < 64 →
  SPSC.wf (2 ^ k) q →
  (SPSC.IsFull (2 ^ k) q = false →
   ∃ q' old,
     SPSC.Enqueue (2 ^ k) q f = Some q' ∧
     SPSC._mDataBuffer q !! Z.to_nat (SPSC._mTail q) = Some old ∧
     SPSC._mDataBuffer q' = <[Z.to_nat (SPSC._mTail q) := f old]> (SPSC._mDataBuffer q) ∧
     SPSC._mDataBuffer q' !! Z.to_nat (SPSC._mTail q) = Some (f old) ∧
     (∀ j, j ≠ Z.to_nat (SPSC._mTail q) →
           SPSC._mDataBuffer q' !! j = SPSC._mDataBuffer q !! j) ∧
     SPSC._mTail q' = Z.land (SPSC._mTail q + 1) (2 ^ k - 1) ∧
     SPSC._mHead q' = SPSC._mHead q) ∧
  (let '(ok, _, q') := SPSC.Dequeue (2 ^ k) q data in
   SPSC._mDataBuffer q' = SPSC._mDataBuffer q ∧
   SPSC._mTail q' = SPSC._mTail q ∧
   SPSC._mHead q' =
     (if ok then Z.land (SPSC._mHead q + 1) (2 ^ k - 1) else SPSC._mHead q) ∧
   (ok = true → SPSC._mHead q' = (SPSC._mHead q + 1) mod 2 ^ k)).
Proof.
  intros Hk Hwf. pose proof (C_range k Hk) as HC.
  assert (Hnext : ∀ i, 0 ≤ i < 2 ^ k →
            SPSC.getNextIndex (2 ^ k) i = Z.land (i + 1) (2 ^ k - 1)).
  { intros i Hi. unfold SPSC.getNextIndex, SPSC.kIndexMask, size_t_wrap, size_t_modulus.
    rewrite !Z.mod_small by lia. done. }
  destruct Hwf as (Hl & Hh & Ht). split.
  - intros Hfull. unfold SPSC.IsFull in Hfull. unfold SPSC.Enqueue. rewrite Hfull.
    destruct (lookup_lt_is_Some_2 (SPSC._mDataBuffer q) (Z.to_nat (SPSC._mTail q)))
      as [old Hold]; [lia|].
    eexists _, old. split; [done|]. simpl. split; [done|].
    assert (Hb : alter f (Z.to_nat (SPSC._mTail q)) (SPSC._mDataBuffer q) =
                 <[Z.to_nat (SPSC._mTail q) := f old]> (SPSC._mDataBuffer q)).
    { apply list_eq. intros j. destruct (decide (j = Z.to_nat (SPSC._mTail q))) as [->|].
      - rewrite list_lookup_alter_eq, Hold, list_lookup_insert_eq by lia. done.
      - rewrite list_lookup_alter_ne, list_lookup_insert_ne by done. done. }
    rewrite Hb. split; [done|]. split; [by rewrite list_lookup_insert_eq by lia|].
    split; [by intros j Hj; rewrite list_lookup_insert_ne|].
    split; [by apply Hnext|done].
  - unfold SPSC.Dequeue. destruct (SPSC.IsEmpty q); simpl; [done|].
    repeat split; try done; [by apply Hnext|].
    intros _. rewrite <- (getNextIndex_mod k Hk) by done. done.
Qed.

Lemma Enqueue_Dequeue_frame_witness :
  let q := SPSC.Build [10; 20; 30; 40]%nat 3 1 in
  (0 ≤ 2 < 64 ∧ SPSC.wf (2 ^ 2) q) ∧
  SPSC.Enqueue (2 ^ 2) q (λ _, 50%nat) = Some (SPSC.Build [10; 50; 30; 40]%nat 3 2) ∧
  SPSC.Dequeue (2 ^ 2) q 0%nat = (true, 40%nat, SPSC.Build [10; 20; 30; 40]%nat 0 1) ∧
  (let '(ok, _, q') := SPSC.Dequeue (2 ^ 2) q 0%nat in
   SPSC._mDataBuffer q' = SPSC._mDataBuffer q ∧
   SPSC._mTail q' = SPSC._mTail q ∧
   SPSC._mHead q' =
     (if ok then Z.land (SPSC._mHead q + 1) (2 ^ 2 - 1) else SPSC._mHead q) ∧
   (ok = true → SPSC._mHead q' = (SPSC._mHead q + 1) mod 2 ^ 2)).
Proof.
  intros q.
  assert (Hk : 0 ≤ 2 < 64) by lia.
  assert (Hwf : SPSC.wf (2 ^ 2) q) by (repeat split; simpl; try lia; reflexivity).
  split; [done|]. split; [reflexivity|]. split; [reflexivity|].
  apply (Enqueue_Dequeue_frame 2 q id 0%nat Hk Hwf).
Defined.

(** * Properties of the message encoding *)

Section Encoding.
Implicit Types (w : Writer) (off : nat) (src bs : list ascii) (a : Arg).

Lemma store_memcpy w off c : store w off c = memcpy w off [c].
Proof. reflexivity. Qed.

Lemma memcpy_app w off src1 src2 :
  memcpy w off (src1 ++ src2) = memcpy (memcpy w off src1) (off + length src1) src2.
Proof.
  revert w off. induction src1 as [|c src1 IH]; intros w off; simpl.
  - by rewrite Nat.add_0_r.
  - rewrite IH. f_equal. lia.
Qed.

(** A copy lands inside the buffer as far as the buffer goes; the bytes
    beyond are the ones that land outside. *)
Lemma memcpy_spec w off src :
  memcpy w off src =
  {| buffer := take (length (buffer w)) (take off (buffer w) ++ src) ++
               drop (off + length src) (buffer w);
     spilled := spilled w ++
                drop (length (buffer w) - off) (imap (λ i c, ((off + i)%nat, c)) src) |}.
Proof.
  revert w off. induction src as [|c src IH]; intros [b sp] off; simpl.
  - rewrite drop_nil, !app_nil_r, Nat.add_0_r. f_equal.
    rewrite (take_ge (take off b)) by (rewrite length_take; lia).
    by rewrite take_drop.
  - rewrite IH. unfold store. simpl.
    destruct (off <? length b)%nat eqn:E; simpl.
    + apply Nat.ltb_lt in E.
      destruct (lookup_lt_is_Some_2 b off E) as [x Hx].
      rewrite length_insert. f_equal.
      * rewrite (take_S_r _ _ c) by (by rewrite list_lookup_insert_eq).
        rewrite take_insert_ge by lia.
        rewrite drop_insert_lt by lia.
        rewrite <- app_assoc. simpl. do 2 f_equal. lia.
      * f_equal. replace (length b - off)%nat with (S (length b - S off)) by lia.
        simpl. f_equal. apply imap_ext. intros i y _. simpl. f_equal. lia.
    + apply Nat.ltb_ge in E. f_equal.
      * rewrite (take_ge b (S off)), (take_ge b off) by lia.
        rewrite !take_app_le by lia. rewrite !drop_ge by lia. done.
      * rewrite <- app_assoc. f_equal.
        replace (length b - S off)%nat with O by lia.
        replace (length b - off)%nat with O by lia.
        simpl. rewrite Nat.add_0_r. f_equal.
        apply imap_ext. intros i y _. simpl. f_equal. lia.
Qed.

Lemma length_le_bytes n v : length (le_bytes n v) = n.
Proof. revert v. induction n as [|n IH]; intros v; simpl; [done|]. by rewrite IH. Qed.

Lemma length_object_bytes a :
  match a with AString _ | ACStr _ => True | _ =>
    length (object_bytes a) = sizeof (type_of a) end.
Proof. destruct a; simpl; try done; apply length_le_bytes. Qed.

(** [CopyData] stores the encoding of the argument at the pointer and
    returns the pointer past it. *)
Lemma CopyData_encoding w off a :
  CopyData w off a = (memcpy w off (encoding a), (off + length (encoding a))%nat).
Proof.
  destruct a; simpl; try done;
    rewrite ?length_le_bytes; try done.
  - rewrite memcpy_app, length_app. simpl. f_equal. lia.
  - rewrite memcpy_app, length_app. unfold c_str. simpl.
    rewrite length_take.
    assert (strlen s ≤ length s)%nat.
    { clear. induction s as [|c s IH]; simpl; [done|]. destruct (Ascii.eqb c NUL); lia. }
    rewrite Nat.min_l by done. f_equal. lia.
Qed.

Lemma CopyArgs_encoding w off args :
  CopyArgs w off args = memcpy w off (concat (map encoding args)).
Proof.
  revert w off. induction args as [|a args IH]; intros w off; [done|].
  cbn [CopyArgs map concat]. rewrite CopyData_encoding, IH, memcpy_app. done.
Qed.

(** The constructor stores the level byte and the encodings, packed, from
    the start of the buffer; nothing else of the storage changes. *)
Lemma construct_spec slot f lvl args :
  construct slot f lvl args =
  {| buffer := take (length (_mDataBuffer slot)) (payload_stream lvl args) ++
               drop (length (payload_stream lvl args)) (_mDataBuffer slot);
     spilled := drop (length (_mDataBuffer slot))
                  (imap (λ i c, (i, c)) (payload_stream lvl args)) |}.
Proof.
  unfold construct. rewrite store_memcpy, CopyArgs_encoding.
  rewrite <- (memcpy_app _ 0 [_]). rewrite memcpy_spec. simpl.
  by rewrite Nat.sub_0_r.
Qed.

Lemma length_construct slot f lvl args :
  length (buffer (construct slot f lvl args)) = length (_mDataBuffer slot).
Proof.
  rewrite construct_spec. cbn [buffer].
  rewrite length_app, length_take, length_drop. lia.
Qed.
End Encoding.

(** * Properties of decoding *)

Section Decoding.
Context `{Iostream}.
Implicit Types (s pre post buf : list ascii) (a : Arg).

Lemma Z_of_char_range c : 0 ≤ Z_of_char c < 256.
Proof. unfold Z_of_char. pose proof (N_ascii_bounded c). lia. Qed.

Lemma Z_of_char_of_Z z : Z_of_char (char_of_Z z) = z mod 256.
Proof.
  unfold Z_of_char, char_of_Z.
  assert (0 ≤ z mod 256 < 256) by (apply Z.mod_pos_bound; lia).
  rewrite N_ascii_embedding by lia. lia.
Qed.

Lemma char_of_Z_of_char c : char_of_Z (Z_of_char c) = c.
Proof.
  unfold char_of_Z. rewrite Z.mod_small by apply Z_of_char_range.
  unfold Z_of_char. rewrite N2Z.id. apply ascii_N_embedding.
Qed.

Lemma le_value_le_bytes n v :
  le_value (le_bytes n v) = v mod 2 ^ (8 * Z.of_nat n).
Proof.
  revert v. induction n as [|n IH]; intros v.
  - simpl. by rewrite Z.mod_1_r.
  - cbn [le_bytes le_value]. rewrite IH, Z_of_char_of_Z.
    replace (8 * Z.of_nat (S n)) with (8 + 8 * Z.of_nat n) by lia.
    rewrite Z.pow_add_r by lia. change (2 ^ 8) with 256.
    rewrite Z.rem_mul_r; [done|lia|]. apply Z.pow_pos_nonneg; lia.
Qed.

Lemma to_signed_mod bits v :
  0 < bits → - 2 ^ (bits - 1) ≤ v < 2 ^ (bits - 1) →
  to_signed bits (v mod 2 ^ bits) = v.
Proof.
  intros Hb Hv. unfold to_signed.
  assert (Hp : 2 ^ bits = 2 * 2 ^ (bits - 1)).
  { rewrite <- Z.pow_succ_r by lia. f_equal. lia. }
  assert (0 < 2 ^ (bits - 1)) by (apply Z.pow_pos_nonneg; lia).
  destruct (decide (0 ≤ v)).
  - rewrite Z.mod_small by lia. case_match; [done|]. apply Z.ltb_ge in H1. lia.
  - assert (v mod 2 ^ bits = v + 2 ^ bits) as ->.
    { symmetry. apply (Z.mod_unique _ _ (-1)); lia. }
    case_match; [|lia]. apply Z.ltb_lt in H1. lia.
Qed.

(** Reading back the object bytes of a scalar gives the scalar. *)
Lemma object_roundtrip a :
  Arg_ok a →
  match a with
  | AString _ | ACStr _ => True
  | _ => object_of_bytes (type_of a) (object_bytes a) = a
  end.
Proof.
  destruct a as [[]|c|[] w v|bits|bits|s|s]; intros Hok; try done;
    cbn [type_of object_bytes object_of_bytes Arg_ok] in *.
  - cbn [le_value]. by rewrite Z.mul_0_r, Z.add_0_r, char_of_Z_of_char.
  - rewrite le_value_le_bytes, to_signed_mod; [done| |done]. destruct w; simpl; lia.
  - rewrite le_value_le_bytes, Z.mod_small; done.
  - rewrite le_value_le_bytes, Z.mod_small; done.
  - rewrite le_value_le_bytes, Z.mod_small; done.
Qed.

(** *** C strings *)

Lemma strlen_le s : (strlen s ≤ length s)%nat.
Proof. induction s as [|c s IH]; simpl; [done|]. destruct (Ascii.eqb c NUL); lia. Qed.

Lemma strlen_app_nul s post : NUL ∉ s → strlen (s ++ NUL :: post) = length s.
Proof.
  induction s as [|c s IH]; intros Hs; simpl; [done|].
  apply not_elem_of_cons in Hs as [Hc Hs].
  destruct (Ascii.eqb c NUL) eqn:E.
  - apply Ascii.eqb_eq in E. congruence.
  - by rewrite IH.
Qed.

Lemma strlen_nul_free s : NUL ∉ s → strlen s = length s.
Proof.
  induction s as [|c s IH]; intros Hs; simpl; [done|].
  apply not_elem_of_cons in Hs as [Hc Hs].
  destruct (Ascii.eqb c NUL) eqn:E.
  - apply Ascii.eqb_eq in E. congruence.
  - by rewrite IH.
Qed.

Lemma c_str_nul_free s : NUL ∉ c_str s.
Proof.
  unfold c_str. induction s as [|c s IH]; simpl; [apply not_elem_of_nil|].
  destruct (Ascii.eqb c NUL) eqn:E; simpl; [apply not_elem_of_nil|].
  apply Ascii.eqb_neq in E. apply not_elem_of_cons. split; [congruence|done].
Qed.

Lemma c_str_id s : NUL ∉ s → c_str s = s.
Proof. intros Hs. unfold c_str. rewrite strlen_nul_free by done. apply firstn_all. Qed.

Lemma c_str_app_nul s post : NUL ∉ s → c_str (s ++ NUL :: post) = s.
Proof. intros Hs. unfold c_str. rewrite strlen_app_nul by done. apply take_app_length. Qed.

Lemma c_str_idemp s : c_str (c_str s) = c_str s.
Proof. apply c_str_id, c_str_nul_free. Qed.

(** The decoder reads a string up to the terminator the encoder wrote. *)
Lemma load_c_str_encoding pre s post :
  NUL ∉ s → load_c_str (pre ++ (s ++ [NUL]) ++ post) (length pre) = Some s.
Proof.
  intros Hs. unfold load_c_str. rewrite drop_app_length.
  rewrite <- app_assoc. simpl. rewrite strlen_app_nul, c_str_app_nul by done.
  rewrite length_app. simpl.
  destruct (length s <? length s + S (length post))%nat eqn:E; [done|].
  apply Nat.ltb_ge in E. lia.
Qed.

Lemma load_encoding pre bs post :
  load (pre ++ bs ++ post) (length pre) (length bs) = Some bs.
Proof.
  unfold load. rewrite !length_app.
  destruct (_ <=? _)%nat eqn:E; [|apply Nat.leb_gt in E; lia].
  by rewrite drop_app_length, take_app_length.
Qed.

(** [PrintData] on the encoding of a supported argument writes the default
    rendering of the argument and returns the pointer past the encoding. *)
Lemma PrintData_encoding pre a post :
  Arg_supported a →
  PrintData (type_of a) (pre ++ encoding a ++ post) (length pre) =
  Some (ostream_put a, (length pre + length (encoding a))%nat).
Proof.
  intros [Hok Hnul].
  pose proof (object_roundtrip a Hok) as Hrt.
  pose proof (length_object_bytes a) as Hlen.
  destruct a as [b|c|sg w v|bits|bits|s|s]; cbn [type_of PrintData encoding] in *;
    try (rewrite <- Hlen, load_encoding; cbn [mbind option_bind]; rewrite Hrt; done).
  - rewrite load_c_str_encoding by done. cbn [mbind option_bind ostream_put].
    rewrite length_app. simpl. do 2 f_equal. lia.
  - rewrite load_c_str_encoding by apply c_str_nul_free.
    cbn [mbind option_bind ostream_put].
    rewrite length_app. simpl. do 2 f_equal. lia.
Qed.

(** [Format] on the encodings of supported arguments splices their default
    renderings into the format string. *)
Lemma Format_encoding args pre post fmt stream :
  Forall Arg_supported args →
  Format (map type_of args) (pre ++ concat (map encoding args) ++ post)
    (length pre) fmt stream =
  Some (stream ++ spec_splice fmt (map ostream_put args)).
Proof.
  revert pre fmt stream. induction args as [|a args IH]; intros pre fmt stream Hok.
  - done.
  - apply Forall_cons in Hok as [Ha Hok].
    cbn [map Format spec_splice concat].
    destruct (strstr_braces fmt) as [p|]; [|done].
    rewrite <- (app_assoc (encoding a)).
    rewrite PrintData_encoding by done. simpl.
    rewrite <- length_app.
    rewrite (app_assoc pre (encoding a)).
    rewrite IH by done. by rewrite <- !app_assoc.
Qed.
End Decoding.

(** *** The constructor and the decoder together *)

Lemma LogMessage_new_fits slot f lvl args :
  (length (payload_stream lvl args) ≤ length (_mDataBuffer slot))%nat →
  _mDataBuffer (LogMessage_new slot f lvl args) =
  payload_stream lvl args ++ drop (length (payload_stream lvl args)) (_mDataBuffer slot).
Proof.
  intros Hfit. unfold LogMessage_new. cbn [_mDataBuffer].
  rewrite construct_spec. cbn [buffer]. by rewrite take_ge by lia.
Qed.

Lemma construct_spilled_nil slot f lvl args :
  spilled (construct slot f lvl args) = [] ↔
  (length (payload_stream lvl args) ≤ length (_mDataBuffer slot))%nat.
Proof.
  rewrite construct_spec. cbn [spilled]. split.
  - intros E. apply (f_equal length) in E.
    rewrite length_drop, length_imap in E. simpl in *. lia.
  - intros Hfit. apply drop_ge. rewrite length_imap. lia.
Qed.

Lemma Evaluate_payload `{Iostream} template lvl args post stream :
  Forall Arg_supported args →
  Evaluate {| FormatString := template; CArgs := map type_of args |}
    (payload_stream lvl args ++ post) 1 stream =
  Some (stream ++ spec_splice (c_str template) (map ostream_put args)).
Proof.
  intros Hargs. unfold Evaluate. cbn [CArgs FormatString].
  by apply (Format_encoding args [char_of_Z (LogLevel_value lvl)]).
Qed.

(** ** The claims about the encoding *)

(** C3. For supported arguments whose encoding fits the payload, the
    constructor stores the level byte and then, packed one after the other,
    the raw bytes of each scalar and the characters of each string followed
    by one null; and decoding that payload splices into the format string, at
    each successive placeholder, the default rendering of the corresponding
    argument. *)
Theorem encode_decode_roundtrip `{Iostream} (slot : LogMessage) (template : text)
    (lvl : LogLevel) (args : list Arg) (stream : text) :
  length (_mDataBuffer slot) = kDataBufferSize →
  Forall Arg_supported args →
  (length (payload_stream lvl args) ≤ kDataBufferSize)%nat →
  let f := {| FormatString := template; CArgs := map type_of args |} in
  let m := LogMessage_new slot f lvl args in
  _mDataBuffer m =
    char_of_Z (LogLevel_value lvl) :: concat (map encoding args) ++
    drop (1 + encoded_size args) (_mDataBuffer slot) ∧
  spilled (construct slot f lvl args) = [] ∧
  Evaluate f (_mDataBuffer m) 1 stream =
    Some (stream ++ spec_splice (c_str template) (map ostream_put args)).
Proof.
  intros Hslot Hargs Hfit f m.
  assert (Hbuf := LogMessage_new_fits slot f lvl args). rewrite Hslot in Hbuf.
  specialize (Hbuf Hfit). fold m in Hbuf.
  split; [exact Hbuf|]. split.
  - apply construct_spilled_nil. by rewrite Hslot.
  - rewrite Hbuf. by apply Evaluate_payload.
Qed.

Lemma encode_decode_roundtrip_witness :
  let ios := {| ostream_float := λ _, str "1.5"; ostream_double := λ _, str "2.5" |} in
  let args := [AInt true W32 (-42); ACStr (str "ab"); ABool true; ADouble 7;
               AString (str "xyz"); AInt false W16 65535] in
  let template := str "i={} s={} b={} d={} t={} u={}." in
  let f := {| FormatString := template; CArgs := map type_of args |} in
  let m := LogMessage_new zero_message f ERROR args in
  (length (_mDataBuffer zero_message) = kDataBufferSize ∧
   Forall Arg_supported args ∧
   (length (payload_stream ERROR args) ≤ kDataBufferSize)%nat) ∧
  Evaluate f (_mDataBuffer m) 1 [] = Some (str "i=-42 s=ab b=1 d=2.5 t=xyz u=65535.") ∧
  Evaluate f (_mDataBuffer m) 1 [] =
    Some ([] ++ spec_splice (c_str template) (map ostream_put args)).
Proof.
  intros ios args template f m.
  assert (H1 : length (_mDataBuffer zero_message) = kDataBufferSize) by reflexivity.
  assert (H2 : Forall Arg_supported args).
  { repeat constructor; try (vm_compute; congruence);
      intros Hin; repeat (apply elem_of_cons in Hin as [Hin|Hin]; [discriminate|]);
      by apply elem_of_nil in Hin. }
  assert (H3 : (length (payload_stream ERROR args) ≤ kDataBufferSize)%nat).
  { vm_compute. lia. }
  split; [done|]. split; [reflexivity|].
  apply (encode_decode_roundtrip zero_message template ERROR args [] H1 H2 H3).
Defined.

(** The [const char*] branch of [CopyData] stops at the first null: the
    argument is encoded as the string before that null is. *)
Lemma CopyData_c_str_truncates w off s :
  CopyData w off (ACStr s) = CopyData w off (ACStr (c_str s)).
Proof.
  rewrite !CopyData_encoding. cbn [encoding]. by rewrite c_str_idemp.
Qed.

(** C7, at a [std::string] with a null inside.  [CopyData] copies all
    [size()] characters, the decoder stops at the first null: the payload is
    not the one of the truncated string, and the argument after the string is
    read from the wrong place. *)
Theorem interior_nul_desynchronises `{Iostream} :
  let f := call_site_formatter (str "f") (str "{} {}") [TString; TInt true W32] in
  let whole := [AString ["a"; NUL; "b"]%char; AInt true W32 7] in
  let truncated := [AString ["a"]%char; AInt true W32 7] in
  let m := LogMessage_new zero_message f INFO whole in
  let m' := LogMessage_new zero_message f INFO truncated in
  take 9 (_mDataBuffer m) =
    [char_of_Z 1; "a"; NUL; "b"; NUL; char_of_Z 7; NUL; NUL; NUL]%char ∧
  take 9 (_mDataBuffer m') =
    [char_of_Z 1; "a"; NUL; char_of_Z 7; NUL; NUL; NUL; NUL; NUL]%char ∧
  Evaluate f (_mDataBuffer m) 1 [] = Some (str "f:a 458850") ∧
  Evaluate f (_mDataBuffer m') 1 [] = Some (str "f:a 7").
Proof. repeat split; vm_compute; reflexivity. Qed.

(** * Properties of the logger *)

Section Logger.
Context `{Iostream}.
Implicit Types (lg : FastLogger) (q : SPSC.SPSCQueue LogMessage) (m : LogMessage).

Lemma k10 : 0 ≤ 10 < 64.
Proof. lia. Qed.

Lemma kQueueSize_pow : kQueueSize = 2 ^ 10.
Proof. reflexivity. Qed.

Lemma FastLogger_new_wf : logger_wf FastLogger_new.
Proof. intros thread q Hq. simpl in Hq. by rewrite lookup_empty in Hq. Qed.

(** The queue [Log] works on is well formed, and registering its successor
    changes the entry of the calling thread only. *)
Lemma scoped_queue_spec lg thread :
  logger_wf lg →
  ∃ lg1 q,
    scoped_queue lg thread = (lg1, q) ∧
    SPSC.wf kQueueSize q ∧
    Forall (λ m, length (_mDataBuffer m) = kDataBufferSize) (SPSC._mDataBuffer q) ∧
    _mLogLevel lg1 = _mLogLevel lg ∧ _mFileStream lg1 = _mFileStream lg ∧
    _mThreadScopedQueues lg1 = <[thread := q]> (_mThreadScopedQueues lg).
Proof.
  intros Hwf. unfold scoped_queue.
  destruct (_mThreadScopedQueues lg !! thread) as [q|] eqn:E.
  - destruct (Hwf thread q E) as [Hq Hs].
    exists lg, q. repeat split; try done; try apply Hq.
    by rewrite insert_id.
  - eexists _, _. split; [done|]. split; [|split]; [| |done].
    + rewrite kQueueSize_pow. apply (wf_init 10 k10).
      by rewrite length_replicate.
    + cbn [SPSC.init SPSC._mDataBuffer]. apply Forall_replicate. reflexivity.
Qed.

Lemma behind_nil (i : nat) q : behind i q [] = Some q.
Proof. done. Qed.

(** In a program of one logger [Log] works on the queue registered for the
    thread with that logger, or on the one its first call registers. *)
Lemma Log_unfold lg thread f lvl args :
  Log lg thread f lvl args =
  if LogLevel_ge lvl (_mLogLevel lg) then
    let '(lg1, q) := scoped_queue lg thread in
    let writeIndex := Z.to_nat (SPSC._mTail q) in
    let slot := default zero_message (SPSC._mDataBuffer q !! writeIndex) in
    let sp := spilled (construct slot f lvl args) in
    q' ← SPSC.Enqueue kQueueSize q (λ slot, LogMessage_new slot f lvl args);
    q'' ← behind writeIndex q' sp;
    Some (RegisterScopedQueue lg1 thread q'', sp)
  else Some (lg, []).
Proof.
  unfold Log, Log_at, alone. cbn [loggers sThreadScopedQueue].
  rewrite lookup_singleton_eq. cbn [mbind option_bind].
  destruct (LogLevel_ge lvl (_mLogLevel lg)).
  2:{ cbn [mbind option_bind loggers]. by rewrite lookup_singleton_eq. }
  unfold GetThreadScopedMessageQueue, scoped_queue. cbn [loggers sThreadScopedQueue].
  rewrite lookup_fmap.
  destruct (_mThreadScopedQueues lg !! thread) as [q|] eqn:E;
    cbn [fmap option_fmap option_map loggers sThreadScopedQueue].
  - rewrite lookup_singleton_eq. cbn [mbind option_bind]. rewrite E.
    cbn [mbind option_bind].
    destruct (SPSC.Enqueue kQueueSize q _) as [q'|]; [|done]. cbn [mbind option_bind].
    destruct (behind _ q' _) as [q''|]; [|done]. cbn [mbind option_bind loggers].
    by rewrite lookup_insert_eq.
  - rewrite lookup_alter_eq, lookup_singleton_eq.
    cbn [fmap option_fmap option_map mbind option_bind RegisterScopedQueue
         _mThreadScopedQueues].
    rewrite lookup_insert_eq. cbn [mbind option_bind].
    destruct (SPSC.Enqueue kQueueSize _ _) as [q'|]; [|done]. cbn [mbind option_bind].
    destruct (behind _ q' _) as [q''|]; [|done]. cbn [mbind option_bind loggers].
    by rewrite lookup_insert_eq.
Qed.

(** The slot a call constructs its message on has the size of a message. *)
Lemma scoped_queue_slot lg thread :
  logger_wf lg →
  let q := (scoped_queue lg thread).2 in
  length (_mDataBuffer (default zero_message
                          (SPSC._mDataBuffer q !! Z.to_nat (SPSC._mTail q)))) =
  kDataBufferSize.
Proof.
  intros Hwf q.
  destruct (scoped_queue_spec lg thread Hwf) as (lg1 & q0 & HG & _ & Hs & _).
  unfold q. rewrite HG. cbn [snd].
  destruct (SPSC._mDataBuffer q0 !! Z.to_nat (SPSC._mTail q0)) as [m|] eqn:E; [|done].
  exact (Forall_lookup_1 _ _ _ _ Hs E).
Qed.

(** A payload that fits in the buffer: nothing is stored behind it. *)
Lemma Log_fits lg thread f lvl args :
  logger_wf lg →
  (length (payload_stream lvl args) ≤ kDataBufferSize)%nat →
  Log lg thread f lvl args =
  if LogLevel_ge lvl (_mLogLevel lg) then
    let '(lg1, q) := scoped_queue lg thread in
    q' ← SPSC.Enqueue kQueueSize q (λ slot, LogMessage_new slot f lvl args);
    Some (RegisterScopedQueue lg1 thread q', [])
  else Some (lg, []).
Proof.
  intros Hwf Hfit. rewrite Log_unfold.
  destruct (LogLevel_ge lvl (_mLogLevel lg)); [|done].
  pose proof (scoped_queue_slot lg thread Hwf) as Hslot. cbn zeta in Hslot.
  destruct (scoped_queue lg thread) as [lg1 q]. cbn [snd] in Hslot. cbn zeta.
  rewrite (proj2 (construct_spilled_nil _ f lvl args)) by (rewrite Hslot; exact Hfit).
  destruct (SPSC.Enqueue kQueueSize q _) as [q'|]; [|done].
  cbn [mbind option_bind]. by rewrite behind_nil.
Qed.

Lemma Log_below_threshold lg thread f lvl args :
  LogLevel_value lvl < LogLevel_value (_mLogLevel lg) →
  Log lg thread f lvl args = Some (lg, []).
Proof.
  intros Hl. rewrite Log_unfold. unfold LogLevel_ge.
  destruct (_ <=? _) eqn:E; [apply Z.leb_le in E; lia|done].
Qed.

Lemma Log_full lg thread f lvl args :
  LogLevel_value (_mLogLevel lg) ≤ LogLevel_value lvl →
  SPSC.IsFull kQueueSize (scoped_queue lg thread).2 = true →
  Log lg thread f lvl args = None.
Proof.
  intros Hl Hfull. rewrite Log_unfold. unfold LogLevel_ge.
  destruct (_ <=? _) eqn:E; [|apply Z.leb_gt in E; lia].
  destruct (scoped_queue lg thread) as [lg1 q]. simpl in Hfull. cbn zeta.
  rewrite kQueueSize_pow in *.
  by rewrite (proj2 (Enqueue_full 10 q (λ slot, LogMessage_new slot f lvl args)) Hfull).
Qed.

(** A call that passes the filter on a queue with room, with a payload that
    fits: one message more in the queue of the calling thread, constructed on
    the slot at the tail, and nothing stored outside it. *)
Lemma Log_enqueue lg thread f lvl args :
  logger_wf lg →
  (length (payload_stream lvl args) ≤ kDataBufferSize)%nat →
  LogLevel_value (_mLogLevel lg) ≤ LogLevel_value lvl →
  SPSC.IsFull kQueueSize (scoped_queue lg thread).2 = false →
  ∃ q' slot,
    let q := (scoped_queue lg thread).2 in
    Log lg thread f lvl args =
      Some ({| _mLogLevel := _mLogLevel lg; _mFileStream := _mFileStream lg;
               _mThreadScopedQueues := <[thread := q']> (_mThreadScopedQueues lg) |},
            []) ∧
    length (_mDataBuffer slot) = kDataBufferSize ∧
    SPSC.wf kQueueSize q' ∧
    Forall (λ m, length (_mDataBuffer m) = kDataBufferSize) (SPSC._mDataBuffer q') ∧
    SPSC.contents kQueueSize q' =
      SPSC.contents kQueueSize q ++ [LogMessage_new slot f lvl args].
Proof.
  intros Hwf Hfit Hl Hfull. rewrite (Log_fits lg thread f lvl args Hwf Hfit).
  unfold LogLevel_ge.
  destruct (_ <=? _) eqn:E; [|apply Z.leb_gt in E; lia].
  destruct (scoped_queue_spec lg thread Hwf)
    as (lg1 & q & HG & Hq & Hs & Hlv & Hfs & Hqs).
  rewrite HG in *. cbn [snd] in *.
  destruct (SPSC.Enqueue kQueueSize q _) as [q'|] eqn:Eq.
  2:{ rewrite kQueueSize_pow in *. apply (proj1 (Enqueue_full 10 q _)) in Eq.
      congruence. }
  rewrite kQueueSize_pow in Hq, Eq.
  destruct (Enqueue_contents 10 k10 q _ q' Hq Eq) as (slot & Hslot & Hnew & Hc & _).
  exists q', slot. cbn [mbind option_bind].
  assert (Hlen : length (_mDataBuffer slot) = kDataBufferSize).
  { eapply (Forall_lookup_1 _ _ _ _ Hs Hslot). }
  split.
  { unfold RegisterScopedQueue. rewrite Hlv, Hfs, Hqs, insert_insert_eq. done. }
  split; [done|]. split; [by eapply (Enqueue_wf 10 k10 q)|]. split; [|done].
  unfold SPSC.Enqueue in Eq. destruct (_ =? _); [done|]. injection Eq as <-.
  cbn [SPSC._mDataBuffer]. apply Forall_alter; [done|].
  intros m _ Hm. unfold LogMessage_new. cbn [_mDataBuffer].
  by rewrite length_construct.
Qed.

Lemma Log_wf lg thread f lvl args lg' sp :
  logger_wf lg →
  (length (payload_stream lvl args) ≤ kDataBufferSize)%nat →
  Log lg thread f lvl args = Some (lg', sp) → logger_wf lg'.
Proof.
  intros Hwf Hfit HL.
  destruct (decide (LogLevel_value (_mLogLevel lg) ≤ LogLevel_value lvl)) as [Hl|Hl].
  - destruct (SPSC.IsFull kQueueSize (scoped_queue lg thread).2) eqn:Ef.
    + rewrite Log_full in HL; done.
    + destruct (Log_enqueue lg thread f lvl args Hwf Hfit Hl Ef)
        as (q' & slot & HL' & _ & Hq' & Hs' & _).
      rewrite HL' in HL. injection HL as <- _.
      intros t q. cbn [_mThreadScopedQueues]. rewrite lookup_insert.
      case_decide; [intros [= <-]; done|]. apply Hwf.
  - rewrite Log_below_threshold in HL by lia. by injection HL as <- _.
Qed.

(** *** Calls in a program of several loggers *)

Lemma Log_at_below_threshold (w : World) (logger thread : nat) lg f lvl args :
  loggers w !! logger = Some lg →
  LogLevel_value lvl < LogLevel_value (_mLogLevel lg) →
  Log_at w logger thread f lvl args = Some (w, []).
Proof.
  intros Hlg Hl. unfold Log_at, LogLevel_ge. rewrite Hlg. cbn [mbind option_bind].
  destruct (_ <=? _) eqn:E; [apply Z.leb_le in E; lia|done].
Qed.

(** What a call that passes the filter does, step by step, on the queue of
    the calling thread. *)
Lemma Log_at_unfold (w : World) (logger thread owner : nat) lg olg q f lvl args :
  loggers w !! logger = Some lg →
  LogLevel_value (_mLogLevel lg) ≤ LogLevel_value lvl →
  calling_thread_queue w logger thread owner olg q →
  Log_at w logger thread f lvl args =
  (let writeIndex := Z.to_nat (SPSC._mTail q) in
   let slot := default zero_message (SPSC._mDataBuffer q !! writeIndex) in
   let sp := spilled (construct slot f lvl args) in
   q' ← SPSC.Enqueue kQueueSize q (λ slot, LogMessage_new slot f lvl args);
   q'' ← behind writeIndex q' sp;
   Some ({| loggers :=
              <[owner := {| _mLogLevel := _mLogLevel olg;
                            _mFileStream := _mFileStream olg;
                            _mThreadScopedQueues :=
                              <[thread := q'']> (_mThreadScopedQueues olg) |}]>
                (loggers w);
            sThreadScopedQueue := <[thread := owner]> (sThreadScopedQueue w) |},
         sp)).
Proof.
  intros Hlg Hl [Holg Hq]. unfold Log_at, LogLevel_ge. rewrite Hlg.
  cbn [mbind option_bind].
  destruct (_ <=? _) eqn:E; [|apply Z.leb_gt in E; lia].
  unfold GetThreadScopedMessageQueue.
  destruct (sThreadScopedQueue w !! thread) as [o|] eqn:Et.
  - destruct Hq as [-> Hq]. rewrite Holg. cbn [mbind option_bind]. rewrite Hq.
    cbn [mbind option_bind]. by rewrite (insert_id _ _ _ Et).
  - destruct Hq as [-> ->]. cbn [loggers sThreadScopedQueue].
    rewrite lookup_alter_eq, Holg.
    cbn [fmap option_fmap option_map mbind option_bind RegisterScopedQueue
         _mThreadScopedQueues _mLogLevel _mFileStream].
    rewrite lookup_insert_eq. cbn [mbind option_bind].
    destruct (SPSC.Enqueue kQueueSize _ _) as [q'|]; [|done]. cbn [mbind option_bind].
    destruct (behind _ q' _) as [q''|]; [|done]. cbn [mbind option_bind].
    by rewrite insert_insert_eq, insert_alter_eq.
Qed.

Lemma Log_at_full (w : World) (logger thread owner : nat) lg olg q f lvl args :
  loggers w !! logger = Some lg →
  LogLevel_value (_mLogLevel lg) ≤ LogLevel_value lvl →
  calling_thread_queue w logger thread owner olg q →
  SPSC.IsFull kQueueSize q = true →
  Log_at w logger thread f lvl args = None.
Proof.
  intros Hlg Hl Hq Hfull.
  rewrite (Log_at_unfold w logger thread owner lg olg q f lvl args Hlg Hl Hq).
  cbn zeta. rewrite kQueueSize_pow in *.
  by rewrite (proj2 (Enqueue_full 10 q (λ slot, LogMessage_new slot f lvl args)) Hfull).
Qed.

(** A call that passes the filter of [logger] on a queue with room, with a
    payload that fits: one message more on the queue of the calling thread,
    wherever it is registered, and nothing else changed. *)
Lemma Log_at_enqueue (w : World) (logger thread owner : nat) lg olg q f lvl args :
  loggers w !! logger = Some lg →
  LogLevel_value (_mLogLevel lg) ≤ LogLevel_value lvl →
  calling_thread_queue w logger thread owner olg q →
  SPSC.wf kQueueSize q →
  Forall (λ m, length (_mDataBuffer m) = kDataBufferSize) (SPSC._mDataBuffer q) →
  (length (payload_stream lvl args) ≤ kDataBufferSize)%nat →
  SPSC.IsFull kQueueSize q = false →
  ∃ q' slot,
    Log_at w logger thread f lvl args =
      Some ({| loggers :=
                 <[owner := {| _mLogLevel := _mLogLevel olg;
                               _mFileStream := _mFileStream olg;
                               _mThreadScopedQueues :=
                                 <[thread := q']> (_mThreadScopedQueues olg) |}]>
                   (loggers w);
               sThreadScopedQueue := <[thread := owner]> (sThreadScopedQueue w) |},
            []) ∧
    length (_mDataBuffer slot) = kDataBufferSize ∧
    SPSC.wf kQueueSize q' ∧
    Forall (λ m, length (_mDataBuffer m) = kDataBufferSize) (SPSC._mDataBuffer q') ∧
    SPSC.contents kQueueSize q' =
      SPSC.contents kQueueSize q ++ [LogMessage_new slot f lvl args].
Proof.
  intros Hlg Hl Hq Hwf Hs Hfit Hfull.
  rewrite (Log_at_unfold w logger thread owner lg olg q f lvl args Hlg Hl Hq).
  cbn zeta.
  destruct (SPSC.Enqueue kQueueSize q _) as [q'|] eqn:Eq.
  2:{ rewrite kQueueSize_pow in *. apply (proj1 (Enqueue_full 10 q _)) in Eq.
      congruence. }
  rewrite kQueueSize_pow in Hwf, Eq.
  destruct (Enqueue_contents 10 k10 q _ q' Hwf Eq) as (slot & Hslot & Hnew & Hc & _).
  exists q', slot. rewrite Hslot. cbn [mbind option_bind default from_option id].
  assert (Hlen : length (_mDataBuffer slot) = kDataBufferSize).
  { eapply (Forall_lookup_1 _ _ _ _ Hs Hslot). }
  rewrite (proj2 (construct_spilled_nil slot f lvl args)) by (rewrite Hlen; exact Hfit).
  rewrite behind_nil. cbn [mbind option_bind].
  split; [done|]. split; [done|]. split; [by eapply (Enqueue_wf 10 k10 q)|].
  split; [|done].
  unfold SPSC.Enqueue in Eq. destruct (_ =? _); [done|]. injection Eq as <-.
  cbn [SPSC._mDataBuffer]. apply Forall_alter; [done|].
  intros m _ Hm. unfold LogMessage_new. cbn [_mDataBuffer].
  by rewrite length_construct.
Qed.



End Logger.

(** ** Stores past the end of the buffer *)

Lemma le_bytes_le_value (n : nat) (bs : list ascii) :
  length bs = n → le_bytes n (le_value bs) = bs.
Proof.
  intros <-. induction bs as [|b bs IH]; [done|]. cbn [length le_bytes le_value].
  pose proof (Z_of_char_range b) as Hb. f_equal.
  - rewrite <- (char_of_Z_of_char b) at 2. unfold char_of_Z. do 2 f_equal.
    rewrite (Z.mul_comm 256).
    by rewrite Z_mod_plus_full.
  - replace ((Z_of_char b + 256 * le_value bs) / 256) with (le_value bs); [exact IH|].
    apply (Z.div_unique_pos _ _ _ (Z_of_char b)); lia.
Qed.

Lemma drop_imap {A B} (n : nat) : ∀ (f : nat → A → B) (l : list A),
  drop n (imap f l) = imap (λ j, f (n + j)%nat) (drop n l).
Proof.
  induction n as [|n IH]; intros f l; [done|].
  destruct l as [|x l]; [done|]. cbn [imap drop]. rewrite IH. by apply imap_ext.
Qed.

Lemma sizeof_LogMessage_value : sizeof_LogMessage = 1032.
Proof. reflexivity. Qed.

(** A store within eight bytes of the end of the last buffer is a store to
    a byte of [_mHead]. *)
Lemma store_behind_head (k : nat) buf h t (c : ascii) :
  (k < 8)%nat →
  store_behind 1023 (SPSC.Build buf h t) ((1024 + k)%nat, c) =
  Some (SPSC.Build buf (store_size_t h k c) t).
Proof.
  intros Hk. unfold store_behind. cbn zeta.
  rewrite sizeof_LogMessage_value.
  replace (Z.of_nat 1023 * 1032 + 8 + Z.of_nat (1024 + k))
    with (kQueueSize * 1032 + Z.of_nat k) by (unfold kQueueSize; lia).
  replace ((kQueueSize * 1032 + Z.of_nat k) / 1032) with kQueueSize.
  2:{ apply (Z.div_unique_pos _ _ _ (Z.of_nat k)); unfold kQueueSize; lia. }
  rewrite Z.ltb_irrefl.
  replace (kQueueSize * 1032 + Z.of_nat k - kQueueSize * 1032) with (Z.of_nat k) by lia.
  destruct (Z.of_nat k <? 8) eqn:E; [|apply Z.ltb_ge in E; lia].
  cbn [SPSC._mDataBuffer SPSC._mHead SPSC._mTail]. by rewrite Nat2Z.id.
Qed.

Lemma behind_head (cs : list ascii) : ∀ (k0 : nat) (bs : list ascii) buf t,
  length bs = 8%nat → (k0 + length cs ≤ 8)%nat →
  behind 1023 (SPSC.Build buf (le_value bs) t)
    (imap (λ j c, ((1024 + (k0 + j))%nat, c)) cs) =
  Some (SPSC.Build buf (le_value (take k0 bs ++ cs ++ drop (k0 + length cs) bs)) t).
Proof.
  induction cs as [|c cs IH]; intros k0 bs buf t Hbs Hk.
  - cbn [imap app length]. rewrite Nat.add_0_r, take_drop. done.
  - cbn [length] in Hk. unfold behind. cbn [imap foldl mbind option_bind].
    rewrite Nat.add_0_r, store_behind_head by lia. unfold store_size_t.
    rewrite (le_bytes_le_value 8 bs Hbs).
    rewrite (imap_ext _ (λ j c0, ((1024 + (S k0 + j))%nat, c0))).
    2:{ intros j x _. cbn. do 2 f_equal. lia. }
    fold (behind 1023 (SPSC.Build buf (le_value (<[k0:=c]> bs)) t)
            (imap (λ j c0, ((1024 + (S k0 + j))%nat, c0)) cs)).
    rewrite IH by (rewrite ?length_insert; lia).
    do 3 f_equal. cbn [length].
    rewrite drop_insert_lt by lia.
    replace (S k0 + length cs)%nat with (k0 + S (length cs))%nat by lia.
    rewrite (take_S_r _ _ c) by (apply list_lookup_insert_eq; lia).
    rewrite take_insert_ge by lia. by rewrite <- app_assoc.
Qed.




(** ** The claims about the producer side of the logger *)

(** C2. A call of [Log] on a logger with threshold [T], by a thread whose
    queue is well formed, with a payload that fits in the buffer.  At a level
    below [T] the call returns at once and leaves the program, every queue
    included, as it was.  At a level of at least [T] the call puts exactly
    one message at the end of the queue of the calling thread, after the
    messages that queue holds, and touches no other queue, no threshold and
    no file; the message names the formatter of the call and its payload
    begins with the level byte followed by the encoded arguments; nothing is
    stored outside the message.  That call returns iff the queue has room:
    on a full queue the producer spins.  The queue of the calling thread is
    the one its thread-local object holds, with whichever logger it is
    registered, or a new empty one registered with the logger called when
    the thread has none. *)
Theorem Log_enqueues_iff_level (w : World) (logger thread owner : nat)
    (lg olg : FastLogger) (q : SPSC.SPSCQueue LogMessage) (f : LogFormatter)
    (lvl : LogLevel) (args : list Arg) :
  loggers w !! logger = Some lg →
  calling_thread_queue w logger thread owner olg q →
  SPSC.wf kQueueSize q →
  Forall (λ m, length (_mDataBuffer m) = kDataBufferSize) (SPSC._mDataBuffer q) →
  (length (payload_stream lvl args) ≤ kDataBufferSize)%nat →
  (LogLevel_value lvl < LogLevel_value (_mLogLevel lg) →
   Log_at w logger thread f lvl args = Some (w, [])) ∧
  (LogLevel_value (_mLogLevel lg) ≤ LogLevel_value lvl →
   (SPSC.IsFull kQueueSize q = true → Log_at w logger thread f lvl args = None) ∧
   (SPSC.IsFull kQueueSize q = false →
    ∃ q' m,
      Log_at w logger thread f lvl args =
        Some ({| loggers :=
                   <[owner := {| _mLogLevel := _mLogLevel olg;
                                 _mFileStream := _mFileStream olg;
                                 _mThreadScopedQueues :=
                                   <[thread := q']> (_mThreadScopedQueues olg) |}]>
                     (loggers w);
                 sThreadScopedQueue := <[thread := owner]> (sThreadScopedQueue w) |},
              []) ∧
      SPSC.contents kQueueSize q' = SPSC.contents kQueueSize q ++ [m] ∧
      _mFormatter m = Some f ∧
      length (_mDataBuffer m) = kDataBufferSize ∧
      take (length (payload_stream lvl args)) (_mDataBuffer m) =
        char_of_Z (LogLevel_value lvl) :: concat (map encoding args))).
Proof.
  intros Hlg Hq Hwf Hs Hfit. split; [by apply Log_at_below_threshold|].
  intros Hl. split; [by apply (Log_at_full w logger thread owner lg olg q)|].
  intros Hfull.
  destruct (Log_at_enqueue w logger thread owner lg olg q f lvl args
              Hlg Hl Hq Hwf Hs Hfit Hfull) as (q' & slot & HL & Hslot & _ & _ & Hc).
  exists q', (LogMessage_new slot f lvl args).
  split; [exact HL|]. split; [exact Hc|]. split; [done|]. split.
  - unfold LogMessage_new. cbn [_mDataBuffer]. by rewrite length_construct.
  - rewrite LogMessage_new_fits by (rewrite Hslot; exact Hfit).
    apply take_app_length.
Qed.

Lemma Log_enqueues_iff_level_witness :
  let f := call_site_formatter (str "int main()") (str "x={}") [TInt true W32] in
  let args := [AInt true W32 5] in
  let m0 := LogMessage_new zero_message f INFO args in
  let q := SPSC.Build (<[0%nat := m0]> (replicate 1024 zero_message)) 0 1 in
  let lgA := {| _mLogLevel := INFO; _mFileStream := [];
                _mThreadScopedQueues := {[ 7%nat := q ]} |} in
  let lgB := SetLogLevel FastLogger_new ERROR in
  let w := {| loggers := <[1%nat := lgA]> (<[2%nat := lgB]> ∅);
              sThreadScopedQueue := {[ 7%nat := 1%nat ]} |} in
  (loggers w !! 2%nat = Some lgB ∧
   calling_thread_queue w 2 7 1 lgA q ∧
   SPSC.wf kQueueSize q ∧
   Forall (λ m, length (_mDataBuffer m) = kDataBufferSize) (SPSC._mDataBuffer q) ∧
   (length (payload_stream INFO args) ≤ kDataBufferSize)%nat ∧
   (length (payload_stream FATAL args) ≤ kDataBufferSize)%nat ∧
   LogLevel_value INFO < LogLevel_value (_mLogLevel lgB) ∧
   LogLevel_value (_mLogLevel lgB) ≤ LogLevel_value FATAL ∧
   SPSC.IsFull kQueueSize q = false) ∧
  SPSC.contents kQueueSize q = [m0] ∧
  Log_at w 2 7 f INFO args = Some (w, []) ∧
  ∃ q' m,
    Log_at w 2 7 f FATAL args =
      Some ({| loggers :=
                 <[1%nat := {| _mLogLevel := INFO; _mFileStream := [];
                               _mThreadScopedQueues := <[7%nat := q']> {[ 7%nat := q ]} |}]>
                   (loggers w);
               sThreadScopedQueue := <[7%nat := 1%nat]> (sThreadScopedQueue w) |},
            []) ∧
    SPSC.contents kQueueSize q' = SPSC.contents kQueueSize q ++ [m] ∧
    _mFormatter m = Some f ∧
    length (_mDataBuffer m) = kDataBufferSize ∧
    take (length (payload_stream FATAL args)) (_mDataBuffer m) =
      char_of_Z (LogLevel_value FATAL) :: concat (map encoding args).
Proof.
  intros f args m0 q lgA lgB w.
  assert (HB : loggers w !! 2%nat = Some lgB).
  { unfold w. cbn [loggers]. rewrite lookup_insert_ne by lia. apply lookup_insert_eq. }
  assert (Hq : calling_thread_queue w 2 7 1 lgA q).
  { split; [apply lookup_insert_eq|]. unfold w. cbn [sThreadScopedQueue].
    rewrite lookup_singleton_eq. split; [done|]. apply lookup_singleton_eq. }
  assert (Hwf : SPSC.wf kQueueSize q).
  { unfold SPSC.wf, q. cbn [SPSC._mDataBuffer SPSC._mHead SPSC._mTail].
    rewrite length_insert, length_replicate. unfold kQueueSize. lia. }
  assert (Hs : Forall (λ m, length (_mDataBuffer m) = kDataBufferSize)
                 (SPSC._mDataBuffer q)).
  { unfold q. cbn [SPSC._mDataBuffer]. apply Forall_insert.
    - apply Forall_replicate. reflexivity.
    - unfold m0, LogMessage_new. cbn [_mDataBuffer]. rewrite length_construct.
      reflexivity. }
  assert (Hfit1 : (length (payload_stream INFO args) ≤ kDataBufferSize)%nat)
    by (vm_compute; lia).
  assert (Hfit2 : (length (payload_stream FATAL args) ≤ kDataBufferSize)%nat)
    by (vm_compute; lia).
  assert (Hlo : LogLevel_value INFO < LogLevel_value (_mLogLevel lgB)) by (simpl; lia).
  assert (Hhi : LogLevel_value (_mLogLevel lgB) ≤ LogLevel_value FATAL) by (simpl; lia).
  assert (Hroom : SPSC.IsFull kQueueSize q = false) by reflexivity.
  split; [done|]. split; [reflexivity|]. split.
  - exact (proj1 (Log_enqueues_iff_level w 2 7 1 lgB lgA q f INFO args
                    HB Hq Hwf Hs Hfit1) Hlo).
  - exact (proj2 (proj2 (Log_enqueues_iff_level w 2 7 1 lgB lgA q f FATAL args
                           HB Hq Hwf Hs Hfit2) Hhi) Hroom).
Defined.




(** * Properties of the drain pass *)

(** ** Time stamps *)

Lemma is_digitb_spec c : is_digitb c = true → is_digit c.
Proof. unfold is_digitb, is_digit. rewrite andb_true_iff, !Z.leb_le. done. Qed.

Lemma digitsb_Forall n s :
  digitsb n s = true → length s = n ∧ Forall is_digit s.
Proof.
  unfold digitsb. rewrite andb_true_iff, Nat.eqb_eq, forallb_forall.
  intros [Hn Hd]. split; [done|]. apply Forall_forall. intros c Hc.
  apply is_digitb_spec, Hd. by apply list_elem_of_In.
Qed.

Lemma decimal_year y :
  1000 ≤ y ≤ 9999 → digitsb 4 (decimal y) = true.
Proof.
  intros Hy.
  assert (Hall : forallb (λ y, digitsb 4 (decimal y)) (seqZ 1000 9000) = true)
    by (vm_compute; reflexivity).
  rewrite forallb_forall in Hall. apply Hall.
  apply list_elem_of_In, elem_of_seqZ. lia.
Qed.

Lemma two_digits_spec z :
  0 ≤ z ≤ 99 → digitsb 2 (two_digits z) = true.
Proof.
  intros Hz.
  assert (Hall : forallb (λ z, digitsb 2 (two_digits z)) (seqZ 0 100) = true)
    by (vm_compute; reflexivity).
  rewrite forallb_forall in Hall. apply Hall.
  apply list_elem_of_In, elem_of_seqZ. lia.
Qed.

Lemma digits_4 s :
  digitsb 4 s = true → ∃ a b c d, s = [a; b; c; d] ∧ Forall is_digit [a; b; c; d].
Proof.
  intros [Hl Hd]%digitsb_Forall.
  destruct s as [|a [|b [|c [|d [|]]]]]; try discriminate Hl. by exists a, b, c, d.
Qed.

Lemma digits_2 s :
  digitsb 2 s = true → ∃ a b, s = [a; b] ∧ Forall is_digit [a; b].
Proof.
  intros [Hl Hd]%digitsb_Forall.
  destruct s as [|a [|b [|]]]; try discriminate Hl. by exists a, b.
Qed.

(** The time stamp has the form [YYYY-MM-DD HH:MM:SS]. *)
Lemma put_time_shape t : tm_ok t → timestamp_shape (put_time t).
Proof.
  intros (Hy & Hm & Hd & Hh & Hn & Hs). unfold put_time, timestamp_shape.
  destruct (digits_4 _ (decimal_year (tm_year t + 1900) Hy))
    as (y1 & y2 & y3 & y4 & -> & Hy').
  destruct (digits_2 _ (two_digits_spec (tm_mon t + 1) ltac:(lia))) as (m1 & m2 & -> & Hm').
  destruct (digits_2 _ (two_digits_spec (tm_mday t) ltac:(lia))) as (d1 & d2 & -> & Hd').
  destruct (digits_2 _ (two_digits_spec (tm_hour t) ltac:(lia))) as (h1 & h2 & -> & Hh').
  destruct (digits_2 _ (two_digits_spec (tm_min t) ltac:(lia))) as (n1 & n2 & -> & Hn').
  destruct (digits_2 _ (two_digits_spec (tm_sec t) ltac:(lia))) as (s1 & s2 & -> & Hs').
  exists y1, y2, y3, y4, m1, m2, d1, d2, h1, h2, n1, n2, s1, s2.
  split; [done|].
  repeat match goal with
         | H : Forall _ (_ :: _) |- _ => apply Forall_cons in H as [? H]
         end.
  repeat (constructor; [assumption|]). constructor.
Qed.

(** ** One message, one queue, one pass *)

Section Drain.
Context `{Iostream}.
Implicit Types (lg : FastLogger) (q : SPSC.SPSCQueue LogMessage) (m : LogMessage)
  (c : call) (clock : nat → tm).

Lemma LogLevelToString_raw_value lvl :
  LogLevelToString_raw (char_of_Z (LogLevel_value lvl)) = LogLevelToString lvl.
Proof. by destruct lvl. Qed.

(** The loop body writes the line of the specification, a newline, and
    flushes. *)
Lemma write_line_spec now m c :
  message_of m c →
  write_line now m = Some [Put (spec_line now c); Put [LF]; Flush].
Proof.
  intros ((Hf & Ht & Hargs & Hfit) & slot & Hslot & ->).
  unfold write_line.
  rewrite LogMessage_new_fits by (by rewrite Hslot).
  cbn [payload_stream app lookup list_lookup mbind option_bind LogMessage_new _mFormatter].
  rewrite LogLevelToString_raw_value.
  change (char_of_Z (LogLevel_value (call_level c)) ::
          concat (map encoding (call_args c)) ++ ?post)
    with (payload_stream (call_level c) (call_args c) ++ post).
  unfold call_site_formatter. rewrite Evaluate_payload by done.
  cbn [mbind option_bind]. do 3 f_equal.
  unfold spec_line, makeStringLiteral. cbn [concat]. rewrite app_nil_r.
  rewrite c_str_id.
  - rewrite <- !app_assoc. reflexivity.
  - rewrite !not_elem_of_app. repeat split; try done.
    intros Hin. apply elem_of_cons in Hin as [Hin|Hin]; [discriminate Hin|].
    by apply elem_of_nil in Hin.
Qed.

Lemma Dequeue_frame q (d : LogMessage) :
  SPSC._mDataBuffer (SPSC.Dequeue kQueueSize q d).2 = SPSC._mDataBuffer q ∧
  SPSC._mTail (SPSC.Dequeue kQueueSize q d).2 = SPSC._mTail q.
Proof. unfold SPSC.Dequeue. by destruct (SPSC.IsEmpty q). Qed.

Lemma contents_nil_empty q :
  SPSC.wf kQueueSize q → SPSC.contents kQueueSize q = [] → SPSC.IsEmpty q = true.
Proof.
  intros Hwf Hc. apply (IsEmpty_count 10 k10 q Hwf).
  pose proof (length_contents 10 k10 q Hwf) as Hl.
  pose proof (count_range 10 k10 q Hwf) as Hr.
  rewrite kQueueSize_pow in Hc. rewrite Hc in Hl. simpl in Hl. lia.
Qed.

Lemma drained_empty q : SPSC.wf kQueueSize q → SPSC.IsEmpty q = true → drained q = q.
Proof.
  intros _ E. apply Z.eqb_eq in E. destruct q as [buf h t]. simpl in *.
  unfold drained. simpl. by rewrite E.
Qed.

Lemma spec_lines_app clock tick calls1 calls2 :
  spec_lines clock tick (calls1 ++ calls2) =
  spec_lines clock tick calls1 ++ spec_lines clock (tick + length calls1) calls2.
Proof.
  revert tick. induction calls1 as [|c calls1 IH]; intros tick; simpl.
  - by rewrite Nat.add_0_r.
  - rewrite IH. do 3 f_equal. f_equal. f_equal. lia.
Qed.

(** The loop takes every outstanding message of the queue, oldest first,
    and stops; the fuel of a full ring is enough. *)
Lemma drain_loop_spec calls fuel clock tick q msg0 file :
  SPSC.wf kQueueSize q →
  Forall2 message_of (SPSC.contents kQueueSize q) calls →
  (length calls < fuel)%nat →
  drain_loop fuel clock tick q msg0 file =
  Some (drained q, file ++ spec_lines clock tick calls, (tick + length calls)%nat).
Proof.
  revert fuel tick q msg0 file.
  induction calls as [|c calls IH]; intros fuel tick q msg0 file Hwf Hms Hfuel.
  - apply Forall2_nil_inv_r in Hms.
    destruct fuel as [|fuel]; [simpl in Hfuel; lia|].
    pose proof (contents_nil_empty q Hwf Hms) as E.
    cbn [drain_loop]. rewrite kQueueSize_pow, Dequeue_empty by done.
    simpl. by rewrite drained_empty, app_nil_r, Nat.add_0_r.
  - apply Forall2_cons_inv_r in Hms as (m & ms & Hm & Hms & Hc).
    destruct fuel as [|fuel]; [simpl in Hfuel; lia|].
    assert (E : SPSC.IsEmpty q = false).
    { destruct (SPSC.IsEmpty q) eqn:E; [|done].
      apply (IsEmpty_count 10 k10 q Hwf) in E.
      unfold SPSC.contents in Hc. rewrite kQueueSize_pow, E in Hc. done. }
    rewrite kQueueSize_pow in Hwf.
    destruct (Dequeue_contents 10 k10 q msg0 Hwf E) as (v & q1 & HD & _ & Hc1 & _).
    pose proof (Dequeue_wf 10 k10 q msg0 Hwf) as Hwf1.
    pose proof (Dequeue_frame q msg0) as [Hb1 Ht1].
    rewrite kQueueSize_pow in Hc, Hb1, Ht1. rewrite HD in Hwf1, Hb1, Ht1.
    cbn [snd] in *. rewrite Hc in Hc1. injection Hc1 as <- Hms1.
    cbn [drain_loop]. rewrite kQueueSize_pow, HD.
    rewrite (write_line_spec _ m c Hm). cbn [mbind option_bind].
    rewrite (IH fuel (S tick) q1 m); [| done | by rewrite kQueueSize_pow, <- Hms1 |
                                      simpl in Hfuel; lia].
    f_equal. f_equal; [f_equal|simpl; lia].
    + unfold drained. by rewrite Hb1, Ht1.
    + by rewrite <- app_assoc.
Qed.
End Drain.

Section Pass.
Context `{Iostream}.
Implicit Types (lg : FastLogger) (q : SPSC.SPSCQueue LogMessage) (m : LogMessage)
  (c : call) (clock : nat → tm)
  (l : list (nat * SPSC.SPSCQueue LogMessage))
  (qs : gmap nat (SPSC.SPSCQueue LogMessage)).

Lemma Forall_exists_Forall2 {A B} (P : A → B → Prop) (xs : list A) :
  Forall (λ x, ∃ y, P x y) xs → ∃ ys, Forall2 P xs ys.
Proof.
  induction 1 as [|x xs [y Hy] _ [ys Hys]].
  - by exists [].
  - exists (y :: ys). by constructor.
Qed.

Lemma ForEachQueue_fold clock l lg tick :
  (∀ thread q, (thread, q) ∈ l →
     SPSC.wf kQueueSize q ∧
     Forall (λ m, ∃ c, message_of m c) (SPSC.contents kQueueSize q)) →
  ∃ calls,
    Forall2 message_of (concat (map (λ '(_, q), SPSC.contents kQueueSize q) l)) calls ∧
    foldl (λ acc entry, st ← acc; drain_callback clock st entry) (Some (lg, tick)) l =
    Some ({| _mLogLevel := _mLogLevel lg;
             _mFileStream := _mFileStream lg ++ spec_lines clock tick calls;
             _mThreadScopedQueues := drain_all l (_mThreadScopedQueues lg) |},
          (tick + length calls)%nat).
Proof.
  revert lg tick. induction l as [|[thread q] l IH]; intros lg tick Hl.
  - exists []. split; [constructor|]. simpl. rewrite app_nil_r, Nat.add_0_r.
    by destruct lg.
  - destruct (Hl thread q) as [Hwf Hms]; [left|].
    destruct (Forall_exists_Forall2 _ _ Hms) as [calls1 Hcalls1].
    assert (Hlen : (length calls1 < Z.to_nat kQueueSize)%nat).
    { rewrite <- (Forall2_length _ _ _ Hcalls1).
      rewrite kQueueSize_pow in *.
      rewrite (length_contents 10 k10 q Hwf).
      pose proof (count_range 10 k10 q Hwf). lia. }
    cbn [foldl mbind option_bind drain_callback].
    rewrite (drain_loop_spec calls1) by done. cbn [mbind option_bind].
    destruct (IH {| _mLogLevel := _mLogLevel lg;
                    _mFileStream := _mFileStream lg ++ spec_lines clock tick calls1;
                    _mThreadScopedQueues :=
                      <[thread := drained q]> (_mThreadScopedQueues lg) |}
                (tick + length calls1)%nat) as (calls2 & Hcalls2 & ->).
    { intros t q0 Hin. apply (Hl t q0). by right. }
    exists (calls1 ++ calls2). split.
    + cbn [map concat]. by apply Forall2_app.
    + cbn [_mLogLevel _mFileStream _mThreadScopedQueues].
      rewrite spec_lines_app, length_app, <- app_assoc, Nat.add_assoc. done.
Qed.

Lemma drain_all_lookup l qs thread :
  NoDup l.*1 →
  drain_all l qs !! thread =
  match (list_to_map l : gmap nat _) !! thread with
  | Some q => Some (drained q)
  | None => qs !! thread
  end.
Proof.
  revert qs. induction l as [|[t q] l IH]; intros qs Hnd; [done|].
  rewrite fmap_cons in Hnd. apply NoDup_cons in Hnd as [Ht Hnd]. cbn [fst] in Ht.
  cbn [drain_all foldl fst snd]. fold (drain_all l (<[t := drained q]> qs)).
  rewrite IH by done. cbn [list_to_map foldr fst snd].
  destruct (decide (t = thread)) as [->|Hne].
  - rewrite !lookup_insert_eq.
    by rewrite (not_elem_of_list_to_map_1 l thread) by done.
  - by rewrite !(lookup_insert_ne _ t thread) by done.
Qed.

Lemma drain_all_map_to_list qs : drain_all (map_to_list qs) qs = drained <$> qs.
Proof.
  apply map_eq. intros thread.
  rewrite drain_all_lookup by apply NoDup_fst_map_to_list.
  rewrite list_to_map_to_list, lookup_fmap.
  by destruct (qs !! thread).
Qed.

Lemma contents_drained q : SPSC.contents kQueueSize (drained q) = [].
Proof.
  unfold SPSC.contents, SPSC.count, drained. cbn [SPSC._mHead SPSC._mTail].
  by rewrite Z.sub_diag.
Qed.

Lemma drained_wf q : SPSC.wf kQueueSize q → SPSC.wf kQueueSize (drained q).
Proof.
  intros (Hl & Hh & Ht). unfold SPSC.wf, drained. cbn. repeat split; try done; lia.
Qed.

Lemma outstanding_drained lg lg' :
  _mThreadScopedQueues lg' = drained <$> _mThreadScopedQueues lg →
  outstanding lg' = [].
Proof.
  intros Hq. unfold outstanding. rewrite Hq.
  assert (Hall : Forall (λ e, (λ '(_, q), SPSC.contents kQueueSize q) e = [])
                   (map_to_list (drained <$> _mThreadScopedQueues lg))).
  { apply Forall_forall. intros [t q] Hin.
    apply elem_of_map_to_list in Hin. rewrite lookup_fmap in Hin.
    destruct (_mThreadScopedQueues lg !! t) as [q0|]; [|done].
    injection Hin as <-. apply contents_drained. }
  induction Hall as [|e es He _ IH]; [done|].
  cbn [map concat]. by rewrite He, IH.
Qed.

(** One pass: every outstanding message becomes a line, in the order the
    pass meets them, and every queue is left drained. *)
Lemma ConsumeAndWriteLogs_spec clock lg :
  logger_ok lg →
  ∃ calls,
    Forall2 message_of (outstanding lg) calls ∧
    ConsumeAndWriteLogs clock lg =
    Some {| _mLogLevel := _mLogLevel lg;
            _mFileStream := _mFileStream lg ++ spec_lines clock 0 calls;
            _mThreadScopedQueues := drained <$> _mThreadScopedQueues lg |}.
Proof.
  intros Hok.
  destruct (ForEachQueue_fold clock (map_to_list (_mThreadScopedQueues lg)) lg 0)
    as (calls & Hcalls & Hfold).
  { intros thread q Hin. apply elem_of_map_to_list in Hin. by apply (Hok thread). }
  exists calls. split; [done|].
  unfold ConsumeAndWriteLogs, ForEachQueue. rewrite Hfold. cbn [fmap option_fmap option_map fst].
  by rewrite drain_all_map_to_list.
Qed.

Lemma logger_ok_drained lg lg' :
  logger_ok lg →
  _mThreadScopedQueues lg' = drained <$> _mThreadScopedQueues lg →
  logger_ok lg'.
Proof.
  intros Hok Hq thread q Hin. rewrite Hq, lookup_fmap in Hin.
  destruct (_mThreadScopedQueues lg !! thread) as [q0|] eqn:E; [|done].
  injection Hin as <-. split.
  - apply drained_wf. by apply (Hok thread).
  - rewrite contents_drained. constructor.
Qed.

Lemma drained_idemp q : drained (drained q) = drained q.
Proof. done. Qed.

(** After at least one pass every queue is drained. *)
Lemma drain_passes_spec passes clock lg :
  logger_ok lg →
  ∃ lg', drain_passes (S passes) clock lg = Some lg' ∧
         _mThreadScopedQueues lg' = drained <$> _mThreadScopedQueues lg.
Proof.
  revert lg. induction passes as [|passes IH]; intros lg Hok.
  - destruct (ConsumeAndWriteLogs_spec clock lg Hok) as (calls & _ & HC).
    eexists. cbn [drain_passes]. rewrite HC. cbn [mbind option_bind]. done.
  - destruct (ConsumeAndWriteLogs_spec clock lg Hok) as (calls & _ & HC).
    set (lg1 := {| _mLogLevel := _mLogLevel lg;
                   _mFileStream := _mFileStream lg ++ spec_lines clock 0 calls;
                   _mThreadScopedQueues := drained <$> _mThreadScopedQueues lg |}) in HC.
    destruct (IH lg1) as (lg' & Hp & Hq); [by apply (logger_ok_drained lg)|].
    exists lg'. split.
    + change (drain_passes (S (S passes)) clock lg)
        with (lg0 ← ConsumeAndWriteLogs clock lg; drain_passes (S passes) clock lg0).
      rewrite HC. exact Hp.
    + rewrite Hq. unfold lg1. cbn [_mThreadScopedQueues].
      rewrite <- map_fmap_compose. apply map_fmap_ext. done.
Qed.

(** Unregistering: what the queue of the thread is when it is erased. *)
Lemma UnRegister_spec passes clock lg thread q :
  logger_ok lg →
  _mThreadScopedQueues lg !! thread = Some q →
  ∃ lg1 q1,
    UnRegisterThreadScopedQueue passes clock lg thread = Some (lg1, erase lg1 thread) ∧
    _mThreadScopedQueues lg1 !! thread = Some q1 ∧
    (SPSC.IsEmpty q1 = true ↔ SPSC.IsEmpty q = true ∨ (0 < passes)%nat).
Proof.
  intros Hok Hq. unfold UnRegisterThreadScopedQueue, unregister_wait. rewrite Hq.
  destruct (SPSC.IsEmpty q) eqn:E; cbn [negb].
  - exists lg, q. cbn [mbind option_bind]. split; [done|]. split; [done|].
    rewrite E. split; [by left|done].
  - destruct passes as [|passes].
    + exists lg, q. cbn [drain_passes mbind option_bind]. split; [done|]. split; [done|].
      rewrite E. split; [done|]. intros [?|?]; [done|lia].
    + destruct (drain_passes_spec passes clock lg Hok) as (lg1 & -> & Hq1).
      exists lg1, (drained q). cbn [mbind option_bind]. split; [done|]. split.
      * by rewrite Hq1, lookup_fmap, Hq.
      * split; [intros _; right; lia|].
        intros _. unfold SPSC.IsEmpty, drained. cbn. apply Z.eqb_refl.
Qed.

(** *** Log calls keep the logger in order *)

Lemma contents_fresh (storage : list LogMessage) :
  SPSC.contents kQueueSize (SPSC.init storage) = [].
Proof. done. Qed.

Lemma Log_ok lg thread c lg' sp :
  logger_wf lg → logger_ok lg → call_ok c →
  FAST_LOG lg thread (call_function c) (call_level c) (call_format c) (call_args c)
    = Some (lg', sp) →
  logger_wf lg' ∧ logger_ok lg'.
Proof.
  intros Hwf Hok Hc HL. unfold FAST_LOG in HL.
  pose proof (proj2 (proj2 (proj2 Hc))) as Hfit.
  split; [by eapply Log_wf|].
  destruct (decide (LogLevel_value (_mLogLevel lg) ≤ LogLevel_value (call_level c)))
    as [Hl|Hl].
  2:{ rewrite Log_below_threshold in HL by lia. by injection HL as <- _. }
  destruct (SPSC.IsFull kQueueSize (scoped_queue lg thread).2) eqn:Ef.
  { rewrite Log_full in HL; done. }
  destruct (Log_enqueue lg thread
              (call_site_formatter (call_function c) (call_format c)
                 (map type_of (call_args c)))
              (call_level c) (call_args c) Hwf (proj2 (proj2 (proj2 Hc))) Hl Ef)
    as (q' & slot & HL' & Hslot & Hq' & _ & Hcont).
  rewrite HL' in HL. injection HL as <- _.
  intros t q. cbn [_mThreadScopedQueues]. rewrite lookup_insert.
  case_decide as Et; [|apply Hok].
  intros [= <-]. split; [done|]. rewrite Hcont. apply Forall_app. split.
  - unfold scoped_queue.
    destruct (_mThreadScopedQueues lg !! thread) as [q0|] eqn:E; cbn [snd].
    + by apply (Hok thread).
    + rewrite contents_fresh. constructor.
  - constructor; [|constructor]. exists c. split; [done|]. by exists slot.
Qed.

Lemma FastLogger_new_ok : logger_ok FastLogger_new.
Proof. intros thread q Hq. simpl in Hq. by rewrite lookup_empty in Hq. Qed.
End Pass.

(** *** Building a logger by log calls *)

Lemma not_full_of_length (q : SPSC.SPSCQueue LogMessage) :
  SPSC.wf kQueueSize q →
  (length (SPSC.contents kQueueSize q) < 1023)%nat →
  SPSC.IsFull kQueueSize q = false.
Proof.
  intros Hwf Hlen. destruct (SPSC.IsFull kQueueSize q) eqn:E; [|done].
  rewrite kQueueSize_pow in *.
  apply (IsFull_count 10 k10 q Hwf) in E.
  rewrite (length_contents 10 k10 q Hwf), E in Hlen. vm_compute in Hlen. lia.
Qed.

(** A well-formed call that passes the filter on a queue with room returns,
    and the logger it leaves is in order with one message more on the
    thread's queue. *)
Lemma FAST_LOG_ok (lg : FastLogger) (thread : nat) (c : call) :
  logger_wf lg → logger_ok lg → call_ok c →
  LogLevel_value (_mLogLevel lg) ≤ LogLevel_value (call_level c) →
  SPSC.IsFull kQueueSize (scoped_queue lg thread).2 = false →
  ∃ lg' sp q',
    FAST_LOG lg thread (call_function c) (call_level c) (call_format c) (call_args c)
      = Some (lg', sp) ∧
    logger_wf lg' ∧ logger_ok lg' ∧ _mLogLevel lg' = _mLogLevel lg ∧
    _mThreadScopedQueues lg' !! thread = Some q' ∧
    length (SPSC.contents kQueueSize q') =
      S (length (SPSC.contents kQueueSize (scoped_queue lg thread).2)).
Proof.
  intros Hwf Hok Hc Hl Hroom.
  destruct (Log_enqueue lg thread
              (call_site_formatter (call_function c) (call_format c)
                 (map type_of (call_args c)))
              (call_level c) (call_args c) Hwf (proj2 (proj2 (proj2 Hc))) Hl Hroom)
    as (q' & slot & HL & _ & _ & _ & Hcont).
  eexists _, _, q'. split; [exact HL|].
  destruct (Log_ok lg thread c _ _ Hwf Hok Hc HL) as [Hwf' Hok'].
  split; [done|]. split; [done|]. split; [done|]. split.
  - cbn [_mThreadScopedQueues]. by rewrite lookup_insert_eq.
  - rewrite Hcont, length_app. simpl. lia.
Qed.

(** ** The claims about the drain thread *)

(** C5. A drain pass on a logger whose outstanding messages were constructed
    by well-formed [FAST_LOG] calls returns, and appends to the file stream,
    for each of these calls in the order the pass meets them: the line
    [[YYYY-MM-DD HH:MM:SS] [LEVEL] <call-site>:<rendered-template>], whose
    body is the call-site identifier, [":"] and the format string of the call
    with each placeholder replaced by the default rendering of the decoded
    argument; then the newline; then a flush, before anything of the next
    line.  The time stamp is read at drain time and has the shape
    [YYYY-MM-DD HH:MM:SS].  Every queue is left empty. *)
Theorem drain_pass_lines `{Iostream} (clock : nat → tm) (lg : FastLogger) :
  logger_ok lg →
  (∀ n, tm_ok (clock n)) →
  ∃ calls lg',
    Forall2 message_of (outstanding lg) calls ∧
    ConsumeAndWriteLogs clock lg = Some lg' ∧
    _mFileStream lg' = _mFileStream lg ++ spec_lines clock 0 calls ∧
    (∀ n c, spec_line (clock n) c =
            str "[" ++ put_time (clock n) ++ str "] [" ++
            LogLevelToString (call_level c) ++ str "] " ++
            spec_splice (call_function c ++ str ":" ++ call_format c)
              (map ostream_put (call_args c))) ∧
    (∀ n, timestamp_shape (put_time (clock n))) ∧
    outstanding lg' = [].
Proof.
  intros Hok Hclock.
  destruct (ConsumeAndWriteLogs_spec clock lg Hok) as (calls & Hcalls & HC).
  eexists calls, _. split; [done|]. split; [exact HC|]. split; [done|].
  split; [done|]. split; [by intros n; apply put_time_shape|].
  by apply (outstanding_drained lg).
Qed.

Lemma drain_pass_lines_witness :
  let ios := {| ostream_float := λ _, str "1.5"; ostream_double := λ _, str "2.5" |} in
  let clock := λ n : nat,
    {| tm_year := 126; tm_mon := 10; tm_mday := 3;
       tm_hour := 4; tm_min := 5; tm_sec := Z.of_nat (n mod 60) |} in
  let c1 := {| call_function := str "int main()"; call_format := str "x={} y={}";
               call_level := INFO; call_args := [AInt true W32 1; ACStr (str "two")] |} in
  let c2 := {| call_function := str "int main()"; call_format := str "bye";
               call_level := ERROR; call_args := [] |} in
  let log lg c :=
    fst <$> FAST_LOG lg 1 (call_function c) (call_level c) (call_format c) (call_args c) in
  let logged := lg1 ← log FastLogger_new c1; log lg1 c2 in
  _mFileStream <$> (logged ≫= ConsumeAndWriteLogs clock) =
    Some [Put (str "[2026-11-03 04:05:00] [INFO] int main():x=1 y=two"); Put [LF]; Flush;
          Put (str "[2026-11-03 04:05:01] [ERROR] int main():bye"); Put [LF]; Flush] ∧
  ∃ lg, logged = Some lg ∧ (logger_ok lg ∧ ∀ n, tm_ok (clock n)) ∧
    ∃ calls lg',
      Forall2 message_of (outstanding lg) calls ∧
      ConsumeAndWriteLogs clock lg = Some lg' ∧
      _mFileStream lg' = _mFileStream lg ++ spec_lines clock 0 calls ∧
      (∀ n c, spec_line (clock n) c =
              str "[" ++ put_time (clock n) ++ str "] [" ++
              LogLevelToString (call_level c) ++ str "] " ++
              spec_splice (call_function c ++ str ":" ++ call_format c)
                (map ostream_put (call_args c))) ∧
      (∀ n, timestamp_shape (put_time (clock n))) ∧
      outstanding lg' = [].
Proof.
  intros ios clock c1 c2 log logged.
  split; [vm_compute; reflexivity|].
  assert (Hnul : ∀ s : string, forallb (λ a, negb (Ascii.eqb a NUL)) (str s) = true →
                               NUL ∉ str s).
  { intros s Hs Hin. rewrite forallb_forall in Hs.
    apply list_elem_of_In, Hs in Hin. by rewrite Ascii.eqb_refl in Hin. }
  assert (Hc1 : call_ok c1).
  { split; [by apply Hnul|]. split; [by apply Hnul|]. split.
    - repeat constructor; vm_compute; congruence.
    - vm_compute. lia. }
  assert (Hc2 : call_ok c2).
  { split; [by apply Hnul|]. split; [by apply Hnul|]. split.
    - constructor.
    - vm_compute. lia. }
  destruct (FAST_LOG_ok FastLogger_new 1 c1 FastLogger_new_wf FastLogger_new_ok Hc1)
    as (lg1 & sp1 & q1 & E1 & Hwf1 & Hok1 & Hlv1 & HG1 & Hlen1);
    [simpl; lia|vm_compute; reflexivity|].
  destruct (FAST_LOG_ok lg1 1 c2 Hwf1 Hok1 Hc2)
    as (lg2 & sp2 & q2 & E2 & Hwf2 & Hok2 & _);
    [rewrite Hlv1; simpl; lia| |].
  { unfold scoped_queue. rewrite HG1. cbn [snd].
    apply not_full_of_length; [by apply (Hwf1 1%nat)|].
    rewrite Hlen1. vm_compute. lia. }
  assert (Hclock : ∀ n, tm_ok (clock n)).
  { intros n. unfold tm_ok, clock. cbn.
    pose proof (Nat.mod_upper_bound n 60 ltac:(lia)). lia. }
  exists lg2. split.
  { unfold logged, log. rewrite E1. cbn [fmap option_fmap option_map mbind option_bind fst].
    by rewrite E2. }
  split; [done|].
  exact (drain_pass_lines clock lg2 Hok2 Hclock).
Defined.

(** C8, as the code has it.  The thread that unregisters a queue that is not
    empty sleeps once, then erases the queue from the set whatever its
    state: the queue is empty when it is erased exactly when it was empty to
    begin with or the drain thread completed a pass during the sleep. *)
Theorem unregister_erases_after_sleep `{Iostream} (passes : nat) (clock : nat → tm)
    (lg : FastLogger) (thread : nat) (q : SPSC.SPSCQueue LogMessage) :
  logger_ok lg →
  _mThreadScopedQueues lg !! thread = Some q →
  ∃ lg1 q1,
    UnRegisterThreadScopedQueue passes clock lg thread = Some (lg1, erase lg1 thread) ∧
    _mThreadScopedQueues (erase lg1 thread) !! thread = None ∧
    _mThreadScopedQueues lg1 !! thread = Some q1 ∧
    (SPSC.IsEmpty q1 = true ↔ SPSC.IsEmpty q = true ∨ (0 < passes)%nat).
Proof.
  intros Hok Hq.
  destruct (UnRegister_spec passes clock lg thread q Hok Hq) as (lg1 & q1 & HU & Hq1 & Hiff).
  exists lg1, q1. split; [done|]. split; [|done].
  unfold erase. cbn [_mThreadScopedQueues]. apply lookup_delete_eq.
Qed.

Lemma nonempty_of_length (q : SPSC.SPSCQueue LogMessage) n :
  SPSC.wf kQueueSize q →
  length (SPSC.contents kQueueSize q) = S n →
  SPSC.IsEmpty q = false.
Proof.
  intros Hwf Hlen. destruct (SPSC.IsEmpty q) eqn:E; [|done].
  rewrite kQueueSize_pow in *.
  apply (IsEmpty_count 10 k10 q Hwf) in E.
  rewrite (length_contents 10 k10 q Hwf), E in Hlen. discriminate Hlen.
Qed.

(** A logger with one message outstanding on the queue of thread 1. *)
Lemma one_message_logged :
  let c := {| call_function := str "void worker()"; call_format := str "done {}";
              call_level := INFO; call_args := [AInt true W32 100] |} in
  ∃ lg q,
    fst <$> FAST_LOG FastLogger_new 1 (call_function c) (call_level c)
              (call_format c) (call_args c) = Some lg ∧
    logger_ok lg ∧
    _mThreadScopedQueues lg !! 1%nat = Some q ∧
    SPSC.IsEmpty q = false.
Proof.
  intros c.
  assert (Hc : call_ok c).
  { assert (Hnul : ∀ s : string, forallb (λ a, negb (Ascii.eqb a NUL)) (str s) = true →
                                 NUL ∉ str s).
    { intros s Hs Hin. rewrite forallb_forall in Hs.
      apply list_elem_of_In, Hs in Hin. by rewrite Ascii.eqb_refl in Hin. }
    split; [by apply Hnul|]. split; [by apply Hnul|]. split.
    - repeat constructor; vm_compute; congruence.
    - vm_compute. lia. }
  destruct (FAST_LOG_ok FastLogger_new 1 c FastLogger_new_wf FastLogger_new_ok Hc)
    as (lg & sp & q & E & Hwf & Hok & _ & Hq & Hlen);
    [simpl; lia|vm_compute; reflexivity|].
  exists lg, q. rewrite E. split; [done|]. split; [done|]. split; [done|].
  eapply nonempty_of_length; [by apply (Hwf 1%nat)|exact Hlen].
Qed.

Lemma unregister_erases_after_sleep_witness :
  let ios := {| ostream_float := λ _, str "1.5"; ostream_double := λ _, str "2.5" |} in
  let clock := λ n : nat,
    {| tm_year := 126; tm_mon := 10; tm_mday := 3;
       tm_hour := 4; tm_min := 5; tm_sec := 6 |} in
  let c := {| call_function := str "void worker()"; call_format := str "done {}";
              call_level := INFO; call_args := [AInt true W32 100] |} in
  ∃ lg q,
    fst <$> FAST_LOG FastLogger_new 1 (call_function c) (call_level c)
              (call_format c) (call_args c) = Some lg ∧
    (logger_ok lg ∧ _mThreadScopedQueues lg !! 1%nat = Some q) ∧
    SPSC.IsEmpty q = false ∧
    ∃ lg1 q1,
      UnRegisterThreadScopedQueue 1 clock lg 1 = Some (lg1, erase lg1 1) ∧
      _mThreadScopedQueues (erase lg1 1) !! 1%nat = None ∧
      _mThreadScopedQueues lg1 !! 1%nat = Some q1 ∧
      (SPSC.IsEmpty q1 = true ↔ SPSC.IsEmpty q = true ∨ (0 < 1)%nat).
Proof.
  intros ios clock c.
  destruct one_message_logged as (lg & q & E & Hok & Hq & Hne).
  exists lg, q. split; [exact E|]. split; [done|]. split; [done|].
  exact (unregister_erases_after_sleep 1 clock lg 1 q Hok Hq).
Defined.

(** C8 as the specification states it fails: with a message outstanding and
    a drain thread that completes no pass during the sleep, the queue is
    erased all the same, in a state where [IsEmpty] does not hold. *)
Lemma unregister_erases_nonempty_queue :
  let ios := {| ostream_float := λ _, str "1.5"; ostream_double := λ _, str "2.5" |} in
  let clock := λ n : nat,
    {| tm_year := 126; tm_mon := 10; tm_mday := 3;
       tm_hour := 4; tm_min := 5; tm_sec := 6 |} in
  let c := {| call_function := str "void worker()"; call_format := str "done {}";
              call_level := INFO; call_args := [AInt true W32 100] |} in
  ∃ lg q,
    fst <$> FAST_LOG FastLogger_new 1 (call_function c) (call_level c)
              (call_format c) (call_args c) = Some lg ∧
    _mThreadScopedQueues lg !! 1%nat = Some q ∧
    SPSC.IsEmpty q = false ∧
    UnRegisterThreadScopedQueue 0 clock lg 1 = Some (lg, erase lg 1) ∧
    _mThreadScopedQueues (erase lg 1) !! 1%nat = None ∧
    ¬ erased_only_when_empty 0 clock lg 1.
Proof.
  intros ios clock c.
  destruct one_message_logged as (lg & q & E & Hok & Hq & Hne).
  exists lg, q. split; [exact E|]. split; [done|]. split; [done|].
  assert (HU : UnRegisterThreadScopedQueue 0 clock lg 1 = Some (lg, erase lg 1)).
  { unfold UnRegisterThreadScopedQueue, unregister_wait. by rewrite Hq, Hne. }
  split; [exact HU|]. split.
  - unfold erase. cbn [_mThreadScopedQueues]. apply lookup_delete_eq.
  - intros Hclaim. specialize (Hclaim lg (erase lg 1) q HU Hq). congruence.
Qed.

(** * Further properties of the ring buffer *)

Lemma land_upper_bound a b : 0 ≤ a → 0 ≤ b → 0 ≤ Z.land a b ≤ b.
Proof.
  intros Ha Hb. split; [apply Z.land_nonneg; by left|].
  assert (Hd : 0 ≤ Z.ldiff b a) by (apply Z.ldiff_nonneg; by left).
  assert (Hz : Z.land (Z.ldiff b a) (Z.land b a) = 0).
  { rewrite (Z.land_comm b a), Z.land_assoc, Z.land_ldiff. apply Z.land_0_l. }
  pose proof (Z.add_nocarry_lxor _ _ Hz) as Hadd.
  rewrite (Z.lxor_lor _ _ Hz), Z.lor_ldiff_and in Hadd.
  rewrite (Z.land_comm a b). lia.
Qed.

Lemma getNextIndex_range_any (QueueSize i : Z) :
  1 ≤ QueueSize < 2 ^ 64 → 0 ≤ SPSC.getNextIndex QueueSize i < QueueSize.
Proof.
  intros HQ. unfold SPSC.getNextIndex, SPSC.kIndexMask, size_t_wrap, size_t_modulus.
  rewrite (Z.mod_small (QueueSize - 1)) by lia.
  assert (0 ≤ (i + 1) mod 2 ^ 64) by (apply Z.mod_pos_bound; lia).
  pose proof (land_upper_bound ((i + 1) mod 2 ^ 64) (QueueSize - 1)). lia.
Qed.

(** X1. Whatever the size of the queue, a power of two or not, [Enqueue] and
    [Dequeue] keep both indices inside the buffer, and the slot each of them
    accesses exists. *)
Theorem indices_in_range_any_size {T : Type} (QueueSize : Z) (q : SPSC.SPSCQueue T)
    (f : T → T) (d : T) :
  1 ≤ QueueSize < 2 ^ 64 →
  SPSC.wf QueueSize q →
  (∀ q', SPSC.Enqueue QueueSize q f = Some q' → SPSC.wf QueueSize q') ∧
  SPSC.wf QueueSize (SPSC.Dequeue QueueSize q d).2 ∧
  is_Some (SPSC._mDataBuffer q !! Z.to_nat (SPSC._mTail q)) ∧
  is_Some (SPSC._mDataBuffer q !! Z.to_nat (SPSC._mHead q)).
Proof.
  intros HQ (Hl & Hh & Ht). split; [|split; [|split]].
  - intros q'. unfold SPSC.Enqueue. destruct (_ =? _); [done|]. intros [= <-].
    pose proof (getNextIndex_range_any QueueSize (SPSC._mTail q) HQ).
    repeat split; cbn; try lia. by rewrite length_alter.
  - unfold SPSC.Dequeue. destruct (SPSC.IsEmpty q); cbn.
    + repeat split; lia.
    + repeat split; cbn; try done; try lia; by apply getNextIndex_range_any.
  - apply lookup_lt_is_Some_2. lia.
  - apply lookup_lt_is_Some_2. lia.
Qed.

Lemma indices_in_range_any_size_witness :
  let q := SPSC.Build [10; 20; 30; 40; 50; 60]%nat 1 0 in
  (1 ≤ 6 < 2 ^ 64 ∧ SPSC.wf 6 q) ∧
  SPSC.Enqueue 6 q (λ _, 70%nat) = None ∧
  SPSC.Dequeue 6 q 0%nat = (true, 20%nat, SPSC.Build [10; 20; 30; 40; 50; 60]%nat 0 0) ∧
  SPSC.wf 6 (SPSC.Dequeue 6 q 0%nat).2.
Proof.
  intros q.
  assert (HQ : 1 ≤ 6 < 2 ^ 64) by lia.
  assert (Hwf : SPSC.wf 6 q) by (repeat split; simpl; try lia; reflexivity).
  split; [done|]. split; [reflexivity|]. split; [reflexivity|].
  apply (indices_in_range_any_size 6 q id 0%nat HQ Hwf).
Defined.

(** X2. With an odd [QueueSize] the index mask is even, the index after 0 is
    0 again, and a fresh queue is full for ever: no [Enqueue] on it returns,
    and [Dequeue] finds it empty. *)
Theorem odd_size_never_accepts {T : Type} (QueueSize : Z) (storage : list T)
    (f : T → T) (d : T) :
  1 ≤ QueueSize < 2 ^ 64 →
  Z.odd QueueSize = true →
  SPSC.getNextIndex QueueSize 0 = 0 ∧
  SPSC.Enqueue QueueSize (SPSC.init storage) f = None ∧
  SPSC.Dequeue QueueSize (SPSC.init storage) d = (false, d, SPSC.init storage).
Proof.
  intros HQ Hodd.
  assert (Hn : SPSC.getNextIndex QueueSize 0 = 0).
  { unfold SPSC.getNextIndex, SPSC.kIndexMask, size_t_wrap, size_t_modulus.
    rewrite (Z.mod_small (QueueSize - 1)) by lia.
    change ((0 + 1) mod 2 ^ 64) with (Z.ones 1).
    rewrite Z.land_comm, Z.land_ones by lia. change (2 ^ 1) with 2.
    rewrite Zmod_odd. replace (QueueSize - 1) with (Z.pred QueueSize) by lia.
    rewrite Z.odd_pred, <- Z.negb_odd, Hodd. done. }
  split; [done|]. split; [|done].
  unfold SPSC.Enqueue, SPSC.init. cbn [SPSC._mTail SPSC._mHead]. by rewrite Hn.
Qed.

Lemma odd_size_never_accepts_witness :
  (1 ≤ 5 < 2 ^ 64 ∧ Z.odd 5 = true) ∧
  SPSC.getNextIndex 5 0 = 0 ∧
  SPSC.Enqueue 5 (SPSC.init [0; 0; 0; 0; 0]%nat) (λ _, 7%nat) = None ∧
  SPSC.Dequeue 5 (SPSC.init [0; 0; 0; 0; 0]%nat) 9%nat =
    (false, 9%nat, SPSC.init [0; 0; 0; 0; 0]%nat).
Proof.
  assert (HQ : 1 ≤ 5 < 2 ^ 64) by lia.
  split; [by split|].
  apply (odd_size_never_accepts 5 [0; 0; 0; 0; 0]%nat (λ _, 7%nat) 9%nat HQ eq_refl).
Defined.

(** X3. On an empty queue of at least two slots, wherever its indices stand
    (at the last slot too, where they wrap), [Enqueue] of a value followed by
    [Dequeue] returns that value and leaves the queue empty. *)
Theorem enqueue_then_dequeue {T : Type} (k : Z) (q : SPSC.SPSCQueue T) (x d : T) :
  1 ≤ k < 64 →
  SPSC.wf (2 ^ k) q →
  SPSC.IsEmpty q = true →
  ∃ q1 q2,
    SPSC.EnqueueCopy (2 ^ k) q x = Some q1 ∧
    SPSC.contents (2 ^ k) q1 = [x] ∧
    SPSC.Dequeue (2 ^ k) q1 d = (true, x, q2) ∧
    SPSC.IsEmpty q2 = true ∧
    SPSC._mHead q2 = (SPSC._mHead q + 1) mod 2 ^ k.
Proof.
  intros Hk Hwf Hempty.
  assert (Hk' : 0 ≤ k < 64) by lia.
  assert (H2 : 2 ≤ 2 ^ k).
  { change 2 with (2 ^ 1) at 1. apply Z.pow_le_mono_r; lia. }
  pose proof (proj1 (IsEmpty_count k Hk' q Hwf) Hempty) as Hc0.
  destruct (SPSC.EnqueueCopy (2 ^ k) q x) as [q1|] eqn:E.
  2:{ apply (Enqueue_full k) in E. apply (IsFull_count k Hk' q Hwf) in E. lia. }
  unfold SPSC.EnqueueCopy in E.
  destruct (Enqueue_contents k Hk' q _ q1 Hwf E) as (old & _ & _ & Hc & Hn).
  pose proof (Enqueue_wf k Hk' q _ q1 Hwf E) as Hwf1.
  assert (Hne : SPSC.IsEmpty q1 = false).
  { destruct (SPSC.IsEmpty q1) eqn:E1; [|done].
    apply (IsEmpty_count k Hk' q1 Hwf1) in E1. lia. }
  destruct (Dequeue_contents k Hk' q1 d Hwf1 Hne) as (v & q2 & HD & _ & Hc2 & Hn2).
  assert (Hq0 : SPSC.contents (2 ^ k) q = []).
  { unfold SPSC.contents. by rewrite Hc0. }
  rewrite Hq0 in Hc. simpl in Hc. rewrite Hc in Hc2. injection Hc2 as <- Hc2.
  exists q1, q2. split; [done|]. split; [done|]. split; [done|].
  pose proof (Dequeue_wf k Hk' q1 d Hwf1) as Hwf2. rewrite HD in Hwf2. cbn in Hwf2.
  split.
  - apply (IsEmpty_count k Hk' q2 Hwf2). lia.
  - unfold SPSC.Dequeue in HD. rewrite Hne in HD. injection HD as _ <-.
    cbn [SPSC._mHead]. unfold SPSC.Enqueue in E.
    destruct (_ =? _); [done|]. injection E as <-. cbn [SPSC._mHead].
    apply (getNextIndex_mod k Hk'). apply Hwf.
Qed.

Lemma enqueue_then_dequeue_witness :
  let q := SPSC.Build [10; 20; 30; 40]%nat 3 3 in
  (1 ≤ 2 < 64 ∧ SPSC.wf (2 ^ 2) q ∧ SPSC.IsEmpty q = true) ∧
  ∃ q1 q2,
    SPSC.EnqueueCopy (2 ^ 2) q 50%nat = Some q1 ∧
    SPSC.contents (2 ^ 2) q1 = [50%nat] ∧
    SPSC.Dequeue (2 ^ 2) q1 0%nat = (true, 50%nat, q2) ∧
    SPSC.IsEmpty q2 = true ∧
    SPSC._mHead q2 = (SPSC._mHead q + 1) mod 2 ^ 2.
Proof.
  intros q.
  assert (Hk : 1 ≤ 2 < 64) by lia.
  assert (Hwf : SPSC.wf (2 ^ 2) q) by (repeat split; simpl; try lia; reflexivity).
  split; [done|].
  apply (enqueue_then_dequeue 2 q 50%nat 0%nat Hk Hwf eq_refl).
Defined.

Lemma no_slot_race_witness :
  let schedule :=
    [Conc.Producer (λ _, 7%nat); Conc.Producer id; Conc.Producer id; Conc.Producer id;
     Conc.Producer id; Conc.Producer id;
     Conc.Consumer true; Conc.Consumer true; Conc.Consumer true] in
  let s := Conc.run (2 ^ 2) schedule (Conc.initial [0; 0; 0; 0]%nat 0%nat) in
  (0 ≤ 2 < 64 ∧ length [0; 0; 0; 0]%nat = Z.to_nat (2 ^ 2) ∧
   Conc.prod s = Conc.PConstruct id 1 2 ∧ Conc.cons s = Conc.CCopy 0) ∧
  1 ≠ 0.
Proof.
  intros schedule s.
  assert (Hk : 0 ≤ 2 < 64) by lia.
  split; [done|].
  exact (no_slot_race 2 [0; 0; 0; 0]%nat 0%nat schedule id 1 2 0 Hk eq_refl eq_refl eq_refl).
Defined.

(** X5. Whatever the interleaving, both indices stay inside the buffer, at
    most [QueueSize - 1] messages are outstanding, and the slot the producer
    is constructing and the slot the consumer is copying exist. *)
Theorem interleaved_bounds {T : Type} (k : Z) (storage : list T) (data : T)
    (schedule : list (Conc.event (T := T))) :
  0 ≤ k < 64 →
  length storage = Z.to_nat (2 ^ k) →
  let s := Conc.run (2 ^ k) schedule (Conc.initial storage data) in
  SPSC.wf (2 ^ k) (Conc.queue s) ∧
  Z.of_nat (length (SPSC.contents (2 ^ k) (Conc.queue s))) ≤ 2 ^ k - 1 ∧
  (∀ f w n, Conc.prod s = Conc.PConstruct f w n →
            is_Some (SPSC._mDataBuffer (Conc.queue s) !! Z.to_nat w)) ∧
  (∀ r, Conc.cons s = Conc.CCopy r →
        is_Some (SPSC._mDataBuffer (Conc.queue s) !! Z.to_nat r)).
Proof.
  intros Hk Hl s.
  assert (Hinv : Conc.inv (2 ^ k) s).
  { apply run_inv; [done|]. by apply initial_inv. }
  destruct Hinv as (Hwf & Hp & Hc & _).
  split; [done|]. split.
  { rewrite (length_contents k Hk _ Hwf).
    pose proof (count_range k Hk _ Hwf). lia. }
  destruct Hwf as (Hlen & Hh & Ht). split.
  - intros f w n E. unfold Conc.producer_inv in Hp. rewrite E in Hp.
    destruct Hp as (-> & _). apply lookup_lt_is_Some_2. lia.
  - intros r E. unfold Conc.consumer_inv in Hc. rewrite E in Hc.
    destruct Hc as (-> & _). apply lookup_lt_is_Some_2. lia.
Qed.

Lemma interleaved_bounds_witness :
  let schedule :=
    [Conc.Producer (λ _, 7%nat); Conc.Producer id; Conc.Producer id; Conc.Producer id;
     Conc.Consumer false; Conc.Producer id; Conc.Consumer false] in
  let s := Conc.run (2 ^ 2) schedule (Conc.initial [0; 0; 0; 0]%nat 0%nat) in
  (0 ≤ 2 < 64 ∧ length [0; 0; 0; 0]%nat = Z.to_nat (2 ^ 2)) ∧
  SPSC.contents (2 ^ 2) (Conc.queue s) = [7%nat] ∧
  SPSC.wf (2 ^ 2) (Conc.queue s) ∧
  Z.of_nat (length (SPSC.contents (2 ^ 2) (Conc.queue s))) ≤ 2 ^ 2 - 1.
Proof.
  intros schedule s.
  assert (Hk : 0 ≤ 2 < 64) by lia.
  split; [done|]. split; [reflexivity|].
  pose proof (interleaved_bounds 2 [0; 0; 0; 0]%nat 0%nat schedule Hk eq_refl) as H.
  split; apply H.
Defined.

Lemma producer_alone_witness :
  let s := Conc.State (SPSC.Build [10; 20; 30; 40]%nat 1 3) Conc.PIdle
             (Conc.CCopy 1) 0%nat [] [] in
  let s' := Conc.run 4 (replicate 4 (Conc.Producer (λ _, 50%nat))) s in
  (Conc.prod s = Conc.PIdle ∧
   SPSC.Enqueue 4 (Conc.queue s) (λ _, 50%nat) =
     Some (SPSC.Build [10; 20; 30; 50]%nat 1 0)) ∧
  Conc.queue s' = SPSC.Build [10; 20; 30; 50]%nat 1 0 ∧
  Conc.prod s' = Conc.PIdle ∧ Conc.enqueued s' = [50%nat].
Proof.
  intros s s'. split; [done|].
  pose proof (producer_alone 4 s (λ _, 50%nat) _ eq_refl eq_refl) as H.
  split; [apply H|]. split; [apply H|]. apply H.
Defined.

Lemma producer_spins_witness :
  let s := Conc.State (SPSC.Build [10; 20; 30; 40]%nat 1 0) Conc.PIdle
             Conc.CIdle 0%nat [] [] in
  let s' := Conc.run 4 (replicate 100 (Conc.Producer (λ _, 50%nat))) s in
  (Conc.prod s = Conc.PIdle ∧ SPSC.Enqueue 4 (Conc.queue s) (λ _, 50%nat) = None) ∧
  Conc.queue s' = Conc.queue s ∧
  Conc.prod s' = Conc.PSpin (λ _, 50%nat) 0 1 ∧
  Conc.cons s' = Conc.CIdle ∧ Conc.out s' = 0%nat ∧
  Conc.enqueued s' = [] ∧ Conc.dequeued s' = [].
Proof.
  intros s s'. split; [done|].
  exact (producer_spins 4 s (λ _, 50%nat) 99 eq_refl eq_refl).
Defined.

Lemma consumer_alone_witness :
  let s := Conc.State (SPSC.Build [10; 20; 30; 40]%nat 3 1) Conc.PIdle
             Conc.CIdle 0%nat [] [] in
  let s' := Conc.run 4 (replicate 5 (Conc.Consumer false)) s in
  Conc.cons s = Conc.CIdle ∧
  SPSC.Dequeue 4 (Conc.queue s) (Conc.out s) =
    (true, 40%nat, SPSC.Build [10; 20; 30; 40]%nat 0 1) ∧
  Conc.queue s' = SPSC.Build [10; 20; 30; 40]%nat 0 1 ∧
  Conc.out s' = 40%nat ∧ Conc.dequeued s' = [40%nat].
Proof.
  intros s s'. split; [done|]. split; [reflexivity|].
  pose proof (consumer_alone 4 s false eq_refl) as H.
  split; [apply H|]. split; apply H.
Defined.

(** * Further properties of messages and formatters *)

(** X9. The constructor names the formatter, keeps the size of the buffer,
    overwrites its first bytes with the level byte and the encoded arguments
    (as far as the buffer goes), and leaves every byte after them as the
    storage held it: nothing is cleared. *)
Theorem constructor_effect (slot : LogMessage) (f : LogFormatter) (lvl : LogLevel)
    (args : list Arg) :
  let m := LogMessage_new slot f lvl args in
  let n := length (payload_stream lvl args) in
  _mFormatter m = Some f ∧
  length (_mDataBuffer m) = length (_mDataBuffer slot) ∧
  take n (_mDataBuffer m) = take (length (_mDataBuffer slot)) (payload_stream lvl args) ∧
  drop n (_mDataBuffer m) = drop n (_mDataBuffer slot).
Proof.
  intros m n. split; [done|]. split; [apply length_construct|].
  unfold m, LogMessage_new. cbn [_mDataBuffer]. rewrite construct_spec. cbn [buffer].
  fold n.
  destruct (decide (n ≤ length (_mDataBuffer slot))%nat) as [Hle|Hgt].
  - rewrite (take_ge (payload_stream lvl args)) by done. split.
    + apply take_app_length.
    + apply drop_app_length.
  - rewrite (drop_ge (_mDataBuffer slot)) by lia. rewrite app_nil_r. split.
    + apply take_ge. rewrite length_take. lia.
    + apply drop_ge. rewrite length_take. lia.
Qed.

(** X10. A [const char*] argument is copied up to its first null: what is
    stored, the message constructed and the text written for the argument are
    those of the string that ends there, whatever follows the null in the
    array and wherever the argument stands among the others. *)
Theorem c_string_stops_at_null `{Iostream} (slot : LogMessage) (f : LogFormatter)
    (lvl : LogLevel) (before after : list Arg) (s : text) :
  encoding (ACStr s) = c_str s ++ [NUL] ∧
  ostream_put (ACStr s) = c_str s ∧
  construct slot f lvl (before ++ ACStr s :: after) =
    construct slot f lvl (before ++ ACStr (c_str s) :: after) ∧
  LogMessage_new slot f lvl (before ++ ACStr s :: after) =
    LogMessage_new slot f lvl (before ++ ACStr (c_str s) :: after).
Proof.
  split; [done|]. split; [done|].
  assert (Hc : construct slot f lvl (before ++ ACStr s :: after) =
               construct slot f lvl (before ++ ACStr (c_str s) :: after)).
  { unfold construct. rewrite !CopyArgs_encoding, !map_app. cbn [map encoding].
    by rewrite c_str_idemp. }
  split; [done|]. unfold LogMessage_new. by rewrite Hc.
Qed.

(** X11. The line written for a message does not depend on what its slot
    held before: two messages constructed by the same well-formed call on
    different storage give the same line. *)
Theorem line_independent_of_slot `{Iostream} (now : tm) (c : call)
    (slot1 slot2 : LogMessage) :
  call_ok c →
  length (_mDataBuffer slot1) = kDataBufferSize →
  length (_mDataBuffer slot2) = kDataBufferSize →
  let f := call_site_formatter (call_function c) (call_format c)
             (map type_of (call_args c)) in
  write_line now (LogMessage_new slot1 f (call_level c) (call_args c)) =
  write_line now (LogMessage_new slot2 f (call_level c) (call_args c)) ∧
  write_line now (LogMessage_new slot1 f (call_level c) (call_args c)) =
  Some [Put (spec_line now c); Put [LF]; Flush].
Proof.
  intros Hc H1 H2 f.
  rewrite (write_line_spec now _ c), (write_line_spec now _ c); [done| |].
  - split; [done|]. by exists slot2.
  - split; [done|]. by exists slot1.
Qed.

Lemma line_independent_of_slot_witness :
  let ios := {| ostream_float := λ _, str "1.5"; ostream_double := λ _, str "2.5" |} in
  let now := {| tm_year := 126; tm_mon := 10; tm_mday := 3;
                tm_hour := 4; tm_min := 5; tm_sec := 6 |} in
  let c := {| call_function := str "void f()"; call_format := str "n={}";
              call_level := FATAL; call_args := [AInt false W16 9] |} in
  let used := {| _mFormatter := None;
                 _mDataBuffer := replicate kDataBufferSize "x"%char |} in
  let f := call_site_formatter (call_function c) (call_format c)
             (map type_of (call_args c)) in
  (call_ok c ∧ length (_mDataBuffer zero_message) = kDataBufferSize ∧
   length (_mDataBuffer used) = kDataBufferSize) ∧
  _mDataBuffer (LogMessage_new zero_message f FATAL (call_args c)) ≠
    _mDataBuffer (LogMessage_new used f FATAL (call_args c)) ∧
  write_line now (LogMessage_new zero_message f (call_level c) (call_args c)) =
  write_line now (LogMessage_new used f (call_level c) (call_args c)) ∧
  write_line now (LogMessage_new zero_message f (call_level c) (call_args c)) =
  Some [Put (spec_line now c); Put [LF]; Flush].
Proof.
  intros ios now c used f.
  assert (Hnul : ∀ s : string, forallb (λ a, negb (Ascii.eqb a NUL)) (str s) = true →
                               NUL ∉ str s).
  { intros s Hs Hin. rewrite forallb_forall in Hs.
    apply list_elem_of_In, Hs in Hin. by rewrite Ascii.eqb_refl in Hin. }
  assert (Hc : call_ok c).
  { split; [by apply Hnul|]. split; [by apply Hnul|]. split.
    - repeat constructor; vm_compute; congruence.
    - vm_compute. lia. }
  assert (H1 : length (_mDataBuffer zero_message) = kDataBufferSize) by reflexivity.
  assert (H2 : length (_mDataBuffer used) = kDataBufferSize) by reflexivity.
  split; [done|]. split.
  { intros E. apply (f_equal (λ b, b !! 5%nat)) in E. vm_compute in E. discriminate E. }
  exact (line_independent_of_slot now c zero_message used Hc H1 H2).
Defined.

(** X12. The two level-name functions agree: the name of a level maps back
    to the level, and any string maps either to [FATAL] or to the level whose
    name it is; no level is named ["INVALID"], which maps to [FATAL] like
    every other unknown string. *)
Theorem level_names_roundtrip :
  (∀ l, LogLevelStrToEnum (LogLevelToString l) = l) ∧
  (∀ s, LogLevelStrToEnum s = FATAL ∨ LogLevelToString (LogLevelStrToEnum s) = s) ∧
  (∀ l, LogLevelToString l ≠ str "INVALID") ∧
  (∀ c, LogLevel_of_char c = None → LogLevelStrToEnum (LogLevelToString_raw c) = FATAL).
Proof.
  split; [by intros []|]. split; [|split].
  - intros s. unfold LogLevelStrToEnum.
    repeat case_decide; subst; auto.
  - by intros [].
  - intros c Hc. unfold LogLevelToString_raw. by rewrite Hc.
Qed.

Lemma strstr_braces_None (s : text) :
  strstr_braces s = None → placeholders s = O.
Proof.
  induction s as [|c s IH]; [done|]. cbn [strstr_braces placeholders].
  destruct s as [|d s'']; [done|].
  destruct (Ascii.eqb c "{" && Ascii.eqb d "}"); [done|].
  destruct (strstr_braces (d :: s'')); [done|]. intros _. by apply IH.
Qed.

Lemma strstr_braces_Some (s : text) (p : nat) :
  strstr_braces s = Some p →
  placeholders s = S (placeholders (drop (p + 2) s)).
Proof.
  revert p. induction s as [|c s IH]; intros p; [done|].
  cbn [strstr_braces placeholders].
  destruct s as [|d s'']; [done|].
  destruct (Ascii.eqb c "{" && Ascii.eqb d "}").
  - intros [= <-]. done.
  - destruct (strstr_braces (d :: s'')) as [p'|] eqn:E; [|done].
    intros [= <-]. rewrite (IH p' eq_refl). done.
Qed.

(** X13. Arguments beyond the placeholders of the format string are neither
    decoded nor written: with no more placeholders than [Args] the result of
    [Format] is the same whatever further argument types follow, also when
    decoding them would run past the payload. *)
Theorem excess_arguments_ignored `{Iostream} (Args extra : list ArgType)
    (buf : list ascii) (__data : nat) (__formatStr __stream : text) :
  (placeholders __formatStr ≤ length Args)%nat →
  Format (Args ++ extra) buf __data __formatStr __stream =
  Format Args buf __data __formatStr __stream.
Proof.
  revert __data __formatStr __stream.
  induction Args as [|ty Args IH]; intros d fmt stream Hp.
  - destruct (strstr_braces fmt) as [p|] eqn:E.
    + apply strstr_braces_Some in E. simpl in Hp. lia.
    + destruct extra; cbn [app Format]; [done|]. by rewrite E.
  - cbn [app Format]. destruct (strstr_braces fmt) as [p|] eqn:E; [|done].
    apply strstr_braces_Some in E.
    destruct (PrintData ty buf d) as [[txt d']|]; [|done].
    cbn [mbind option_bind]. apply IH. simpl in Hp. lia.
Qed.

Lemma excess_arguments_ignored_witness :
  let ios := {| ostream_float := λ _, str "1.5"; ostream_double := λ _, str "2.5" |} in
  let buf := [char_of_Z 1; char_of_Z 7; NUL; NUL; NUL] in
  (placeholders (str "a={} b") ≤ length [TInt true W32])%nat ∧
  Format [TInt true W32] buf 1 (str "a={} b") [] = Some (str "a=7 b") ∧
  Format ([TInt true W32] ++ [TDouble; TCStr]) buf 1 (str "a={} b") [] =
  Format [TInt true W32] buf 1 (str "a={} b") [].
Proof.
  intros ios buf.
  assert (Hp : (placeholders (str "a={} b") ≤ length [TInt true W32])%nat)
    by (vm_compute; lia).
  split; [done|]. split; [reflexivity|].
  exact (excess_arguments_ignored [TInt true W32] [TDouble; TCStr] buf 1
           (str "a={} b") [] Hp).
Defined.

(** * Further properties of the logger *)

Section LoggerMore.
Context `{Iostream}.
Implicit Types (lg : FastLogger) (q : SPSC.SPSCQueue LogMessage) (m : LogMessage)
  (c : call) (clock : nat → tm)
  (l : list (nat * SPSC.SPSCQueue LogMessage)).

(** The visits of [ForEachQueue], for queues whose messages are those of
    given calls. *)
Lemma ForEachQueue_fold_calls clock l lg tick calls :
  (∀ thread q, (thread, q) ∈ l → SPSC.wf kQueueSize q) →
  Forall2 message_of (concat (map (λ '(_, q), SPSC.contents kQueueSize q) l)) calls →
  foldl (λ acc entry, st ← acc; drain_callback clock st entry) (Some (lg, tick)) l =
  Some ({| _mLogLevel := _mLogLevel lg;
           _mFileStream := _mFileStream lg ++ spec_lines clock tick calls;
           _mThreadScopedQueues := drain_all l (_mThreadScopedQueues lg) |},
        (tick + length calls)%nat).
Proof.
  revert lg tick calls. induction l as [|[thread q] l IH]; intros lg tick calls Hl Hcalls.
  - apply Forall2_nil_inv_l in Hcalls as ->. simpl.
    rewrite app_nil_r, Nat.add_0_r. by destruct lg.
  - cbn [map concat] in Hcalls.
    apply Forall2_app_inv_l in Hcalls as (calls1 & calls2 & Hcalls1 & Hcalls2 & ->).
    assert (Hwf : SPSC.wf kQueueSize q) by (apply (Hl thread); left).
    assert (Hlen : (length calls1 < Z.to_nat kQueueSize)%nat).
    { rewrite <- (Forall2_length _ _ _ Hcalls1).
      rewrite kQueueSize_pow in *.
      rewrite (length_contents 10 k10 q Hwf).
      pose proof (count_range 10 k10 q Hwf). lia. }
    cbn [foldl mbind option_bind drain_callback].
    rewrite (drain_loop_spec calls1) by done. cbn [mbind option_bind].
    rewrite (IH _ _ calls2); [|intros t q0 Hin; apply (Hl t q0); by right|done].
    cbn [_mLogLevel _mFileStream _mThreadScopedQueues].
    rewrite spec_lines_app, length_app, <- app_assoc, Nat.add_assoc. done.
Qed.

Lemma ConsumeAndWriteLogs_calls clock lg calls :
  logger_wf lg →
  Forall2 message_of (outstanding lg) calls →
  ConsumeAndWriteLogs clock lg =
  Some {| _mLogLevel := _mLogLevel lg;
          _mFileStream := _mFileStream lg ++ spec_lines clock 0 calls;
          _mThreadScopedQueues := drained <$> _mThreadScopedQueues lg |}.
Proof.
  intros Hwf Hcalls. unfold ConsumeAndWriteLogs, ForEachQueue.
  rewrite (ForEachQueue_fold_calls clock _ lg 0 calls); [| |exact Hcalls].
  - cbn [fmap option_fmap option_map fst]. by rewrite drain_all_map_to_list.
  - intros thread q Hin. apply elem_of_map_to_list in Hin. by apply (Hwf thread).
Qed.

(** The calls of one thread one after the other: those that pass the filter
    are appended, in order, to the queue of the thread. *)
Lemma log_all_spec thread (cs : list call) : ∀ lg (calls0 : list call),
  logger_wf lg → logger_ok lg → Forall call_ok cs →
  Forall2 message_of
    (SPSC.contents kQueueSize (scoped_queue lg thread).2) calls0 →
  (length calls0 + length (List.filter (accepted (_mLogLevel lg)) cs) ≤ 1023)%nat →
  ∃ lg', log_all lg thread cs = Some lg' ∧ logger_wf lg' ∧ logger_ok lg' ∧
    _mLogLevel lg' = _mLogLevel lg ∧ _mFileStream lg' = _mFileStream lg ∧
    (∀ t, t ≠ thread → _mThreadScopedQueues lg' !! t = _mThreadScopedQueues lg !! t) ∧
    Forall2 message_of
      (SPSC.contents kQueueSize (scoped_queue lg' thread).2)
      (calls0 ++ List.filter (accepted (_mLogLevel lg)) cs).
Proof.
  induction cs as [|c cs IH]; intros lg calls0 Hwf Hok Hcs H0 Hlen.
  - exists lg. cbn [log_all List.filter]. rewrite app_nil_r. done.
  - apply Forall_cons_1 in Hcs as [Hc Hcs]. cbn [List.filter] in *.
    destruct (accepted (_mLogLevel lg) c) eqn:Ea.
    + unfold accepted, LogLevel_ge in Ea. apply Z.leb_le in Ea.
      destruct (scoped_queue_spec lg thread Hwf)
        as (lg1 & q & HG & Hq & _).
      assert (Hroom : SPSC.IsFull kQueueSize (scoped_queue lg thread).2
                      = false).
      { rewrite HG in *. cbn [snd] in *. apply not_full_of_length; [done|].
        rewrite (Forall2_length _ _ _ H0). simpl in Hlen. lia. }
      destruct (Log_enqueue lg thread
                  (call_site_formatter (call_function c) (call_format c)
                     (map type_of (call_args c)))
                  (call_level c) (call_args c) Hwf (proj2 (proj2 (proj2 Hc))) Ea Hroom)
        as (q' & slot & HL & Hslot & _ & _ & Hcont).
      destruct (Log_ok lg thread c _ _ Hwf Hok Hc HL) as [Hwf' Hok'].
      set (lg' := {| _mLogLevel := _mLogLevel lg; _mFileStream := _mFileStream lg;
                     _mThreadScopedQueues := <[thread := q']> (_mThreadScopedQueues lg) |})
        in *.
      assert (HG' : scoped_queue lg' thread = (lg', q')).
      { unfold scoped_queue, lg'. cbn [_mThreadScopedQueues].
        by rewrite lookup_insert_eq. }
      destruct (IH lg' (calls0 ++ [c]) Hwf' Hok' Hcs)
        as (lg'' & HA & Hwf'' & Hok'' & Hlv & Hfs & Hqs & Hms).
      { rewrite HG'. cbn [snd]. rewrite Hcont. apply Forall2_app; [done|].
        constructor; [|constructor]. split; [done|]. by exists slot. }
      { rewrite length_app. simpl in *. lia. }
      exists lg''. split.
      { cbn [log_all]. unfold FAST_LOG. rewrite HL. cbn [mbind option_bind]. exact HA. }
      split; [done|]. split; [done|]. split; [done|]. split; [done|]. split.
      * intros t Ht. rewrite (Hqs t Ht). unfold lg'. cbn [_mThreadScopedQueues].
        by rewrite lookup_insert_ne.
      * rewrite <- app_assoc in Hms. exact Hms.
    + unfold accepted, LogLevel_ge in Ea. apply Z.leb_gt in Ea.
      destruct (IH lg calls0 Hwf Hok Hcs H0 Hlen)
        as (lg'' & HA & Hwf'' & Hok'' & Hlv & Hfs & Hqs & Hms).
      exists lg''. split; [|done].
      cbn [log_all]. unfold FAST_LOG. rewrite Log_below_threshold by lia.
      cbn [mbind option_bind]. exact HA.
Qed.

(** A logger only one thread has logged to. *)
Lemma outstanding_one_thread lg thread :
  (∀ t, t ≠ thread → _mThreadScopedQueues lg !! t = None) →
  outstanding lg =
  SPSC.contents kQueueSize (scoped_queue lg thread).2.
Proof.
  intros Hone. unfold outstanding, scoped_queue.
  destruct (_mThreadScopedQueues lg !! thread) as [q|] eqn:E.
  - assert (Hm : _mThreadScopedQueues lg = {[ thread := q ]}).
    { apply map_eq. intros t. destruct (decide (t = thread)) as [->|Hne].
      - by rewrite lookup_singleton_eq.
      - by rewrite lookup_singleton_ne, Hone. }
    rewrite Hm, map_to_list_singleton. cbn [map concat snd]. by rewrite app_nil_r.
  - assert (Hm : _mThreadScopedQueues lg = ∅).
    { apply map_eq. intros t. rewrite lookup_empty.
      destruct (decide (t = thread)) as [->|Hne]; [done|by apply Hone]. }
    rewrite Hm, map_to_list_empty. done.
Qed.

Lemma foldl_drain_None clock l :
  foldl (λ acc entry, st ← acc; drain_callback clock st entry) None l = None.
Proof. induction l as [|e l IH]; [done|]. cbn [foldl mbind option_bind]. exact IH. Qed.

Lemma drain_loop_level_free fuel clock tick q m file :
  ∀ q' file' tick', drain_loop fuel clock tick q m file = Some (q', file', tick') →
  SPSC._mDataBuffer q' = SPSC._mDataBuffer q ∧
  (SPSC.wf kQueueSize q → SPSC.wf kQueueSize q').
Proof.
  revert tick q m file. induction fuel as [|fuel IH]; intros tick q m file q' file' tick';
    [done|].
  cbn [drain_loop].
  pose proof (Dequeue_frame q m) as [Hb _].
  pose proof (Dequeue_wf 10 k10 q m) as Hw. rewrite <- kQueueSize_pow in Hw.
  destruct (SPSC.Dequeue kQueueSize q m) as [[ok m1] q1]. cbn [snd] in *.
  destruct ok.
  - destruct (write_line (clock tick) m1) as [ops|]; [|done]. cbn [mbind option_bind].
    intros HD. destruct (IH _ _ _ _ _ _ _ HD) as [Hb' Hw'].
    split; [congruence|auto].
  - intros [= <- _ _]. auto.
Qed.

Lemma ForEachQueue_fold_wf clock l : ∀ lg tick lg' tick',
  logger_wf lg →
  (∀ thread q, (thread, q) ∈ l →
     SPSC.wf kQueueSize q ∧
     Forall (λ m, length (_mDataBuffer m) = kDataBufferSize) (SPSC._mDataBuffer q)) →
  foldl (λ acc entry, st ← acc; drain_callback clock st entry) (Some (lg, tick)) l =
    Some (lg', tick') →
  logger_wf lg' ∧ _mLogLevel lg' = _mLogLevel lg.
Proof.
  induction l as [|[thread q] l IH]; intros lg tick lg' tick' Hwf Hl.
  - intros [= <- _]. done.
  - cbn [foldl mbind option_bind drain_callback].
    destruct (drain_loop _ clock tick q zero_message (_mFileStream lg))
      as [[[q1 file1] tick1]|] eqn:ED; cbn [mbind option_bind].
    2:{ rewrite foldl_drain_None. done. }
    intros HF. apply IH in HF as [Hwf' Hlv]; [done| |].
    + destruct (drain_loop_level_free _ _ _ _ _ _ _ _ _ ED) as [Hb Hw].
      destruct (Hl thread q) as [Hq Hs]; [left|].
      intros t q0. cbn [_mThreadScopedQueues]. rewrite lookup_insert.
      case_decide; [|apply Hwf]. intros [= <-]. split; [auto|]. by rewrite Hb.
    + intros t q0 Hin. apply (Hl t q0). by right.
Qed.

End LoggerMore.

(** X14. From a fresh logger with threshold [threshold], one thread (whose
    queue is this logger's) makes well-formed log calls of which at most 1023
    pass the filter, then a drain pass runs: every call returns, the pass
    returns, and the file holds exactly the lines of the calls at or above
    the threshold, in the order they were made; nothing was written before
    the pass and nothing is left in any queue after it. *)
Theorem log_then_drain `{Iostream} (clock : nat → tm) (thread : nat)
    (threshold : LogLevel) (cs : list call) :
  Forall call_ok cs →
  (length (List.filter (accepted threshold) cs) ≤ 1023)%nat →
  ∃ lg lg',
    log_all (SetLogLevel FastLogger_new threshold) thread cs = Some lg ∧
    ConsumeAndWriteLogs clock lg = Some lg' ∧
    _mFileStream lg = [] ∧
    _mFileStream lg' = spec_lines clock 0 (List.filter (accepted threshold) cs) ∧
    outstanding lg' = [].
Proof.
  intros Hcs Hlen.
  assert (Hwf0 : logger_wf (SetLogLevel FastLogger_new threshold)).
  { intros t q Hq. cbn in Hq. by rewrite lookup_empty in Hq. }
  assert (Hok0 : logger_ok (SetLogLevel FastLogger_new threshold)).
  { intros t q Hq. cbn in Hq. by rewrite lookup_empty in Hq. }
  destruct (log_all_spec thread cs (SetLogLevel FastLogger_new threshold) []
              Hwf0 Hok0 Hcs) as (lg & HA & Hwf & Hok & Hlv & Hfs & Hqs & Hms).
  { unfold scoped_queue. cbn [SetLogLevel FastLogger_new _mThreadScopedQueues].
    rewrite lookup_empty. cbn [snd]. rewrite contents_fresh. constructor. }
  { exact Hlen. }
  cbn [app SetLogLevel _mLogLevel] in Hms.
  rewrite <- (outstanding_one_thread lg thread) in Hms.
  2:{ intros t Ht. rewrite (Hqs t Ht). apply lookup_empty. }
  exists lg. eexists. split; [exact HA|]. split.
  { apply (ConsumeAndWriteLogs_calls clock lg _ Hwf Hms). }
  split; [by rewrite Hfs|]. split.
  - cbn [_mFileStream]. by rewrite Hfs.
  - by apply (outstanding_drained lg).
Qed.

Lemma log_then_drain_witness :
  let ios := {| ostream_float := λ _, str "1.5"; ostream_double := λ _, str "2.5" |} in
  let clock := λ n : nat,
    {| tm_year := 126; tm_mon := 10; tm_mday := 3;
       tm_hour := 4; tm_min := 5; tm_sec := Z.of_nat n |} in
  let c1 := {| call_function := str "void f()"; call_format := str "a {}";
               call_level := ERROR; call_args := [AInt true W32 1] |} in
  let c2 := {| call_function := str "void f()"; call_format := str "b";
               call_level := DEBUG; call_args := [] |} in
  let c3 := {| call_function := str "int g()"; call_format := str "c {} {}";
               call_level := FATAL; call_args := [ABool true; AString (str "x")] |} in
  let cs := [c1; c2; c3] in
  (Forall call_ok cs ∧
   (length (List.filter (accepted ERROR) cs) ≤ 1023)%nat) ∧
  List.filter (accepted ERROR) cs = [c1; c3] ∧
  ∃ lg lg',
    log_all (SetLogLevel FastLogger_new ERROR) 4 cs = Some lg ∧
    ConsumeAndWriteLogs clock lg = Some lg' ∧
    _mFileStream lg = [] ∧
    _mFileStream lg' = spec_lines clock 0 (List.filter (accepted ERROR) cs) ∧
    outstanding lg' = [].
Proof.
  intros ios clock c1 c2 c3 cs.
  assert (Hnul : ∀ s : string, forallb (λ a, negb (Ascii.eqb a NUL)) (str s) = true →
                               NUL ∉ str s).
  { intros s Hs Hin. rewrite forallb_forall in Hs.
    apply list_elem_of_In, Hs in Hin. by rewrite Ascii.eqb_refl in Hin. }
  assert (Hcs : Forall call_ok cs).
  { repeat constructor; try (by apply Hnul); try (vm_compute; lia);
      try (vm_compute; congruence). }
  assert (Hlen : (length (List.filter (accepted ERROR) cs) ≤ 1023)%nat)
    by (vm_compute; lia).
  split; [done|]. split; [reflexivity|].
  exact (log_then_drain clock 4 ERROR cs Hcs Hlen).
Defined.

(** X15. A second drain pass right after a pass changes nothing: it writes
    no line and leaves every queue as the first pass left it, whatever the
    clock says. *)
Theorem second_pass_changes_nothing `{Iostream} (clock clock' : nat → tm)
    (lg : FastLogger) :
  logger_ok lg →
  ∃ lg1, ConsumeAndWriteLogs clock lg = Some lg1 ∧
         outstanding lg1 = [] ∧
         ConsumeAndWriteLogs clock' lg1 = Some lg1.
Proof.
  intros Hok. destruct (ConsumeAndWriteLogs_spec clock lg Hok) as (calls & _ & HC).
  eexists. split; [exact HC|].
  set (lg1 := {| _mLogLevel := _mLogLevel lg;
                 _mFileStream := _mFileStream lg ++ spec_lines clock 0 calls;
                 _mThreadScopedQueues := drained <$> _mThreadScopedQueues lg |}).
  assert (Hout : outstanding lg1 = []) by by apply (outstanding_drained lg).
  split; [done|].
  assert (Hok1 : logger_ok lg1) by by apply (logger_ok_drained lg).
  destruct (ConsumeAndWriteLogs_spec clock' lg1 Hok1) as (calls' & Hcalls' & HC').
  rewrite Hout in Hcalls'. apply Forall2_nil_inv_l in Hcalls' as ->.
  rewrite HC'. unfold lg1. cbn [_mLogLevel _mFileStream _mThreadScopedQueues spec_lines].
  rewrite app_nil_r, <- map_fmap_compose. do 2 f_equal.
Qed.

Lemma second_pass_changes_nothing_witness :
  let ios := {| ostream_float := λ _, str "1.5"; ostream_double := λ _, str "2.5" |} in
  let clock := λ n : nat,
    {| tm_year := 126; tm_mon := 10; tm_mday := 3;
       tm_hour := 4; tm_min := 5; tm_sec := 6 |} in
  let clock' := λ n : nat,
    {| tm_year := 126; tm_mon := 10; tm_mday := 3;
       tm_hour := 4; tm_min := 5; tm_sec := 7 |} in
  ∃ lg q,
    (logger_ok lg ∧ _mThreadScopedQueues lg !! 1%nat = Some q ∧
     SPSC.IsEmpty q = false) ∧
    ∃ lg1, ConsumeAndWriteLogs clock lg = Some lg1 ∧
           outstanding lg1 = [] ∧
           ConsumeAndWriteLogs clock' lg1 = Some lg1.
Proof.
  intros ios clock clock'.
  destruct one_message_logged as (lg & q & _ & Hok & Hq & Hne).
  exists lg, q. split; [done|].
  exact (second_pass_changes_nothing clock clock' lg Hok).
Defined.

Lemma ForEachQueue_fold_SetLogLevel `{Iostream} (clock : nat → tm)
    (__logLevel : LogLevel) (l : list (nat * SPSC.SPSCQueue LogMessage)) :
  ∀ (lg : FastLogger) (tick : nat),
  foldl (λ acc entry, st ← acc; drain_callback clock st entry)
    (Some (SetLogLevel lg __logLevel, tick)) l =
  (λ st, (SetLogLevel st.1 __logLevel, st.2)) <$>
  foldl (λ acc entry, st ← acc; drain_callback clock st entry) (Some (lg, tick)) l.
Proof.
  induction l as [|[thread q] l IH]; intros lg tick; [done|].
  cbn [foldl mbind option_bind drain_callback].
  change (_mFileStream (SetLogLevel lg __logLevel)) with (_mFileStream lg).
  destruct (drain_loop _ clock tick q zero_message (_mFileStream lg))
    as [[[q1 file1] tick1]|]; cbn [mbind option_bind].
  - exact (IH {| _mLogLevel := _mLogLevel lg; _mFileStream := file1;
                 _mThreadScopedQueues := <[thread := q1]> (_mThreadScopedQueues lg) |}
              tick1).
  - by rewrite !foldl_drain_None.
Qed.

(** X16. The drain never looks at the threshold: a pass after [SetLogLevel]
    does what it does before it, on the file and on every queue, also when it
    fails; messages already queued are written even if the threshold has been
    raised above their level since. *)
Theorem drain_ignores_threshold `{Iostream} (clock : nat → tm) (lg : FastLogger)
    (__logLevel : LogLevel) :
  ConsumeAndWriteLogs clock (SetLogLevel lg __logLevel) =
  (λ lg', SetLogLevel lg' __logLevel) <$> ConsumeAndWriteLogs clock lg.
Proof.
  unfold ConsumeAndWriteLogs, ForEachQueue.
  change (_mThreadScopedQueues (SetLogLevel lg __logLevel))
    with (_mThreadScopedQueues lg).
  rewrite ForEachQueue_fold_SetLogLevel.
  by destruct (foldl _ _ _) as [[lg' tick']|].
Qed.

(** X17. Erasing the queue of a thread removes from the outstanding messages
    exactly those of that queue, which are then never written, and touches
    no other queue, neither the file nor the threshold. *)
Theorem erase_drops_residual (lg : FastLogger) (thread : nat)
    (q : SPSC.SPSCQueue LogMessage) :
  _mThreadScopedQueues lg !! thread = Some q →
  outstanding lg ≡ₚ SPSC.contents kQueueSize q ++ outstanding (erase lg thread) ∧
  _mThreadScopedQueues (erase lg thread) !! thread = None ∧
  (∀ t, t ≠ thread →
     _mThreadScopedQueues (erase lg thread) !! t = _mThreadScopedQueues lg !! t) ∧
  _mFileStream (erase lg thread) = _mFileStream lg ∧
  _mLogLevel (erase lg thread) = _mLogLevel lg.
Proof.
  intros Hq. split; [|split; [|split]].
  - unfold outstanding, erase. cbn [_mThreadScopedQueues].
    rewrite <- (map_to_list_delete _ _ _ Hq) at 1. done.
  - unfold erase. cbn [_mThreadScopedQueues]. apply lookup_delete_eq.
  - intros t Ht. unfold erase. cbn [_mThreadScopedQueues]. by apply lookup_delete_ne.
  - done.
Qed.

Lemma erase_drops_residual_witness :
  ∃ lg q,
    (_mThreadScopedQueues lg !! 1%nat = Some q ∧ SPSC.IsEmpty q = false) ∧
    outstanding lg ≡ₚ SPSC.contents kQueueSize q ++ outstanding (erase lg 1) ∧
    _mThreadScopedQueues (erase lg 1) !! 1%nat = None ∧
    (∀ t, t ≠ 1%nat →
       _mThreadScopedQueues (erase lg 1) !! t = _mThreadScopedQueues lg !! t) ∧
    _mFileStream (erase lg 1) = _mFileStream lg ∧
    _mLogLevel (erase lg 1) = _mLogLevel lg.
Proof.
  destruct one_message_logged as (lg & q & _ & _ & Hq & Hne).
  exists lg, q. split; [done|].
  exact (erase_drops_residual lg 1 q Hq).
Defined.

(** X18. The queue of a thread is created once in the whole program.  A
    call of [GetThreadScopedMessageQueue] by a thread that has its
    thread-local queue returns that queue, whatever manager is passed, and
    registers nothing: the program is as it was.  A call by a thread that has
    none builds an empty queue, registers it under the thread with the
    manager passed and with no other, and leaves the queues of the other
    threads alone; erasing the queue just registered gives back the logger as
    it was.  After either, every later call of the thread, with any manager,
    returns the same queue and changes nothing. *)
Theorem thread_queue_created_once (w : World) (manager thread : nat) :
  let r := GetThreadScopedMessageQueue w manager thread in
  sThreadScopedQueue r.1 !! thread = Some r.2 ∧
  (∀ manager', GetThreadScopedMessageQueue r.1 manager' thread = r) ∧
  (∀ t, t ≠ thread → sThreadScopedQueue r.1 !! t = sThreadScopedQueue w !! t) ∧
  (∀ owner, sThreadScopedQueue w !! thread = Some owner → r = (w, owner)) ∧
  (sThreadScopedQueue w !! thread = None →
   r.2 = manager ∧
   (∀ k, k ≠ manager → loggers r.1 !! k = loggers w !! k) ∧
   ∀ lg, loggers w !! manager = Some lg →
     ∃ lg1 q,
       loggers r.1 !! manager = Some lg1 ∧
       _mThreadScopedQueues lg1 !! thread = Some q ∧
       SPSC.IsEmpty q = true ∧
       (∀ t, t ≠ thread →
          _mThreadScopedQueues lg1 !! t = _mThreadScopedQueues lg !! t) ∧
       _mLogLevel lg1 = _mLogLevel lg ∧ _mFileStream lg1 = _mFileStream lg ∧
       (_mThreadScopedQueues lg !! thread = None → erase lg1 thread = lg)).
Proof.
  intros r. unfold r, GetThreadScopedMessageQueue.
  destruct (sThreadScopedQueue w !! thread) as [owner|] eqn:E; cbn [fst snd].
  - split; [done|]. split; [intros manager'; by rewrite E|]. split; [done|].
    split; [by intros owner' [= <-]|]. done.
  - cbn [loggers sThreadScopedQueue]. rewrite lookup_insert_eq.
    split; [done|]. split; [done|]. split.
    { intros t Ht. by rewrite lookup_insert_ne. }
    split; [done|]. intros _. split; [done|]. split.
    { intros k Hk. by rewrite lookup_alter_ne. }
    intros lg Hlg.
    exists (RegisterScopedQueue lg thread
              (SPSC.init (replicate (Z.to_nat kQueueSize) zero_message))),
           (SPSC.init (replicate (Z.to_nat kQueueSize) zero_message)).
    rewrite lookup_alter_eq, Hlg. split; [done|].
    unfold RegisterScopedQueue. cbn [_mThreadScopedQueues _mLogLevel _mFileStream].
    rewrite lookup_insert_eq. split; [done|]. split; [done|]. split.
    { intros t Ht. by rewrite lookup_insert_ne. }
    split; [done|]. split; [done|]. intros Hnone.
    unfold erase. cbn [_mLogLevel _mFileStream _mThreadScopedQueues].
    rewrite delete_insert_id by done. by destruct lg.
Qed.

Lemma GetThreadScopedMessageQueue_wf (w : World) (manager thread : nat) :
  world_wf w → world_wf (GetThreadScopedMessageQueue w manager thread).1.
Proof.
  intros Hw. unfold GetThreadScopedMessageQueue.
  destruct (sThreadScopedQueue w !! thread) as [owner|]; [done|].
  cbn [fst]. intros k lg. cbn [loggers]. rewrite lookup_alter.
  case_decide as Ek; [subst k|apply Hw].
  intros Hx. apply fmap_Some in Hx as (lg0 & E & ->). intros t q.
  unfold RegisterScopedQueue. cbn [_mThreadScopedQueues]. rewrite lookup_insert.
  case_decide; [|apply (Hw manager lg0 E)].
  intros Hq. apply (inj Some) in Hq. subst q. split.
  - rewrite kQueueSize_pow. apply (wf_init 10 k10). by rewrite length_replicate.
  - cbn [SPSC.init SPSC._mDataBuffer]. apply Forall_replicate. reflexivity.
Qed.

Lemma Log_at_wf (w : World) (logger thread : nat) f lvl args w' sp :
  world_wf w →
  (length (payload_stream lvl args) ≤ kDataBufferSize)%nat →
  Log_at w logger thread f lvl args = Some (w', sp) →
  world_wf w' ∧ sp = [].
Proof.
  intros Hw Hfit. unfold Log_at.
  destruct (loggers w !! logger) as [lg|]; [|done]. cbn [mbind option_bind].
  destruct (LogLevel_ge lvl (_mLogLevel lg)); [|by intros [= <- <-]].
  pose proof (GetThreadScopedMessageQueue_wf w logger thread Hw) as Hw1.
  destruct (GetThreadScopedMessageQueue w logger thread) as [w1 owner]. cbn [fst] in Hw1.
  destruct (loggers w1 !! owner) as [olg|] eqn:Eo; [|done]. cbn [mbind option_bind].
  destruct (_mThreadScopedQueues olg !! thread) as [q|] eqn:Eq; [|done].
  cbn [mbind option_bind].
  destruct (Hw1 owner olg Eo thread q Eq) as [Hq Hs].
  assert (Hslot : length (_mDataBuffer
                    (default zero_message
                       (SPSC._mDataBuffer q !! Z.to_nat (SPSC._mTail q)))) =
                  kDataBufferSize).
  { destruct (SPSC._mDataBuffer q !! Z.to_nat (SPSC._mTail q)) as [m|] eqn:E; [|done].
    exact (Forall_lookup_1 _ _ _ _ Hs E). }
  rewrite (proj2 (construct_spilled_nil _ f lvl args)) by (rewrite Hslot; exact Hfit).
  destruct (SPSC.Enqueue kQueueSize q _) as [q'|] eqn:EE; [|done].
  cbn [mbind option_bind]. rewrite behind_nil. cbn [mbind option_bind].
  intros [= <- <-]. split; [|done].
  intros k lg0. cbn [loggers]. rewrite lookup_insert.
  case_decide; [|apply Hw1]. intros [= <-]. intros t q0.
  cbn [_mThreadScopedQueues]. rewrite lookup_insert.
  case_decide; [|apply (Hw1 owner olg Eo)]. intros [= <-]. split.
  - rewrite kQueueSize_pow in *. by eapply (Enqueue_wf 10 k10 q).
  - unfold SPSC.Enqueue in EE. destruct (_ =? _); [done|]. injection EE as <-.
    cbn [SPSC._mDataBuffer]. apply Forall_alter; [done|].
    intros m _ Hm. unfold LogMessage_new. cbn [_mDataBuffer].
    by rewrite length_construct.
Qed.

(** X19. The order of the two indices and the size of every message's
    storage, which [Log] and the drain rely on, are kept for every logger of
    a program by every operation whose stores stay inside the buffers:
    creating a thread's queue, a log call whose payload fits in the buffer
    (which stores nothing outside it), setting a threshold, a drain pass
    (also one that meets a message it cannot decode), and erasing a queue. *)
Theorem logger_operations_keep_wf `{Iostream} (w : World) :
  world_wf w →
  (∀ manager thread, world_wf (GetThreadScopedMessageQueue w manager thread).1) ∧
  (∀ logger thread f lvl args w' sp,
     (length (payload_stream lvl args) ≤ kDataBufferSize)%nat →
     Log_at w logger thread f lvl args = Some (w', sp) →
     world_wf w' ∧ sp = []) ∧
  (∀ k lg, loggers w !! k = Some lg →
     (∀ l, logger_wf (SetLogLevel lg l)) ∧
     (∀ clock lg', ConsumeAndWriteLogs clock lg = Some lg' →
        logger_wf lg' ∧ _mLogLevel lg' = _mLogLevel lg) ∧
     (∀ thread, logger_wf (erase lg thread))).
Proof.
  intros Hw. split; [|split].
  - intros manager thread. by apply GetThreadScopedMessageQueue_wf.
  - intros logger thread f lvl args w' sp Hfit HL. by eapply Log_at_wf.
  - intros k lg Hlg. pose proof (Hw k lg Hlg) as Hwf. split; [|split].
    + intros l. exact Hwf.
    + intros clock lg' HC. unfold ConsumeAndWriteLogs, ForEachQueue in HC.
      destruct (foldl _ _ _) as [[lg1 tick1]|] eqn:EF; [|done].
      injection HC as <-.
      apply (ForEachQueue_fold_wf clock (map_to_list (_mThreadScopedQueues lg))
               lg 0 lg1 tick1 Hwf); [|exact EF].
      intros thread q Hin. apply elem_of_map_to_list in Hin. by apply (Hwf thread).
    + intros thread t q. unfold erase. cbn [_mThreadScopedQueues].
      intros Hq. apply lookup_delete_Some in Hq as [_ Hq]. by apply (Hwf t).
Qed.

Lemma logger_operations_keep_wf_witness :
  let ios := {| ostream_float := λ _, str "1.5"; ostream_double := λ _, str "2.5" |} in
  let w := (GetThreadScopedMessageQueue (alone FastLogger_new) 0 3).1 in
  world_wf w ∧
  (∃ q, (loggers w !! O) ≫= (λ lg, _mThreadScopedQueues lg !! 3%nat) = Some q) ∧
  (∀ manager thread, world_wf (GetThreadScopedMessageQueue w manager thread).1) ∧
  (∀ logger thread f lvl args w' sp,
     (length (payload_stream lvl args) ≤ kDataBufferSize)%nat →
     Log_at w logger thread f lvl args = Some (w', sp) →
     world_wf w' ∧ sp = []) ∧
  (∀ k lg, loggers w !! k = Some lg →
     (∀ l, logger_wf (SetLogLevel lg l)) ∧
     (∀ clock lg', ConsumeAndWriteLogs clock lg = Some lg' →
        logger_wf lg' ∧ _mLogLevel lg' = _mLogLevel lg) ∧
     (∀ thread, logger_wf (erase lg thread))).
Proof.
  intros ios w.
  assert (Hw0 : world_wf (alone FastLogger_new)).
  { intros k lg. unfold alone. cbn [loggers]. intros Hk.
    apply lookup_singleton_Some in Hk as [_ <-]. exact FastLogger_new_wf. }
  assert (Hw : world_wf w) by by apply GetThreadScopedMessageQueue_wf.
  split; [exact Hw|]. split.
  { eexists. unfold w, GetThreadScopedMessageQueue, alone.
    cbn [sThreadScopedQueue loggers FastLogger_new _mThreadScopedQueues].
    rewrite fmap_empty, lookup_empty. cbn [fst loggers].
    rewrite lookup_alter_eq, lookup_singleton_eq.
    cbn [fmap option_fmap option_map mbind option_bind RegisterScopedQueue
         _mThreadScopedQueues].
    apply lookup_insert_eq. }
  exact (logger_operations_keep_wf w Hw).
Defined.

(** * Properties of the singleton and of the manager *)

Section SingletonProps.
Context {Sig Args T : Type} `{EqDecision Sig}.
Variable ctor : Sig → Args → T.

Lemma getInstance_calls_lookup (calls : list (Sig * Args)) :
  ∀ (statics : Sig → option T) (i : nat) (sig : Sig) (args : Args),
  calls !! i = Some (sig, args) →
  match statics sig with
  | Some Instance => getInstance_calls ctor statics calls !! i = Some Instance
  | None =>
      ∃ j args0, (j ≤ i)%nat ∧ calls !! j = Some (sig, args0) ∧
        (∀ k c, (k < j)%nat → calls !! k = Some c → c.1 ≠ sig) ∧
        getInstance_calls ctor statics calls !! i = Some (ctor sig args0)
  end.
Proof.
  induction calls as [|[s a] calls IH]; intros statics i sig args Hi; [done|].
  cbn [getInstance_calls]. unfold getInstance.
  destruct i as [|i].
  - injection Hi as -> ->. destruct (statics sig) as [v|] eqn:E; [done|].
    exists O, args. split; [lia|]. split; [done|]. split; [|done].
    intros k c Hk. lia.
  - cbn [lookup list_lookup] in Hi.
    destruct (statics s) as [v0|] eqn:Es.
    + specialize (IH statics i sig args Hi).
      destruct (statics sig) as [v|] eqn:E; [exact IH|].
      destruct IH as (j & args0 & Hj & Hc & Hfirst & Hr).
      exists (S j), args0. split; [lia|]. split; [done|]. split; [|done].
      intros [|k] c Hk Hkc.
      * injection Hkc as <-. cbn. intros ->. congruence.
      * apply (Hfirst k c); [lia|done].
    + specialize (IH (λ s0, if decide (s0 = s) then Some (ctor s a) else statics s0)
                    i sig args Hi).
      cbn beta in IH. destruct (decide (sig = s)) as [->|Hne].
      * rewrite Es. exists O, a. split; [lia|]. split; [done|]. split; [|exact IH].
        intros k c Hk. lia.
      * destruct (statics sig) as [v|] eqn:E; [exact IH|].
        destruct IH as (j & args0 & Hj & Hc & Hfirst & Hr).
        exists (S j), args0. split; [lia|]. split; [done|]. split; [|done].
        intros [|k] c Hk Hkc.
        -- injection Hkc as <-. cbn. congruence.
        -- apply (Hfirst k c); [lia|done].
Qed.
End SingletonProps.

(** X20. In a program that calls [getInstance], every call returns the
    object constructed by the first call made with the same pack of argument
    types, from the arguments of that first call: the arguments of every later
    call are ignored.  Calls with another pack of argument types do not count
    as earlier calls: they have an instance of their own. *)
Theorem getInstance_first_call {Sig Args T : Type} `{EqDecision Sig}
    (ctor : Sig → Args → T) (calls : list (Sig * Args)) (i : nat)
    (sig : Sig) (args : Args) :
  calls !! i = Some (sig, args) →
  ∃ j args0, (j ≤ i)%nat ∧ calls !! j = Some (sig, args0) ∧
    (∀ k c, (k < j)%nat → calls !! k = Some c → c.1 ≠ sig) ∧
    getInstance_calls ctor (λ _, None) calls !! i = Some (ctor sig args0).
Proof.
  intros Hi. exact (getInstance_calls_lookup ctor calls (λ _, None) i sig args Hi).
Qed.

Lemma getInstance_first_call_witness :
  let ctor := λ (sig : nat) (logsDir : string), (sig, logsDir) in
  let calls := [(5%nat, "logs"%string); (6%nat, "other"%string); (5%nat, "trace"%string)] in
  calls !! 2%nat = Some (5%nat, "trace"%string) ∧
  getInstance_calls ctor (λ _, None) calls =
    [(5%nat, "logs"%string); (6%nat, "other"%string); (5%nat, "logs"%string)] ∧
  ∃ j args0, (j ≤ 2)%nat ∧ calls !! j = Some (5%nat, args0) ∧
    (∀ k c, (k < j)%nat → calls !! k = Some c → c.1 ≠ 5%nat) ∧
    getInstance_calls ctor (λ _, None) calls !! 2%nat = Some (ctor 5%nat args0).
Proof.
  intros ctor calls.
  assert (Hi : calls !! 2%nat = Some (5%nat, "trace"%string)) by reflexivity.
  split; [done|]. split; [reflexivity|].
  exact (getInstance_first_call ctor calls 2 5%nat "trace"%string Hi).
Defined.

Lemma digits_value_year y : 1000 ≤ y ≤ 9999 → digits_value (decimal y) = y.
Proof.
  intros Hy.
  assert (Hall : forallb (λ y, digits_value (decimal y) =? y) (seqZ 1000 9000) = true)
    by (vm_compute; reflexivity).
  rewrite forallb_forall in Hall. apply Z.eqb_eq, Hall.
  apply list_elem_of_In, elem_of_seqZ. lia.
Qed.

Lemma digits_value_two_digits z : 0 ≤ z ≤ 99 → digits_value (two_digits z) = z.
Proof.
  intros Hz.
  assert (Hall : forallb (λ z, digits_value (two_digits z) =? z) (seqZ 0 100) = true)
    by (vm_compute; reflexivity).
  rewrite forallb_forall in Hall. apply Z.eqb_eq, Hall.
  apply list_elem_of_In, elem_of_seqZ. lia.
Qed.

Lemma put_date_inj t1 t2 :
  tm_ok t1 → tm_ok t2 → put_date t1 = put_date t2 →
  tm_year t1 = tm_year t2 ∧ tm_mon t1 = tm_mon t2 ∧ tm_mday t1 = tm_mday t2.
Proof.
  intros (Hy1 & Hm1 & Hd1 & _) (Hy2 & Hm2 & Hd2 & _). unfold put_date.
  pose proof (digits_value_year _ Hy1) as Vy1.
  pose proof (digits_value_year _ Hy2) as Vy2.
  pose proof (digits_value_two_digits (tm_mon t1 + 1) ltac:(lia)) as Vm1.
  pose proof (digits_value_two_digits (tm_mon t2 + 1) ltac:(lia)) as Vm2.
  pose proof (digits_value_two_digits (tm_mday t1) ltac:(lia)) as Vd1.
  pose proof (digits_value_two_digits (tm_mday t2) ltac:(lia)) as Vd2.
  destruct (digits_4 _ (decimal_year _ Hy1)) as (a1 & b1 & c1 & d1 & Ey1 & _).
  destruct (digits_4 _ (decimal_year _ Hy2)) as (a2 & b2 & c2 & d2 & Ey2 & _).
  destruct (digits_2 _ (two_digits_spec (tm_mon t1 + 1) ltac:(lia))) as (e1 & f1 & Em1 & _).
  destruct (digits_2 _ (two_digits_spec (tm_mon t2 + 1) ltac:(lia))) as (e2 & f2 & Em2 & _).
  destruct (digits_2 _ (two_digits_spec (tm_mday t1) ltac:(lia))) as (g1 & h1 & Ed1 & _).
  destruct (digits_2 _ (two_digits_spec (tm_mday t2) ltac:(lia))) as (g2 & h2 & Ed2 & _).
  rewrite Ey1, Ey2, Em1, Em2, Ed1, Ed2. intros E. cbn in E.
  injection E as -> -> -> -> -> -> -> ->.
  rewrite <- Ey2 in Ey1. rewrite <- Em2 in Em1. rewrite <- Ed2 in Ed1.
  rewrite Ey1 in Vy1. rewrite Em1 in Vm1. rewrite Ed1 in Vd1. lia.
Qed.

Lemma length_put_date t : tm_ok t → length (put_date t) = 10%nat.
Proof.
  intros (Hy & Hm & Hd & _). unfold put_date.
  destruct (digits_4 _ (decimal_year _ Hy)) as (a & b & c & d & -> & _).
  destruct (digits_2 _ (two_digits_spec (tm_mon t + 1) ltac:(lia))) as (e & f & -> & _).
  destruct (digits_2 _ (two_digits_spec (tm_mday t) ltac:(lia))) as (g & h & -> & _).
  reflexivity.
Qed.

(** X21. The path of a log file is the directory of the manager, ["/"], the
    base name, ["_"], the local date as ten characters [YYYY-MM-DD] and
    [".log"].  Under one manager two loggers get the same path exactly when
    they have the same base name and were created on the same day: the time
    of day plays no part, and different base names never collide, whatever
    characters they hold. *)
Theorem log_file_name_unique (mgr : LogManager) (base1 base2 : text) (t1 t2 : tm) :
  tm_ok t1 → tm_ok t2 →
  length (put_date t1) = 10%nat ∧
  (generateLogFileName mgr base1 t1 = generateLogFileName mgr base2 t2 ↔
   base1 = base2 ∧ tm_year t1 = tm_year t2 ∧ tm_mon t1 = tm_mon t2 ∧
   tm_mday t1 = tm_mday t2).
Proof.
  intros Ht1 Ht2. split; [by apply length_put_date|]. split.
  - unfold generateLogFileName. intros E.
    apply app_inv_head in E. apply (app_inv_head (str "/")) in E.
    apply app_inj_2 in E as [Eb Ed].
    2:{ rewrite !length_app, !length_put_date by done. done. }
    split; [done|]. apply (app_inv_head (str "_")) in Ed.
    apply app_inv_tail in Ed. by apply put_date_inj.
  - intros (-> & Ey & Em & Ed). unfold generateLogFileName, put_date.
    by rewrite Ey, Em, Ed.
Qed.

Lemma log_file_name_unique_witness :
  let mgr := {| _logsDir := str "logs"; _mKeepLogging := false; _loggers := [] |} in
  let t1 := {| tm_year := 126; tm_mon := 10; tm_mday := 3;
               tm_hour := 4; tm_min := 5; tm_sec := 6 |} in
  let t2 := {| tm_year := 126; tm_mon := 10; tm_mday := 3;
               tm_hour := 23; tm_min := 59; tm_sec := 60 |} in
  (tm_ok t1 ∧ tm_ok t2) ∧
  generateLogFileName mgr (str "app") t1 = str "logs/app_2026-11-03.log" ∧
  length (put_date t1) = 10%nat ∧
  (generateLogFileName mgr (str "app") t1 = generateLogFileName mgr (str "app") t2 ↔
   str "app" = str "app" ∧ tm_year t1 = tm_year t2 ∧ tm_mon t1 = tm_mon t2 ∧
   tm_mday t1 = tm_mday t2).
Proof.
  intros mgr t1 t2.
  assert (H1 : tm_ok t1) by (unfold tm_ok, t1; simpl; lia).
  assert (H2 : tm_ok t2) by (unfold tm_ok, t2; simpl; lia).
  split; [done|]. split; [reflexivity|].
  exact (log_file_name_unique mgr (str "app") (str "app") t1 t2 H1 H2).
Defined.

Section Manager.
Context `{Iostream}.
Implicit Types (mgr : LogManager) (heap : gmap nat FastLogger) (clock : nat → tm).

(** The [for] loop of [LoggingLoop] over distinct weak pointers. *)
Lemma LoggingLoop_fold clock (ws : list nat) : ∀ heap tick,
  NoDup ws →
  (∀ w lg, w ∈ ws → heap !! w = Some lg → logger_ok lg) →
  ∃ heap' tick',
    foldl (λ acc weakLogger, st ← acc; LoggingLoop_visit clock st weakLogger)
      (Some (heap, tick)) ws = Some (heap', tick') ∧
    (∀ w, w ∉ ws → heap' !! w = heap !! w) ∧
    (∀ w, heap !! w = None → heap' !! w = None) ∧
    (∀ w lg, w ∈ ws → heap !! w = Some lg →
       ∃ t lg', ConsumeAndWriteLogs (λ k, clock (t + k)%nat) lg = Some lg' ∧
                heap' !! w = Some lg').
Proof.
  induction ws as [|w ws IH]; intros heap tick Hnd Hok.
  - exists heap, tick. split; [done|]. split; [done|]. split; [done|].
    intros w lg Hw. by apply elem_of_nil in Hw.
  - apply NoDup_cons in Hnd as [Hw Hnd].
    cbn [foldl mbind option_bind LoggingLoop_visit].
    destruct (heap !! w) as [lg|] eqn:E.
    + destruct (ConsumeAndWriteLogs_spec (λ k, clock (tick + k)%nat) lg)
        as (calls & _ & HC); [apply (Hok w); [left|done]|].
      rewrite HC. cbn [mbind option_bind].
      set (lg' := {| _mLogLevel := _mLogLevel lg;
                     _mFileStream := _mFileStream lg ++
                       spec_lines (λ k, clock (tick + k)%nat) 0 calls;
                     _mThreadScopedQueues := drained <$> _mThreadScopedQueues lg |}) in *.
      destruct (IH (<[w := lg']> heap) (tick + length (outstanding lg))%nat Hnd)
        as (heap' & tick' & HF & Hout & Hnone & Hin).
      { intros w0 lg0 Hw0. rewrite lookup_insert_ne by (intros ->; done).
        apply Hok. by right. }
      exists heap', tick'. split; [exact HF|]. split; [|split].
      * intros w0 Hw0. apply not_elem_of_cons in Hw0 as [Hne Hw0].
        rewrite (Hout w0 Hw0). by rewrite lookup_insert_ne.
      * intros w0 Hw0. apply Hnone. rewrite lookup_insert_ne; [done|].
        intros ->. congruence.
      * intros w0 lg0 Hw0 Hlg0. apply elem_of_cons in Hw0 as [->|Hw0].
        -- exists tick, lg'. rewrite E in Hlg0. injection Hlg0 as <-.
           split; [exact HC|]. rewrite (Hout w Hw). apply lookup_insert_eq.
        -- apply Hin; [done|]. rewrite lookup_insert_ne; [done|]. intros ->. done.
    + destruct (IH heap tick Hnd) as (heap' & tick' & HF & Hout & Hnone & Hin).
      { intros w0 lg0 Hw0. apply Hok. by right. }
      exists heap', tick'. split; [exact HF|]. split; [|split].
      * intros w0 Hw0. apply not_elem_of_cons in Hw0 as [Hne Hw0]. by apply Hout.
      * done.
      * intros w0 lg0 Hw0 Hlg0. apply elem_of_cons in Hw0 as [->|Hw0]; [congruence|].
        by apply Hin.
Qed.

(** One round of [LoggingLoop]. *)
Lemma LoggingLoop_body_spec clock mgr heap :
  NoDup (_loggers mgr) →
  (∀ w lg, w ∈ _loggers mgr → heap !! w = Some lg → logger_ok lg) →
  ∃ mgr' heap',
    LoggingLoop_body clock mgr heap = Some (mgr', heap') ∧
    _loggers mgr' = filter (λ w, is_Some (heap !! w)) (_loggers mgr) ∧
    (∀ w, w ∉ _loggers mgr → heap' !! w = heap !! w) ∧
    (∀ w, heap !! w = None → heap' !! w = None) ∧
    (∀ w lg, w ∈ _loggers mgr → heap !! w = Some lg →
       ∃ t lg', ConsumeAndWriteLogs (λ k, clock (t + k)%nat) lg = Some lg' ∧
                heap' !! w = Some lg').
Proof.
  intros Hnd Hok.
  destruct (LoggingLoop_fold clock (_loggers mgr) heap 0 Hnd Hok)
    as (heap' & tick' & HF & Hout & Hnone & Hin).
  eexists _, heap'. split.
  { unfold LoggingLoop_body. rewrite HF. cbn [mbind option_bind]. done. }
  cbn [_loggers]. split; [|done].
  apply list_filter_iff. intros w. split.
  - intros [lg' Hlg']. destruct (heap !! w) as [lg|] eqn:E; [done|].
    rewrite (Hnone w E) in Hlg'. done.
  - intros [lg Hlg]. destruct (decide (w ∈ _loggers mgr)) as [Hw|Hw].
    + destruct (Hin w lg Hw Hlg) as (t & lg' & _ & ->). done.
    + rewrite (Hout w Hw), Hlg. done.
Qed.

(** A fresh logger after the calls of one thread. *)
Lemma log_all_fresh (thread : nat) (cs : list call) :
  Forall call_ok cs →
  (length (List.filter (accepted INFO) cs) ≤ 1023)%nat →
  ∃ lg, log_all FastLogger_new thread cs = Some lg ∧
        logger_wf lg ∧ logger_ok lg ∧ _mFileStream lg = [] ∧
        Forall2 message_of (outstanding lg) (List.filter (accepted INFO) cs).
Proof.
  intros Hcs Hlen.
  destruct (log_all_spec thread cs FastLogger_new [] FastLogger_new_wf
              FastLogger_new_ok Hcs) as (lg & HA & Hwf & Hok & Hlv & Hfs & Hqs & Hms).
  { unfold scoped_queue. cbn [FastLogger_new _mThreadScopedQueues].
    rewrite lookup_empty. cbn [snd]. rewrite contents_fresh. constructor. }
  { exact Hlen. }
  cbn [app FastLogger_new _mLogLevel] in Hms.
  rewrite <- (outstanding_one_thread lg thread) in Hms.
  2:{ intros t Ht. rewrite (Hqs t Ht). apply lookup_empty. }
  exists lg. done.
Qed.
End Manager.

(** X22. One round of [LoggingLoop], the registered loggers being distinct
    and their outstanding messages constructed by well-formed calls: the round
    returns; every registered logger that is alive gets exactly one drain
    pass and is left with nothing outstanding; the weak pointers kept are
    those of the loggers alive, in their order; a logger the manager did not
    create is not touched, and no logger appears or disappears. *)
Theorem logging_round `{Iostream} (clock : nat → tm) (mgr : LogManager)
    (heap : gmap nat FastLogger) :
  NoDup (_loggers mgr) →
  (∀ w lg, w ∈ _loggers mgr → heap !! w = Some lg → logger_ok lg) →
  ∃ mgr' heap',
    LoggingLoop_body clock mgr heap = Some (mgr', heap') ∧
    _loggers mgr' = filter (λ w, is_Some (heap !! w)) (_loggers mgr) ∧
    NoDup (_loggers mgr') ∧
    _logsDir mgr' = _logsDir mgr ∧ _mKeepLogging mgr' = _mKeepLogging mgr ∧
    (∀ w, w ∉ _loggers mgr → heap' !! w = heap !! w) ∧
    (∀ w, heap !! w = None → heap' !! w = None) ∧
    (∀ w lg, w ∈ _loggers mgr → heap !! w = Some lg →
       ∃ t lg', ConsumeAndWriteLogs (λ k, clock (t + k)%nat) lg = Some lg' ∧
                heap' !! w = Some lg' ∧ outstanding lg' = []).
Proof.
  intros Hnd Hok.
  destruct (LoggingLoop_body_spec clock mgr heap Hnd Hok)
    as (mgr' & heap' & HB & Hl & Hout & Hnone & Hin).
  exists mgr', heap'. split; [exact HB|]. split; [exact Hl|]. split.
  { rewrite Hl. by apply NoDup_filter. }
  unfold LoggingLoop_body in HB. destruct (foldl _ _ _) as [[hp tk]|]; [|done].
  injection HB as <- _. split; [done|]. split; [done|]. split; [done|]. split; [done|].
  intros w lg Hw Hlg. destruct (Hin w lg Hw Hlg) as (t & lg' & HC & Hlg').
  exists t, lg'. split; [done|]. split; [done|].
  destruct (ConsumeAndWriteLogs_spec (λ k, clock (t + k)%nat) lg (Hok w lg Hw Hlg))
    as (calls & _ & HC'). rewrite HC' in HC. injection HC as <-.
  by apply (outstanding_drained lg).
Qed.

Lemma logging_round_witness :
  let ios := {| ostream_float := λ _, str "1.5"; ostream_double := λ _, str "2.5" |} in
  let clock := λ n : nat,
    {| tm_year := 126; tm_mon := 10; tm_mday := 3;
       tm_hour := 4; tm_min := 5; tm_sec := 6 |} in
  let mgr := {| _logsDir := str "logs"; _mKeepLogging := true;
                _loggers := [2%nat; 5%nat] |} in
  ∃ lg q,
    let heap : gmap nat FastLogger := <[5%nat := lg]> (<[9%nat := lg]> ∅) in
    (_mThreadScopedQueues lg !! 1%nat = Some q ∧ SPSC.IsEmpty q = false) ∧
    (NoDup (_loggers mgr) ∧
     ∀ w lg, w ∈ _loggers mgr → heap !! w = Some lg → logger_ok lg) ∧
    ∃ mgr' heap',
      LoggingLoop_body clock mgr heap = Some (mgr', heap') ∧
      _loggers mgr' = filter (λ w, is_Some (heap !! w)) (_loggers mgr) ∧
      NoDup (_loggers mgr') ∧
      _logsDir mgr' = _logsDir mgr ∧ _mKeepLogging mgr' = _mKeepLogging mgr ∧
      (∀ w, w ∉ _loggers mgr → heap' !! w = heap !! w) ∧
      (∀ w, heap !! w = None → heap' !! w = None) ∧
      (∀ w lg, w ∈ _loggers mgr → heap !! w = Some lg →
         ∃ t lg', ConsumeAndWriteLogs (λ k, clock (t + k)%nat) lg = Some lg' ∧
                  heap' !! w = Some lg' ∧ outstanding lg' = []).
Proof.
  intros ios clock mgr.
  destruct one_message_logged as (lg & q & _ & Hok & Hq & Hne).
  exists lg, q. intros heap. split; [done|].
  assert (Hnd : NoDup (_loggers mgr)).
  { cbn [mgr _loggers]. apply NoDup_cons. split.
    - intros Hin. apply elem_of_cons in Hin as [E|Hin]; [discriminate E|].
      by apply elem_of_nil in Hin.
    - apply NoDup_singleton. }
  assert (Hall : ∀ w lg0, w ∈ _loggers mgr → heap !! w = Some lg0 → logger_ok lg0).
  { intros w lg0 _. unfold heap. rewrite lookup_insert. case_decide.
    - by intros [= <-].
    - rewrite lookup_insert. case_decide; [by intros [= <-]|].
      by rewrite lookup_empty. }
  split; [done|].
  exact (logging_round clock mgr heap Hnd Hall).
Defined.

(** X23. A logger made by [CreateLogger] is one no pointer of the manager or
    of the heap referred to, starts as a fresh logger, and is registered last;
    the registrations stay distinct.  When one thread that has logged to no
    other logger then makes well-formed log calls on it, of which at most
    1023 are at level [INFO] or above, the next round of [LoggingLoop]
    returns and leaves in the logger's file exactly the lines of those calls,
    in order, with nothing outstanding, and keeps the logger registered. *)
Theorem created_logger_is_drained `{Iostream} (clock : nat → tm) (mgr : LogManager)
    (heap : gmap nat FastLogger) (baseFileName : text) (now_tm : tm)
    (thread : nat) (cs : list call) :
  NoDup (_loggers mgr) →
  (∀ w lg, w ∈ _loggers mgr → heap !! w = Some lg → logger_ok lg) →
  Forall call_ok cs →
  (length (List.filter (accepted INFO) cs) ≤ 1023)%nat →
  let r := CreateLogger mgr heap baseFileName now_tm in
  let logger := r.1.1.1 in
  let mgr1 := r.1.2 in
  let heap1 := r.2 in
  (logger ∉ _loggers mgr) ∧ heap !! logger = None ∧
  heap1 !! logger = Some FastLogger_new ∧
  _loggers mgr1 = _loggers mgr ++ [logger] ∧ NoDup (_loggers mgr1) ∧
  ∃ lg mgr2 heap2 lg' tick,
    log_all FastLogger_new thread cs = Some lg ∧
    LoggingLoop_body clock mgr1 (<[logger := lg]> heap1) = Some (mgr2, heap2) ∧
    heap2 !! logger = Some lg' ∧
    _mFileStream lg' =
      spec_lines (λ k, clock (tick + k)%nat) 0 (List.filter (accepted INFO) cs) ∧
    outstanding lg' = [] ∧
    logger ∈ _loggers mgr2.
Proof.
  intros Hnd Hok Hcs Hlen r logger mgr1 heap1.
  assert (Hfresh : logger ∉ (dom heap ∪ list_to_set (_loggers mgr) : gset nat))
    by apply is_fresh.
  assert (Hnew : logger ∉ _loggers mgr).
  { intros Hin. apply Hfresh. apply elem_of_union_r. by apply elem_of_list_to_set. }
  assert (Hnone : heap !! logger = None).
  { apply not_elem_of_dom. intros Hin. apply Hfresh. by apply elem_of_union_l. }
  assert (Hnd1 : NoDup (_loggers mgr1)).
  { unfold mgr1, r, CreateLogger. cbn [fst snd _loggers]. apply NoDup_app.
    split; [done|]. split; [|apply NoDup_singleton].
    intros w Hw Hw'. apply elem_of_cons in Hw' as [->|Hw']; [done|].
    by apply elem_of_nil in Hw'. }
  split; [done|]. split; [done|]. split.
  { unfold heap1, r, CreateLogger. cbn [fst snd]. apply lookup_insert_eq. }
  split; [done|]. split; [done|].
  destruct (log_all_fresh thread cs Hcs Hlen) as (lg & HA & Hwf & Hlok & Hfs & Hms).
  destruct (LoggingLoop_body_spec clock mgr1 (<[logger := lg]> heap1) Hnd1)
    as (mgr2 & heap2 & HB & Hl & _ & _ & Hin).
  { intros w lg0 Hw. rewrite lookup_insert. case_decide; [by intros [= <-]|].
    unfold heap1, r, CreateLogger. cbn [fst snd]. rewrite lookup_insert_ne by done.
    apply Hok. unfold mgr1, r, CreateLogger in Hw. cbn [fst snd _loggers] in Hw.
    apply elem_of_app in Hw as [Hw|Hw]; [done|].
    apply elem_of_cons in Hw as [->|Hw]; [done|]. by apply elem_of_nil in Hw. }
  assert (Hreg : logger ∈ _loggers mgr1).
  { unfold mgr1, r, CreateLogger. cbn [fst snd _loggers].
    apply elem_of_app. right. left. }
  destruct (Hin logger lg Hreg) as (tick & lg' & HC & Hlg'); [apply lookup_insert_eq|].
  exists lg, mgr2, heap2, lg', tick. split; [exact HA|]. split; [exact HB|].
  split; [exact Hlg'|].
  rewrite (ConsumeAndWriteLogs_calls _ lg _ Hwf Hms) in HC. injection HC as <-.
  cbn [_mFileStream]. rewrite Hfs. split; [done|]. split.
  - by apply (outstanding_drained lg).
  - rewrite Hl. apply list_elem_of_filter. split; [|done].
    rewrite lookup_insert_eq. done.
Qed.

Lemma created_logger_is_drained_witness :
  let ios := {| ostream_float := λ _, str "1.5"; ostream_double := λ _, str "2.5" |} in
  let clock := λ n : nat,
    {| tm_year := 126; tm_mon := 10; tm_mday := 3;
       tm_hour := 4; tm_min := 5; tm_sec := Z.of_nat n |} in
  let mgr := {| _logsDir := str "logs"; _mKeepLogging := true; _loggers := [] |} in
  let heap : gmap nat FastLogger := ∅ in
  let c1 := {| call_function := str "void f()"; call_format := str "a {}";
               call_level := ERROR; call_args := [AInt true W32 1] |} in
  let c2 := {| call_function := str "void f()"; call_format := str "b";
               call_level := DEBUG; call_args := [] |} in
  let cs := [c1; c2] in
  let r := CreateLogger mgr heap (str "app") (clock O) in
  let logger := r.1.1.1 in
  let mgr1 := r.1.2 in
  let heap1 := r.2 in
  (NoDup (_loggers mgr) ∧
   (∀ w lg, w ∈ _loggers mgr → heap !! w = Some lg → logger_ok lg) ∧
   Forall call_ok cs ∧
   (length (List.filter (accepted INFO) cs) ≤ 1023)%nat) ∧
  List.filter (accepted INFO) cs = [c1] ∧
  (logger ∉ _loggers mgr) ∧ heap !! logger = None ∧
  heap1 !! logger = Some FastLogger_new ∧
  _loggers mgr1 = _loggers mgr ++ [logger] ∧ NoDup (_loggers mgr1) ∧
  ∃ lg mgr2 heap2 lg' tick,
    log_all FastLogger_new 1 cs = Some lg ∧
    LoggingLoop_body clock mgr1 (<[logger := lg]> heap1) = Some (mgr2, heap2) ∧
    heap2 !! logger = Some lg' ∧
    _mFileStream lg' =
      spec_lines (λ k, clock (tick + k)%nat) 0 (List.filter (accepted INFO) cs) ∧
    outstanding lg' = [] ∧
    logger ∈ _loggers mgr2.
Proof.
  intros ios clock mgr heap c1 c2 cs r logger mgr1 heap1.
  assert (Hnul : ∀ s : string, forallb (λ a, negb (Ascii.eqb a NUL)) (str s) = true →
                               NUL ∉ str s).
  { intros s Hs Hin. rewrite forallb_forall in Hs.
    apply list_elem_of_In, Hs in Hin. by rewrite Ascii.eqb_refl in Hin. }
  assert (Hnd : NoDup (_loggers mgr)) by apply NoDup_nil_2.
  assert (Hall : ∀ w lg0, w ∈ _loggers mgr → heap !! w = Some lg0 → logger_ok lg0).
  { intros w lg0 Hw. by apply elem_of_nil in Hw. }
  assert (Hcs : Forall call_ok cs).
  { repeat constructor; try (by apply Hnul); try (vm_compute; lia);
      try (vm_compute; congruence). }
  assert (Hlen : (length (List.filter (accepted INFO) cs) ≤ 1023)%nat)
    by (vm_compute; lia).
  split; [done|]. split; [reflexivity|].
  exact (created_logger_is_drained clock mgr heap (str "app") (clock O) 1 cs
           Hnd Hall Hcs Hlen).
Defined.

(** * Several threads *)

Section Threads.
Context `{Iostream}.

Lemma log_threads_app (cs1 cs2 : list (nat * call)) : ∀ lg,
  log_threads lg (cs1 ++ cs2) = lg' ← log_threads lg cs1; log_threads lg' cs2.
Proof.
  induction cs1 as [|[t c] cs1 IH]; intros lg; [done|].
  cbn [app log_threads].
  destruct (FAST_LOG lg t _ _ _ _) as [[lg1 sp]|]; [|done].
  cbn [mbind option_bind]. apply IH.
Qed.

Lemma calls_of_snoc threshold thread (cs : list (nat * call)) t c :
  calls_of threshold thread (cs ++ [(t, c)]) =
  calls_of threshold thread cs ++
  (if Nat.eqb t thread && accepted threshold c then [c] else []).
Proof.
  unfold calls_of. rewrite List.filter_app, map_app. cbn [List.filter fst snd].
  by destruct (Nat.eqb t thread && accepted threshold c).
Qed.

(** From a fresh logger: the queue of each thread holds the messages of the
    calls of that thread that passed the filter, in order. *)
Lemma log_threads_fresh (threshold : LogLevel) (cs : list (nat * call)) :
  Forall (λ tc, call_ok tc.2) cs →
  (∀ t, (length (calls_of threshold t cs) ≤ 1023)%nat) →
  ∃ lg, log_threads (SetLogLevel FastLogger_new threshold) cs = Some lg ∧
        logger_wf lg ∧ logger_ok lg ∧ _mLogLevel lg = threshold ∧
        _mFileStream lg = [] ∧
        ∀ t, Forall2 message_of
               (SPSC.contents kQueueSize (scoped_queue lg t).2)
               (calls_of threshold t cs).
Proof.
  induction cs as [|[t c] cs IH] using rev_ind; intros Hcs Hlen.
  - exists (SetLogLevel FastLogger_new threshold). split; [done|].
    split; [intros t q Hq; cbn in Hq; by rewrite lookup_empty in Hq|].
    split; [intros t q Hq; cbn in Hq; by rewrite lookup_empty in Hq|].
    split; [done|]. split; [done|]. intros t.
    unfold scoped_queue.
    cbn [SetLogLevel FastLogger_new _mThreadScopedQueues].
    rewrite lookup_empty. cbn [snd]. rewrite contents_fresh. constructor.
  - apply Forall_app in Hcs as [Hcs Hc]. apply Forall_cons_1 in Hc as [Hc _].
    cbn [snd] in Hc.
    destruct IH as (lg & HA & Hwf & Hok & Hlv & Hfs & Hms); [done| |].
    { intros t0. specialize (Hlen t0). rewrite calls_of_snoc, length_app in Hlen. lia. }
    rewrite log_threads_app, HA. cbn [mbind option_bind log_threads].
    destruct (accepted threshold c) eqn:Ea.
    + pose proof Ea as Ea'. unfold accepted, LogLevel_ge in Ea'.
      apply Z.leb_le in Ea'. rewrite <- Hlv in Ea'.
      destruct (scoped_queue_spec lg t Hwf)
        as (lg1 & q & HG & Hq & _).
      assert (Hroom : SPSC.IsFull kQueueSize (scoped_queue lg t).2
                      = false).
      { pose proof (Hms t) as Hmt. rewrite HG in *. cbn [snd] in *.
        apply not_full_of_length; [done|].
        rewrite (Forall2_length _ _ _ Hmt).
        specialize (Hlen t). rewrite calls_of_snoc, length_app, Nat.eqb_refl, Ea in Hlen.
        simpl in Hlen. lia. }
      destruct (Log_enqueue lg t
                  (call_site_formatter (call_function c) (call_format c)
                     (map type_of (call_args c)))
                  (call_level c) (call_args c) Hwf (proj2 (proj2 (proj2 Hc))) Ea' Hroom)
        as (q' & slot & HL & Hslot & _ & _ & Hcont).
      destruct (Log_ok lg t c _ _ Hwf Hok Hc HL) as [Hwf' Hok'].
      unfold FAST_LOG. rewrite HL. cbn [mbind option_bind].
      eexists. split; [done|]. split; [done|]. split; [done|].
      split; [done|]. split; [done|]. intros t0. rewrite calls_of_snoc.
      unfold scoped_queue at 1. cbn [_mThreadScopedQueues].
      destruct (decide (t = t0)) as [<-|Hne].
      * rewrite lookup_insert_eq, Nat.eqb_refl, Ea. cbn [snd andb]. rewrite Hcont.
        apply Forall2_app; [apply Hms|].
        constructor; [|constructor]. split; [done|]. by exists slot.
      * rewrite lookup_insert_ne by done.
        replace (Nat.eqb t t0) with false by (symmetry; by apply Nat.eqb_neq).
        cbn [andb]. rewrite app_nil_r. specialize (Hms t0).
        unfold scoped_queue in Hms.
        by destruct (_mThreadScopedQueues lg !! t0).
    + pose proof Ea as Ea'. unfold accepted, LogLevel_ge in Ea'.
      apply Z.leb_gt in Ea'. rewrite <- Hlv in Ea'.
      unfold FAST_LOG. rewrite Log_below_threshold by lia. cbn [mbind option_bind].
      exists lg. split; [done|]. split; [done|]. split; [done|].
      split; [done|]. split; [done|]. intros t0. rewrite calls_of_snoc, Ea.
      rewrite andb_false_r, app_nil_r. apply Hms.
Qed.

Lemma Forall2_concat_map {A B C} (P : B → C → Prop) (f : A → list B) (g : A → list C)
    (l : list A) :
  (∀ x, x ∈ l → Forall2 P (f x) (g x)) →
  Forall2 P (concat (map f l)) (concat (map g l)).
Proof.
  induction l as [|x l IH]; intros Hl; [constructor|].
  cbn [map concat]. apply Forall2_app; [apply Hl; left|].
  apply IH. intros y Hy. apply Hl. by right.
Qed.
End Threads.

(** X24. Several threads (whose queues are this logger's) make well-formed
    log calls on a fresh logger with threshold [threshold], in any
    interleaving, at most 1023 of each thread passing the filter; then a
    drain pass runs.  Every call returns, the pass returns, and the file
    holds the lines of the calls that passed the filter,
    thread by thread: the threads in some order, each once, and the lines of
    one thread in the order that thread made its calls, not interleaved with
    those of another thread.  A thread that is not visited had no call that
    passed. *)
Theorem threads_log_then_drain `{Iostream} (clock : nat → tm) (threshold : LogLevel)
    (cs : list (nat * call)) :
  Forall (λ tc, call_ok tc.2) cs →
  (∀ t, (length (calls_of threshold t cs) ≤ 1023)%nat) →
  ∃ lg lg' order,
    log_threads (SetLogLevel FastLogger_new threshold) cs = Some lg ∧
    ConsumeAndWriteLogs clock lg = Some lg' ∧
    NoDup order ∧
    (∀ t, t ∉ order → calls_of threshold t cs = []) ∧
    _mFileStream lg' =
      spec_lines clock 0 (concat (map (λ t, calls_of threshold t cs) order)) ∧
    outstanding lg' = [].
Proof.
  intros Hcs Hlen.
  destruct (log_threads_fresh threshold cs Hcs Hlen)
    as (lg & HA & Hwf & Hok & Hlv & Hfs & Hms).
  set (order := (map_to_list (_mThreadScopedQueues lg)).*1).
  assert (Hcalls : Forall2 message_of (outstanding lg)
                     (concat (map (λ t, calls_of threshold t cs) order))).
  { unfold outstanding, order. rewrite <- list_fmap_compose.
    apply Forall2_concat_map. intros [t q] Hin. cbn [compose fst].
    apply elem_of_map_to_list in Hin. specialize (Hms t).
    unfold scoped_queue in Hms. by rewrite Hin in Hms. }
  exists lg. eexists. exists order. split; [exact HA|]. split.
  { apply (ConsumeAndWriteLogs_calls clock lg _ Hwf Hcalls). }
  split; [apply NoDup_fst_map_to_list|]. split.
  { intros t Ht. specialize (Hms t). unfold scoped_queue in Hms.
    destruct (_mThreadScopedQueues lg !! t) as [q|] eqn:E.
    - exfalso. apply Ht. unfold order. apply list_elem_of_fmap.
      exists (t, q). split; [done|]. by apply elem_of_map_to_list.
    - cbn [snd] in Hms. rewrite contents_fresh in Hms.
      by apply Forall2_nil_inv_l in Hms. }
  split.
  - cbn [_mFileStream]. by rewrite Hfs.
  - by apply (outstanding_drained lg).
Qed.

Lemma threads_log_then_drain_witness :
  let ios := {| ostream_float := λ _, str "1.5"; ostream_double := λ _, str "2.5" |} in
  let clock := λ n : nat,
    {| tm_year := 126; tm_mon := 10; tm_mday := 3;
       tm_hour := 4; tm_min := 5; tm_sec := Z.of_nat n |} in
  let c1 := {| call_function := str "void f()"; call_format := str "a {}";
               call_level := ERROR; call_args := [AInt true W32 1] |} in
  let c2 := {| call_function := str "void g()"; call_format := str "b";
               call_level := INFO; call_args := [] |} in
  let c3 := {| call_function := str "void f()"; call_format := str "c {}";
               call_level := FATAL; call_args := [ACStr (str "x")] |} in
  let cs := [(1%nat, c1); (2%nat, c2); (1%nat, c3); (2%nat, c1)] in
  (Forall (λ tc, call_ok tc.2) cs ∧
   ∀ t, (length (calls_of ERROR t cs) ≤ 1023)%nat) ∧
  calls_of ERROR 1 cs = [c1; c3] ∧ calls_of ERROR 2 cs = [c1] ∧
  ∃ lg lg' order,
    log_threads (SetLogLevel FastLogger_new ERROR) cs = Some lg ∧
    ConsumeAndWriteLogs clock lg = Some lg' ∧
    NoDup order ∧
    (∀ t, t ∉ order → calls_of ERROR t cs = []) ∧
    _mFileStream lg' =
      spec_lines clock 0 (concat (map (λ t, calls_of ERROR t cs) order)) ∧
    outstanding lg' = [].
Proof.
  intros ios clock c1 c2 c3 cs.
  assert (Hnul : ∀ s : string, forallb (λ a, negb (Ascii.eqb a NUL)) (str s) = true →
                               NUL ∉ str s).
  { intros s Hs Hin. rewrite forallb_forall in Hs.
    apply list_elem_of_In, Hs in Hin. by rewrite Ascii.eqb_refl in Hin. }
  assert (Hcs : Forall (λ tc, call_ok tc.2) cs).
  { repeat constructor; try (by apply Hnul); try (vm_compute; lia);
      try (vm_compute; congruence). }
  assert (Hlen : ∀ t, (length (calls_of ERROR t cs) ≤ 1023)%nat).
  { intros t. unfold calls_of. rewrite length_map.
    etrans; [apply List.filter_length_le|]. simpl. lia. }
  split; [done|]. split; [reflexivity|]. split; [reflexivity|].
  exact (threads_log_then_drain clock ERROR cs Hcs Hlen).
Defined.

(** X25. [Format], and so [Evaluate], only appends: what the stream holds
    before the call is kept as it is, and what is appended does not depend on
    it; a decoding that fails does so whatever the stream holds. *)
Theorem Format_only_appends `{Iostream} (f : LogFormatter) (Args : list ArgType)
    (buf : list ascii) (__data : nat) (__formatStr __stream : text) :
  Format Args buf __data __formatStr __stream =
    (λ out, __stream ++ out) <$> Format Args buf __data __formatStr [] ∧
  Evaluate f buf __data __stream =
    (λ out, __stream ++ out) <$> Evaluate f buf __data [].
Proof.
  assert (HF : ∀ Args d fmt stream,
             Format Args buf d fmt stream =
             (λ out, stream ++ out) <$> Format Args buf d fmt []).
  { clear. intros Args. induction Args as [|ty Args IH]; intros d fmt stream; [done|].
    cbn [Format]. destruct (strstr_braces fmt) as [p|]; [|done].
    destruct (PrintData ty buf d) as [[txt d']|]; [|done].
    cbn [mbind option_bind app].
    rewrite (IH d' _ (stream ++ take p fmt ++ txt)), (IH d' _ (take p fmt ++ txt)).
    destruct (Format Args buf d' (drop (p + 2) fmt) []) as [out|]; [|done].
    cbn. by rewrite <- app_assoc. }
  split; [apply HF|]. unfold Evaluate. apply HF.
Qed.

(** * Several loggers *)

(** X26. The queue of a thread belongs to the logger the thread logged to
    first.  When a thread that has not logged before makes a well-formed
    call [c1] on a fresh logger [A] and then a well-formed call [c2] on
    another logger [B], each at or above the threshold of its logger, both
    calls return, [B] is left exactly as it was, so that a drain of [B] does
    not write [c2], and the next drain of [A] writes the lines of [c1] and of
    [c2], in this order, into the file of [A], also when the level of [c2]
    is below the threshold of [A]. *)
Theorem thread_queue_stays_with_first_logger `{Iostream} (clock : nat → tm) (w : World)
    (A B thread : nat) (thresholdA : LogLevel) (lgB : FastLogger) (c1 c2 : call) :
  A ≠ B →
  loggers w !! A = Some (SetLogLevel FastLogger_new thresholdA) →
  loggers w !! B = Some lgB →
  sThreadScopedQueue w !! thread = None →
  call_ok c1 → call_ok c2 →
  accepted thresholdA c1 = true →
  accepted (_mLogLevel lgB) c2 = true →
  ∃ w1 sp1 w2 sp2 lgA lgA',
    FAST_LOG_at w A thread c1 = Some (w1, sp1) ∧
    FAST_LOG_at w1 B thread c2 = Some (w2, sp2) ∧
    loggers w2 !! B = Some lgB ∧
    loggers w2 !! A = Some lgA ∧
    _mLogLevel lgA = thresholdA ∧
    ConsumeAndWriteLogs clock lgA = Some lgA' ∧
    _mFileStream lgA' = spec_lines clock 0 [c1; c2] ∧
    outstanding lgA' = [].
Proof.
  intros HAB HA HB Htls Hc1 Hc2 Ha1 Ha2.
  unfold accepted, LogLevel_ge in Ha1, Ha2. apply Z.leb_le in Ha1, Ha2.
  set (lgA0 := SetLogLevel FastLogger_new thresholdA) in *.
  set (q0 := SPSC.init (replicate (Z.to_nat kQueueSize) zero_message)).
  assert (Hq0 : SPSC.wf kQueueSize q0).
  { rewrite kQueueSize_pow. apply (wf_init 10 k10). by rewrite length_replicate. }
  assert (Hs0 : Forall (λ m, length (_mDataBuffer m) = kDataBufferSize)
                  (SPSC._mDataBuffer q0)).
  { cbn [q0 SPSC.init SPSC._mDataBuffer]. apply Forall_replicate. reflexivity. }
  destruct (Log_at_enqueue w A thread A lgA0 lgA0 q0
              (call_site_formatter (call_function c1) (call_format c1)
                 (map type_of (call_args c1)))
              (call_level c1) (call_args c1) HA Ha1)
    as (q1 & slot1 & HL1 & Hslot1 & Hq1 & Hs1 & Hcont1);
    [split; [exact HA|by rewrite Htls]|done|done|exact (proj2 (proj2 (proj2 Hc1)))
    |reflexivity|].
  unfold q0 in Hcont1. rewrite contents_fresh in Hcont1. cbn [app] in Hcont1.
  set (lgA1 := {| _mLogLevel := _mLogLevel lgA0; _mFileStream := _mFileStream lgA0;
                  _mThreadScopedQueues :=
                    <[thread := q1]> (_mThreadScopedQueues lgA0) |}) in *.
  set (w1 := {| loggers := <[A := lgA1]> (loggers w);
                sThreadScopedQueue := <[thread := A]> (sThreadScopedQueue w) |}) in *.
  assert (Hq1' : calling_thread_queue w1 B thread A lgA1 q1).
  { split; [apply lookup_insert_eq|]. unfold w1. cbn [sThreadScopedQueue].
    rewrite lookup_insert_eq. split; [done|]. apply lookup_insert_eq. }
  destruct (Log_at_enqueue w1 B thread A lgB lgA1 q1
              (call_site_formatter (call_function c2) (call_format c2)
                 (map type_of (call_args c2)))
              (call_level c2) (call_args c2))
    as (q2 & slot2 & HL2 & Hslot2 & Hq2 & Hs2 & Hcont2).
  { unfold w1. cbn [loggers]. by rewrite lookup_insert_ne. }
  { done. }
  { exact Hq1'. }
  { done. }
  { done. }
  { exact (proj2 (proj2 (proj2 Hc2))). }
  { apply not_full_of_length; [done|]. rewrite Hcont1. simpl. lia. }
  rewrite Hcont1 in Hcont2. cbn [app] in Hcont2.
  set (lgA2 := {| _mLogLevel := _mLogLevel lgA1; _mFileStream := _mFileStream lgA1;
                  _mThreadScopedQueues :=
                    <[thread := q2]> (_mThreadScopedQueues lgA1) |}) in *.
  assert (Hwf2 : logger_wf lgA2).
  { intros t q. unfold lgA2, lgA1, lgA0.
    cbn [SetLogLevel FastLogger_new _mThreadScopedQueues]. rewrite lookup_insert.
    case_decide; [by intros [= <-]|]. rewrite lookup_insert.
    case_decide; [done|]. by rewrite lookup_empty. }
  assert (Hout : outstanding lgA2 = SPSC.contents kQueueSize q2).
  { rewrite (outstanding_one_thread lgA2 thread).
    - unfold scoped_queue, lgA2. cbn [_mThreadScopedQueues].
      by rewrite lookup_insert_eq.
    - intros t Ht. unfold lgA2, lgA1, lgA0.
      cbn [SetLogLevel FastLogger_new _mThreadScopedQueues].
      by rewrite !lookup_insert_ne, lookup_empty by done. }
  assert (Hcalls : Forall2 message_of (outstanding lgA2) [c1; c2]).
  { rewrite Hout, Hcont2. constructor; [|constructor; [|constructor]].
    - split; [done|]. by exists slot1.
    - split; [done|]. by exists slot2. }
  eexists w1, _, _, _, lgA2, _.
  split; [exact HL1|]. split; [exact HL2|]. split.
  { unfold w1. cbn [loggers]. rewrite !lookup_insert_ne by done. exact HB. }
  split; [cbn [loggers]; apply lookup_insert_eq|]. split; [done|]. split.
  { apply (ConsumeAndWriteLogs_calls clock lgA2 _ Hwf2 Hcalls). }
  split; [done|]. by apply (outstanding_drained lgA2).
Qed.

Lemma thread_queue_stays_with_first_logger_witness :
  let ios := {| ostream_float := λ _, str "1.5"; ostream_double := λ _, str "2.5" |} in
  let clock := λ n : nat,
    {| tm_year := 126; tm_mon := 10; tm_mday := 3;
       tm_hour := 4; tm_min := 5; tm_sec := Z.of_nat n |} in
  let w := {| loggers := <[1%nat := SetLogLevel FastLogger_new ERROR]>
                           (<[2%nat := FastLogger_new]> ∅);
              sThreadScopedQueue := ∅ |} in
  let c1 := {| call_function := str "void f()"; call_format := str "a {}";
               call_level := ERROR; call_args := [AInt true W32 1] |} in
  let c2 := {| call_function := str "void f()"; call_format := str "b";
               call_level := INFO; call_args := [] |} in
  ((1 ≠ 2)%nat ∧
   loggers w !! 1%nat = Some (SetLogLevel FastLogger_new ERROR) ∧
   loggers w !! 2%nat = Some FastLogger_new ∧
   sThreadScopedQueue w !! 7%nat = None ∧
   call_ok c1 ∧ call_ok c2 ∧
   accepted ERROR c1 = true ∧ accepted (_mLogLevel FastLogger_new) c2 = true) ∧
  accepted ERROR c2 = false ∧
  ∃ w1 sp1 w2 sp2 lgA lgA',
    FAST_LOG_at w 1 7 c1 = Some (w1, sp1) ∧
    FAST_LOG_at w1 2 7 c2 = Some (w2, sp2) ∧
    loggers w2 !! 2%nat = Some FastLogger_new ∧
    loggers w2 !! 1%nat = Some lgA ∧
    _mLogLevel lgA = ERROR ∧
    ConsumeAndWriteLogs clock lgA = Some lgA' ∧
    _mFileStream lgA' = spec_lines clock 0 [c1; c2] ∧
    outstanding lgA' = [].
Proof.
  intros ios clock w c1 c2.
  assert (Hnul : ∀ s : string, forallb (λ a, negb (Ascii.eqb a NUL)) (str s) = true →
                               NUL ∉ str s).
  { intros s Hs Hin. rewrite forallb_forall in Hs.
    apply list_elem_of_In, Hs in Hin. by rewrite Ascii.eqb_refl in Hin. }
  assert (Hne : (1 ≠ 2)%nat) by lia.
  assert (HA : loggers w !! 1%nat = Some (SetLogLevel FastLogger_new ERROR))
    by apply lookup_insert_eq.
  assert (HB : loggers w !! 2%nat = Some FastLogger_new).
  { unfold w. cbn [loggers]. rewrite lookup_insert_ne by lia. apply lookup_insert_eq. }
  assert (Ht : sThreadScopedQueue w !! 7%nat = None) by apply lookup_empty.
  assert (Hc1 : call_ok c1).
  { split; [by apply Hnul|]. split; [by apply Hnul|]. split.
    - repeat constructor; vm_compute; congruence.
    - vm_compute. lia. }
  assert (Hc2 : call_ok c2).
  { split; [by apply Hnul|]. split; [by apply Hnul|]. split.
    - constructor.
    - vm_compute. lia. }
  assert (Ha1 : accepted ERROR c1 = true) by reflexivity.
  assert (Ha2 : accepted (_mLogLevel FastLogger_new) c2 = true) by reflexivity.
  split; [done|]. split; [reflexivity|].
  exact (thread_queue_stays_with_first_logger clock w 1 2 7 ERROR FastLogger_new c1 c2
           Hne HA HB Ht Hc1 Hc2 Ha1 Ha2).
Defined.

(** * An oversized message in the last slot *)

(** X27. An oversized message in the last slot overwrites the read index.
    The queue is laid out as 1024 messages of 1032 bytes (formatter pointer,
    then buffer) followed at once by [_mHead]: the array ends on a multiple
    of 64.  When the write index is 1023 and the level byte and the encoded
    arguments take between 1025 and 1032 bytes, the call is not refused: the
    message is constructed in slot 1023, the bytes from offset 1024 on
    replace the low bytes of [_mHead], the other bytes of [_mHead] stay, and
    the write index becomes 0.  Nothing else of the program changes. *)
Theorem overflow_overwrites_head (w : World) (logger thread owner : nat)
    (lg olg : FastLogger) (q : SPSC.SPSCQueue LogMessage) (f : LogFormatter)
    (lvl : LogLevel) (args : list Arg) :
  loggers w !! logger = Some lg →
  LogLevel_value (_mLogLevel lg) ≤ LogLevel_value lvl →
  calling_thread_queue w logger thread owner olg q →
  SPSC.wf kQueueSize q →
  Forall (λ m, length (_mDataBuffer m) = kDataBufferSize) (SPSC._mDataBuffer q) →
  SPSC._mTail q = 1023 →
  SPSC._mHead q ≠ 0 →
  (kDataBufferSize < length (payload_stream lvl args) ≤ kDataBufferSize + 8)%nat →
  let over := drop kDataBufferSize (payload_stream lvl args) in
  let q' :=
    SPSC.Build
      (alter (λ slot, LogMessage_new slot f lvl args) 1023%nat (SPSC._mDataBuffer q))
      (le_value (over ++ drop (length over) (le_bytes 8 (SPSC._mHead q))))
      0 in
  Log_at w logger thread f lvl args =
    Some ({| loggers :=
               <[owner := {| _mLogLevel := _mLogLevel olg;
                             _mFileStream := _mFileStream olg;
                             _mThreadScopedQueues :=
                               <[thread := q']> (_mThreadScopedQueues olg) |}]>
                 (loggers w);
             sThreadScopedQueue := <[thread := owner]> (sThreadScopedQueue w) |},
          imap (λ j c, ((kDataBufferSize + j)%nat, c)) over).
Proof.
  intros Hlg Hl Hq Hwf Hs Ht Hh Hlen over q'.
  rewrite (Log_at_unfold w logger thread owner lg olg q f lvl args Hlg Hl Hq).
  cbn zeta. destruct Hwf as (Hbuf & Hhr & _).
  destruct (lookup_lt_is_Some_2 (SPSC._mDataBuffer q) 1023) as [slot Hslot].
  { rewrite Hbuf. unfold kQueueSize. lia. }
  assert (Hsl : length (_mDataBuffer slot) = kDataBufferSize).
  { eapply (Forall_lookup_1 _ _ _ _ Hs Hslot). }
  unfold SPSC.Enqueue. rewrite Ht.
  change (SPSC.getNextIndex kQueueSize 1023) with 0.
  destruct (0 =? SPSC._mHead q) eqn:E; [apply Z.eqb_eq in E; lia|].
  change (Z.to_nat 1023) with 1023%nat. rewrite Hslot.
  cbn [mbind option_bind default from_option id].
  rewrite construct_spec. cbn [spilled]. rewrite Hsl, drop_imap.
  fold over.
  pose proof (behind_head over 0 (le_bytes 8 (SPSC._mHead q))
                (alter (λ slot, LogMessage_new slot f lvl args) 1023%nat
                   (SPSC._mDataBuffer q)) 0) as Hb.
  rewrite le_value_le_bytes, Z.mod_small in Hb by (unfold kQueueSize in Hhr; lia).
  rewrite (imap_ext _ (λ j c, ((1024 + (0 + j))%nat, c))) by done.
  rewrite Hb.
  2:{ apply length_le_bytes. }
  2:{ unfold over. rewrite length_drop. lia. }
  cbn [mbind option_bind take app]. done.
Qed.

Lemma overflow_overwrites_head_witness :
  let f := call_site_formatter (str "int main()") (str "{}") [TString] in
  let args := [AString (replicate 1024 "a"%char)] in
  let q := SPSC.Build (replicate 1024 zero_message) 1023 1023 in
  let lg := {| _mLogLevel := INFO; _mFileStream := [];
               _mThreadScopedQueues := {[ 1%nat := q ]} |} in
  let w := alone lg in
  (loggers w !! O = Some lg ∧
   LogLevel_value (_mLogLevel lg) ≤ LogLevel_value INFO ∧
   calling_thread_queue w 0 1 0 lg q ∧
   SPSC.wf kQueueSize q ∧
   Forall (λ m, length (_mDataBuffer m) = kDataBufferSize) (SPSC._mDataBuffer q) ∧
   SPSC._mTail q = 1023 ∧
   SPSC._mHead q ≠ 0 ∧
   (kDataBufferSize < length (payload_stream INFO args) ≤ kDataBufferSize + 8)%nat) ∧
  length (SPSC.contents kQueueSize q) = 0%nat ∧
  ∃ w' q',
    Log_at w 0 1 f INFO args = Some (w', [(1024%nat, "a"%char); (1025%nat, NUL)]) ∧
    (lg' ← loggers w' !! O; _mThreadScopedQueues lg' !! 1%nat) = Some q' ∧
    SPSC._mHead q' = 97 ∧
    SPSC._mTail q' = 0 ∧
    length (SPSC.contents kQueueSize q') = 927%nat.
Proof.
  intros f args q lg w.
  assert (Hlg : loggers w !! O = Some lg) by apply lookup_singleton_eq.
  assert (Hhi : LogLevel_value (_mLogLevel lg) ≤ LogLevel_value INFO) by (simpl; lia).
  assert (Hq : calling_thread_queue w 0 1 0 lg q).
  { split; [exact Hlg|]. unfold w, alone, lg. cbn [sThreadScopedQueue _mThreadScopedQueues].
    rewrite map_fmap_singleton, lookup_singleton_eq. split; [done|].
    apply lookup_singleton_eq. }
  assert (Hwf : SPSC.wf kQueueSize q).
  { unfold SPSC.wf, q. cbn [SPSC._mDataBuffer SPSC._mHead SPSC._mTail].
    rewrite length_replicate. unfold kQueueSize. lia. }
  assert (Hs : Forall (λ m, length (_mDataBuffer m) = kDataBufferSize)
                 (SPSC._mDataBuffer q)).
  { unfold q. cbn [SPSC._mDataBuffer]. apply Forall_replicate. reflexivity. }
  assert (Ht : SPSC._mTail q = 1023) by reflexivity.
  assert (Hh : SPSC._mHead q ≠ 0) by (cbn; lia).
  assert (Hlen : (kDataBufferSize < length (payload_stream INFO args)
                  ≤ kDataBufferSize + 8)%nat).
  { replace (length (payload_stream INFO args)) with 1026%nat
      by (vm_compute; reflexivity). unfold kDataBufferSize. lia. }
  split.
  { exact (conj Hlg (conj Hhi (conj Hq (conj Hwf (conj Hs (conj Ht (conj Hh Hlen))))))). }
  split; [reflexivity|].
  eexists _, _. split; [|split; [|split; [|split]]].
  - rewrite (overflow_overwrites_head w 0 1 0 lg lg q f INFO args
               Hlg Hhi Hq Hwf Hs Ht Hh Hlen).
    f_equal.
  - cbn [loggers]. rewrite lookup_insert_eq. cbn [mbind option_bind _mThreadScopedQueues].
    apply lookup_insert_eq.
  - vm_compute. reflexivity.
  - reflexivity.
  - vm_compute. reflexivity.
Defined.
